(** * Consistent hashing with bounded loads: [consistent/consistent.go]

    A shallow embedding of the [Consistent] ring of the repository and the
    properties of its specification.

    Conventions of the embedding.
    - [uint64] and [int] values are integers of [Z]; the conversions
      [uint64(..)] and [int(..)] are written out as wrap-arounds.
    - [[]byte] is [list byte]; Go strings are [string].
    - Go maps are [gmap]s.  A [*Member] stored in a map is the member it
      points to (members are never mutated); reading through a missing
      entry is the nil dereference of Go and panics.
    - [float64]: [Config.Load] is the rational it denotes.  The two rounding
      operations of [averageLoad] (the conversion [float64(q)] and the
      product) go through [round64], the rounding of binary64 seen as a
      function on the rationals, which stays a parameter of the development
      (the class [Float64]).
      The result of [math.Ceil] is an integer and is kept as one, and so are
      the entries of the load table: they count partitions, and [load + 1]
      and [++] are exact on such values.
    - A panic is the result [Panic msg]; the loop [for { .. }] of
      [distributeWithLoad] runs on fuel, and [OutOfFuel] is shown never to
      be returned.

    The two other packages of the repository, [rendezvous] and [jump], are
    embedded in the modules of these names, with the same conventions; the
    [float64] arithmetic of [jump.Hash] goes through [round64] too. *)

From Stdlib Require Import ZArith QArith Qround Lia Bool List.
From Stdlib Require Import Strings.Ascii Strings.String Strings.Byte DecimalString.
From stdpp Require Import gmap strings list list_numbers fin_maps sorting.

Local Close Scope Q_scope.
Local Open Scope Z_scope.

(** ** Machine integers and bytes *)

Definition uint64 (z : Z) : Z := z mod 2 ^ 64.

(** [int(u)] for a [uint64] [u]: the signed reading of the same 64 bits. *)
Definition int (z : Z) : Z :=
  let u := z mod 2 ^ 64 in if u <? 2 ^ 63 then u else u - 2 ^ 64.

Definition byte_to_Z (b : byte) : Z := Z.of_N (Byte.to_N b).

Definition byte_of_Z (z : Z) : byte :=
  match Byte.of_N (Z.to_N (z mod 256)) with
  | Some b => b
  | None => x00
  end.

(** [binary.LittleEndian.PutUint64(bs, v)] on an 8-byte slice. *)
Definition PutUint64 (v : Z) : list byte :=
  (fun k => byte_of_Z (Z.shiftr v (8 * k))) <$> seqZ 0 8.

(** [fmt.Sprintf("%s%d", name, i)] *)
Definition Sprintf_sd (name : string) (i : Z) : string :=
  (name ++ NilZero.string_of_int (Z.to_int i))%string.

(** [[]byte(s)] *)
Definition bytes (s : string) : list byte := list_byte_of_string s.

(** ** Results of calls that may panic *)

Inductive result (A : Type) : Type :=
| Ok (a : A)
| Panic (msg : string)
| OutOfFuel.
Arguments Ok {A} a.
Arguments Panic {A} msg.
Arguments OutOfFuel {A}.

#[global] Instance result_bind : MBind result := fun A B k r =>
  match r with
  | Ok a => k a
  | Panic msg => Panic msg
  | OutOfFuel => OutOfFuel
  end.

Definition panic_no_room : string := "not enough room to distribute partitions".
Definition panic_nil_hash : string := "HashFunc cannot be nil".
Definition panic_nil_deref : string :=
  "runtime error: invalid memory address or nil pointer dereference".
Definition panic_index : string := "runtime error: index out of range".
Definition panic_div_zero : string := "runtime error: integer divide by zero".

(** ** Library functions of Go used by the package *)

(** [s[i]] on a slice *)
Definition index {A : Type} (l : list A) (i : Z) : option A :=
  if i <? 0 then None else l !! Z.to_nat i.

(** [sort.Search(n, f)]: the loop [for i < j] of the library; [j - i]
    shrinks at every turn, so [n] turns are enough. *)
Fixpoint sort_Search_loop (fuel : nat) (f : Z -> bool) (i j : Z) : Z :=
  match fuel with
  | O => i
  | S fuel' =>
      if i <? j then
        let h := (i + j) / 2 in
        if negb (f h) then sort_Search_loop fuel' f (h + 1) j
        else sort_Search_loop fuel' f i h
      else i
  end.

Definition sort_Search (n : Z) (f : Z -> bool) : Z :=
  sort_Search_loop (Z.to_nat n) f 0 n.

(** [sort.Slice(s, func(i, j) bool { return s[i] < s[j] })] on [uint64]s:
    the ascending rearrangement of the slice. *)
Definition sortSlice (l : list Z) : list Z := merge_sort Z.le l.

(** [hash/fnv]'s [New64] (FNV-1), the hash of [consistent_test.go]. *)
Definition fnv64 (data : list byte) : Z :=
  fold_left
    (fun h b => Z.lxor ((h * 1099511628211) mod 2 ^ 64) (byte_to_Z b))
    data 14695981039346656037.

(** ** The data model *)

Definition DefaultPartitionCount : Z := 271.
Definition DefaultReplicationFactor : Z := 20.
Definition DefaultLoad : Q := 5 # 4.

(** [type Member interface { String() string }] *)
Class Member (M : Type) := Member_String : M -> string.

(** The rounding of binary64, as a function on the rationals. *)
Class Float64 := round64 : Q -> Q.

(** [type HashFunc interface { Sum64([]byte) uint64 }]: the types [HF]
    that have the method. *)
Class Hasher (HF : Type) := Hasher_Sum64 : HF -> list byte -> Z.

(** [None] in [HashFunc] is the nil interface. *)
Record Config (HF : Type) : Type := mkConfig {
  HashFunc : option HF;
  PartitionCount : Z;
  ReplicationFactor : Z;
  Load : Q
}.
Arguments mkConfig {HF}.
Arguments HashFunc {HF}.
Arguments PartitionCount {HF}.
Arguments ReplicationFactor {HF}.
Arguments Load {HF}.

Record Consistent (M HF : Type) : Type := mkConsistent {
  config : Config HF;
  hashFunc : HF;
  sortedSet : list Z;
  partitionCount : Z;
  loads : gmap string Z;
  members : gmap string M;
  partitions : gmap Z M;
  ring : gmap Z M
}.
Arguments mkConsistent {M HF}.
Arguments config {M HF}.
Arguments hashFunc {M HF}.
Arguments sortedSet {M HF}.
Arguments partitionCount {M HF}.
Arguments loads {M HF}.
Arguments members {M HF}.
Arguments partitions {M HF}.
Arguments ring {M HF}.

(** The sum of the entries of a load table. *)
Definition totalLoad (loads : gmap string Z) : Z :=
  map_fold (fun _ v acc => v + acc) 0 loads.

Section Model.

Context {M HF : Type} {Member_M : Member M} {Hasher_HF : Hasher HF}
  {float64_rounding : Float64}.

(** [float64(q)] for an integer [q] *)
Definition float64 (q : Z) : Q := round64 (inject_Z q).

(** [x * y] on [float64] *)
Definition fmul (x y : Q) : Q := round64 (x * y)%Q.

(** [len(m)] of a map *)
Definition len {K : Type} `{Countable K} {A : Type} (m : gmap K A) : Z :=
  Z.of_nat (size m).

(** [c.hashFunc.Sum64(data)], a [uint64] *)
Definition Sum64 (c : Consistent M HF) (data : list byte) : Z :=
  uint64 (Hasher_Sum64 (hashFunc c) data).

(** [loads[name]]: the zero value when the key is absent *)
Definition load_of (loads : gmap string Z) (name : string) : Z :=
  default 0 (loads !! name).

(** [averageLoad()]: the integer that [math.Ceil] returns. *)
Definition averageLoad (c : Consistent M HF) : Z :=
  if len (members c) =? 0 then 0
  else
    let avgLoad :=
      fmul (float64 (partitionCount c / uint64 (len (members c))))
           (Load (config c)) in
    Qceiling avgLoad.

Definition AverageLoad (c : Consistent M HF) : Z := averageLoad c.

(** The loop [for { .. }] of [distributeWithLoad]; [count] and [idx] are
    its two variables. *)
Fixpoint distributeWithLoad_loop (fuel : nat) (c : Consistent M HF)
    (avgLoad : Z) (count : Z) (partID idx : Z)
    (partitions : gmap Z M) (loads : gmap string Z)
  : result (gmap Z M * gmap string Z) :=
  match fuel with
  | O => OutOfFuel
  | S fuel' =>
      let count := count + 1 in
      if Z.of_nat (length (sortedSet c)) <=? count then Panic panic_no_room
      else
        match index (sortedSet c) idx with
        | None => Panic panic_index
        | Some i =>
            match ring c !! i with
            | None => Panic panic_nil_deref
            | Some member =>
                let load := load_of loads (Member_String member) in
                if load + 1 <=? avgLoad then
                  Ok (<[partID := member]> partitions,
                      <[Member_String member := load + 1]> loads)
                else
                  let idx := idx + 1 in
                  let idx :=
                    if Z.of_nat (length (sortedSet c)) <=? idx then 0 else idx in
                  distributeWithLoad_loop fuel' c avgLoad count partID idx
                    partitions loads
            end
        end
  end.

Definition distributeWithLoad (c : Consistent M HF) (partID idx : Z)
    (partitions : gmap Z M) (loads : gmap string Z)
  : result (gmap Z M * gmap string Z) :=
  let avgLoad := averageLoad c in
  distributeWithLoad_loop (S (length (sortedSet c))) c avgLoad 0 partID idx
    partitions loads.

(** The index at which [distributePartitions] starts the probe of a
    partition: [sort.Search] for the first hash at or after the key of the
    partition, and 0 past the end. *)
Definition searchIdx (c : Consistent M HF) (partID : Z) : Z :=
  let key := Sum64 c (PutUint64 partID) in
  let n := Z.of_nat (length (sortedSet c)) in
  let idx := sort_Search n (fun i => match index (sortedSet c) i with
                                | Some h => key <=? h
                                | None => false
                                end) in
  if n <=? idx then 0 else idx.

(** The loop of [distributePartitions] over the partition ids [ids]. *)
Fixpoint distributeFrom (c : Consistent M HF) (ids : list Z)
    (partitions : gmap Z M) (loads : gmap string Z)
  : result (gmap Z M * gmap string Z) :=
  match ids with
  | [] => Ok (partitions, loads)
  | partID :: ids' =>
      pl ← distributeWithLoad c (int partID) (searchIdx c partID)
             partitions loads;
      distributeFrom c ids' (fst pl) (snd pl)
  end.

Definition distributePartitions (c : Consistent M HF)
  : result (Consistent M HF) :=
  pl ← distributeFrom c (seqZ 0 (partitionCount c)) ∅ ∅;
  Ok {| config := config c; hashFunc := hashFunc c; sortedSet := sortedSet c;
        partitionCount := partitionCount c;
        loads := snd pl; members := members c;
        partitions := fst pl; ring := ring c |}.

(** One turn of the loop of [add]: the virtual node of replica [i]. *)
Definition addReplica (member : M) (c : Consistent M HF) (i : Z)
  : Consistent M HF :=
  let key := bytes (Sprintf_sd (Member_String member) i) in
  let h := Sum64 c key in
  {| config := config c; hashFunc := hashFunc c;
     sortedSet := sortedSet c ++ [h];
     partitionCount := partitionCount c;
     loads := loads c; members := members c;
     partitions := partitions c; ring := <[h := member]> (ring c) |}.

Definition add (member : M) (c : Consistent M HF) : Consistent M HF :=
  let c := foldl (addReplica member) c
             (seqZ 0 (ReplicationFactor (config c))) in
  {| config := config c; hashFunc := hashFunc c;
     sortedSet := sortSlice (sortedSet c);
     partitionCount := partitionCount c;
     loads := loads c;
     members := <[Member_String member := member]> (members c);
     partitions := partitions c; ring := ring c |}.

Definition Add (member : M) (c : Consistent M HF) : result (Consistent M HF) :=
  match members c !! Member_String member with
  | Some _ => Ok c
  | None => distributePartitions (add member c)
  end.

(** [delSlice]: drops the first occurrence of [val]. *)
Fixpoint delSlice (val : Z) (l : list Z) : list Z :=
  match l with
  | [] => []
  | x :: l' => if x =? val then l' else x :: delSlice val l'
  end.

(** One turn of the loop of [Remove]. *)
Definition removeReplica (name : string) (c : Consistent M HF) (i : Z)
  : Consistent M HF :=
  let key := bytes (Sprintf_sd name i) in
  let h := Sum64 c key in
  {| config := config c; hashFunc := hashFunc c;
     sortedSet := delSlice h (sortedSet c);
     partitionCount := partitionCount c;
     loads := loads c; members := members c;
     partitions := partitions c; ring := delete h (ring c) |}.

(** [Remove], from its loop to [delete(c.members, name)]. *)
Definition removeNodes (name : string) (c : Consistent M HF) : Consistent M HF :=
  let c := foldl (removeReplica name) c
             (seqZ 0 (ReplicationFactor (config c))) in
  {| config := config c; hashFunc := hashFunc c;
     sortedSet := sortedSet c; partitionCount := partitionCount c;
     loads := loads c; members := delete name (members c);
     partitions := partitions c; ring := ring c |}.

Definition Remove (name : string) (c : Consistent M HF)
  : result (Consistent M HF) :=
  match members c !! name with
  | None => Ok c
  | Some _ =>
      let c := removeNodes name c in
      if len (members c) =? 0 then
        Ok {| config := config c; hashFunc := hashFunc c;
              sortedSet := sortedSet c; partitionCount := partitionCount c;
              loads := loads c; members := members c;
              partitions := ∅; ring := ring c |}
      else distributePartitions c
  end.

(** The three defaults that [New] fills in. *)
Definition withDefaults (config : Config HF) : Config HF :=
  let config :=
    if PartitionCount config =? 0
    then mkConfig (HashFunc config) DefaultPartitionCount
           (ReplicationFactor config) (Load config)
    else config in
  let config :=
    if ReplicationFactor config =? 0
    then mkConfig (HashFunc config) (PartitionCount config)
           DefaultReplicationFactor (Load config)
    else config in
  if Qeq_bool (Load config) 0
  then mkConfig (HashFunc config) (PartitionCount config)
         (ReplicationFactor config) DefaultLoad
  else config.

(** The [&Consistent{..}] that [New] starts from; the fields it does not
    name are nil. *)
Definition newConsistent (hf : HF) (config : Config HF)
  : Consistent M HF :=
  {| config := config; hashFunc := hf; sortedSet := [];
     partitionCount := uint64 (PartitionCount config);
     loads := ∅; members := ∅; partitions := ∅; ring := ∅ |}.

(** [New(members, config)]; [None] is the nil slice. *)
Definition New (ms : option (list M)) (config : Config HF)
  : result (Consistent M HF) :=
  match HashFunc config with
  | None => Panic panic_nil_hash
  | Some hf =>
      let config := withDefaults config in
      let c := newConsistent hf config in
      let c := foldl (fun c member => add member c) c (default [] ms) in
      match ms with
      | Some _ => distributePartitions c
      | None => Ok c
      end
  end.

Definition LoadDistribution (c : Consistent M HF) : gmap string Z := loads c.

(** [GetMembers()]; [order] is the order in which the range over the
    member map yields its entries. *)
Definition GetMembers (c : Consistent M HF) (order : list (string * M))
  : list M :=
  foldl (fun members entry => members ++ [snd entry]) [] order.

Definition FindPartitionID (c : Consistent M HF) (key : list byte) : result Z :=
  let hKey := Sum64 c key in
  if partitionCount c =? 0 then Panic panic_div_zero
  else Ok (int (hKey mod partitionCount c)).

(** [None] is the nil [Member]. *)
Definition getPartitionOwner (c : Consistent M HF) (partID : Z) : option M :=
  match partitions c !! partID with
  | None => None
  | Some member => Some member
  end.

Definition GetPartitionOwner (c : Consistent M HF) (partID : Z) : option M :=
  getPartitionOwner c partID.

Definition LocateKey (c : Consistent M HF) (key : list byte)
  : result (option M) :=
  partID ← FindPartitionID c key;
  Ok (GetPartitionOwner c partID).

(** [ErrInsufficientMemberCount] *)
Inductive error : Type := ErrInsufficientMemberCount.

(** One turn of [for name, member := range c.members] in [getClosestN];
    [owner.String()] on the nil [Member] panics. *)
Definition rangeStep (c : Consistent M HF) (owner : option M)
    (st : result (Z * list Z * gmap Z M)) (entry : string * M)
  : result (Z * list Z * gmap Z M) :=
  '(ownerKey, keys, kMems) ← st;
  let key := Sum64 c (bytes (fst entry)) in
  match owner with
  | None => Panic panic_nil_deref
  | Some o =>
      let ownerKey :=
        if decide (fst entry = Member_String o) then key else ownerKey in
      Ok (ownerKey, keys ++ [key], <[key := snd entry]> kMems)
  end.

(** The loop [for idx < len(keys)] that looks for the owner's key, over
    the keys from [idx] on. *)
Fixpoint findOwner (rest : list Z) (kMems : gmap Z M) (ownerKey : Z)
    (idx : Z) : result (Z * list M) :=
  match rest with
  | [] => Ok (idx, [])
  | key :: rest' =>
      if key =? ownerKey then
        match kMems !! key with
        | None => Panic panic_nil_deref
        | Some m => Ok (idx, [m])
        end
      else findOwner rest' kMems ownerKey (idx + 1)
  end.

(** The loop [for len(res) < count]: every turn appends to [res]. *)
Fixpoint closestLoop (fuel : nat) (keys : list Z) (kMems : gmap Z M)
    (count idx : Z) (res : list M) : result (list M) :=
  match fuel with
  | O => OutOfFuel
  | S fuel' =>
      if Z.of_nat (length res) <? count then
        let idx := idx + 1 in
        let idx := if Z.of_nat (length keys) <=? idx then 0 else idx in
        match index keys idx with
        | None => Panic panic_index
        | Some key =>
            match kMems !! key with
            | None => Panic panic_nil_deref
            | Some m => closestLoop fuel' keys kMems count idx (res ++ [m])
            end
        end
      else Ok res
  end.

(** [getClosestN(partID, count)].  Go leaves open the order in which
    [range c.members] yields the entries of the map: it is the argument
    [order], one of the arrangements of the entries. *)
Definition getClosestN (c : Consistent M HF) (order : list (string * M))
    (partID count : Z) : result (list M * option error) :=
  if len (members c) <? count then Ok ([], Some ErrInsufficientMemberCount)
  else
    let owner := getPartitionOwner c partID in
    '(ownerKey, keys, kMems) ← foldl (rangeStep c owner) (Ok (0, [], ∅)) order;
    let keys := sortSlice keys in
    '(idx, res) ← findOwner keys kMems ownerKey 0;
    res ← closestLoop (S (Z.to_nat count)) keys kMems count idx res;
    Ok (res, None).

Definition GetClosestN (c : Consistent M HF) (order : list (string * M))
    (key : list byte) (count : Z) : result (list M * option error) :=
  partID ← FindPartitionID c key;
  getClosestN c order partID count.

Definition GetClosestNForPartition (c : Consistent M HF)
    (order : list (string * M)) (partID count : Z)
  : result (list M * option error) :=
  getClosestN c order partID count.

(** ** Sequences of membership changes *)

Inductive op : Type :=
| OpAdd (member : M)
| OpRemove (name : string).

Definition apply_op (o : op) (c : Consistent M HF) : result (Consistent M HF) :=
  match o with
  | OpAdd member => Add member c
  | OpRemove name => Remove name c
  end.

Fixpoint run (ops : list op) (c : Consistent M HF) : result (Consistent M HF) :=
  match ops with
  | [] => Ok c
  | o :: ops' => c' ← apply_op o c; run ops' c'
  end.

(** ** Reading the tables *)

(** The partitions that a table gives to the member called [name]. *)
Definition owned (pt : gmap Z M) (name : string) : Z :=
  Z.of_nat (size (filter (fun pm => Member_String pm.2 = name) pt)).

(** The virtual node of replica [i] of the member called [name]. *)
Definition vnode (c : Consistent M HF) (name : string) (i : Z) : Z :=
  Sum64 c (bytes (Sprintf_sd name i)).

(** ** Invariants of the ring and of the tables *)

(** Every entry of the ring map is a virtual node of a current member. *)
Record ring_ok (c : Consistent M HF) : Prop := {
  ring_member : forall (h : Z) (m : M),
    ring c !! h = Some m -> members c !! Member_String m = Some m;
  ring_vnode : forall (h : Z) (m : M),
    ring c !! h = Some m ->
    exists i : Z, 0 <= i < ReplicationFactor (config c) /\
                  h = vnode c (Member_String m) i;
  members_name : forall (name : string) (m : M),
    members c !! name = Some m -> Member_String m = name
}.

(** The tables that a completed pass over the partitions leaves. *)
Record table_ok (c : Consistent M HF) : Prop := {
  table_total : forall p : Z,
    0 <= p < partitionCount c ->
    exists m : M, partitions c !! p = Some m /\
                  members c !! Member_String m = Some m;
  table_dom : forall p : Z,
    is_Some (partitions c !! p) -> 0 <= p < partitionCount c;
  table_load : forall name : string,
    load_of (loads c) name = owned (partitions c) name;
  table_load_keys : forall (name : string) (v : Z),
    loads c !! name = Some v -> 1 <= v <= averageLoad c;
  table_sum : totalLoad (loads c) = partitionCount c
}.

Record state_ok (c : Consistent M HF) : Prop := {
  ok_ring : ring_ok c;
  ok_table : members c <> ∅ -> table_ok c;
  ok_empty : members c = ∅ -> partitions c = ∅;
  ok_count : 0 < partitionCount c < 2 ^ 63
}.

(** [sortedSet] is in ascending order and holds the hash of every entry
    of the ring map. *)
Definition nodes_ok (c : Consistent M HF) : Prop :=
  StronglySorted Z.le (sortedSet c) /\
  forall h : Z, is_Some (ring c !! h) -> h ∈ sortedSet c.

(** The states that [New] and a sequence of [Add] and [Remove] calls lead
    to, none of them panicking, from a configuration whose
    [PartitionCount] is a non-negative [int]. *)
Definition reachable (c : Consistent M HF) : Prop :=
  exists (ms : option (list M)) (cfg : Config HF) (ops : list op)
         (c0 : Consistent M HF),
    0 <= PartitionCount cfg < 2 ^ 63 /\
    New ms cfg = Ok c0 /\ run ops c0 = Ok c.

(** ** The virtual nodes of the members *)

(** The hashes of the virtual nodes of the member called [name], in the
    order of the replicas. *)
Definition vnodes (c : Consistent M HF) (name : string) : list Z :=
  vnode c name <$> seqZ 0 (ReplicationFactor (config c)).

(** [sortedSet] holds the virtual nodes of the current members, each
    once. *)
Definition nodes_exact (c : Consistent M HF) : Prop :=
  sortedSet c ≡ₚ (map_to_list (members c)).*1 ≫= vnodes c.

(** The ring map has an entry for every virtual node of every member,
    and the members are names of [U]. *)
Definition ring_exact (U : list string) (c : Consistent M HF) : Prop :=
  (forall name : string, is_Some (members c !! name) -> name ∈ U) /\
  (forall (name : string) (m : M) (h : Z),
     members c !! name = Some m -> h ∈ vnodes c name ->
     ring c !! h = Some m).

(** ** Histories and tables *)

(** The names that a history brings in: those of the list given to [New]
    and those of the members added. *)
Definition history_names (ms : option (list M)) (ops : list op)
  : list string :=
  (Member_String <$> default [] ms)
  ++ omap (fun o => match o with
                    | OpAdd member => Some (Member_String member)
                    | OpRemove _ => None
                    end) ops.

(** [c] with the tables [pt] and [ld]. *)
Definition with_tables (c : Consistent M HF) (pt : gmap Z M)
    (ld : gmap string Z) : Consistent M HF :=
  {| config := config c; hashFunc := hashFunc c; sortedSet := sortedSet c;
     partitionCount := partitionCount c; loads := ld; members := members c;
     partitions := pt; ring := ring c |}.

(** The tables of a state with members are those of a pass over it. *)
Definition settled (c : Consistent M HF) : Prop :=
  members c <> ∅ -> distributePartitions c = Ok c.

End Model.

Arguments op M : clear implicits.

(** ** The configuration of [consistent_test.go] *)

(** [type testMember string] *)
#[global] Instance testMember : Member string := fun tm => tm.

(** [type hashFunc struct{}], whose [Sum64] is FNV-1. *)
Inductive testHashFunc : Type := hashFunc_value.

#[global] Instance testHashFunc_Hasher : Hasher testHashFunc := fun hs => fnv64.

(** [newConfig()] *)
Definition newConfig : Config testHashFunc :=
  mkConfig (Some hashFunc_value) 23 20 (5 # 4).

(** Rounding that changes nothing: what binary64 does on the values of the
    examples below, which are all multiples of 1/4 of small size. *)
Definition exact64 : Float64 := fun q => q.

(** The members of the worked example of the specification. *)
Definition node123 : list string := ["node1"; "node2"; "node3"]%string.

(** [New(node123, newConfig())], as the code computes it: 60 virtual
    nodes, 23 partitions. *)
Definition ring3 : Consistent string testHashFunc :=
  Eval vm_compute in
    match New (float64_rounding := exact64) (Some node123) newConfig with
    | Ok c => c
    | _ => newConsistent hashFunc_value newConfig
    end.

(** [ring3] after [Remove("node2")]. *)
Definition ring3_less_node2 : Consistent string testHashFunc :=
  Eval vm_compute in
    match Remove (float64_rounding := exact64) "node2" ring3 with
    | Ok c => c
    | _ => newConsistent hashFunc_value newConfig
    end.

(** Configurations with one virtual node per member. *)
Definition oneReplica (P : Z) : Config testHashFunc :=
  mkConfig (Some hashFunc_value) P 1 (5 # 4).

(** A configuration with two partitions. *)
Definition twoPartitions : Config testHashFunc :=
  mkConfig (Some hashFunc_value) 2 20 (5 # 4).

(** A hash function that sends every key to 0, for examples that can be
    followed by hand, and a configuration of two partitions over it. *)
Inductive zeroHashFunc : Type := zeroHash_value.

#[global] Instance zeroHashFunc_Hasher : Hasher zeroHashFunc := fun hs data => 0.

Definition twoPartitionsZero : Config zeroHashFunc :=
  mkConfig (Some zeroHash_value) 2 20 (5 # 4).

(** [New(["node1"], newConfig())]: one member, 20 virtual nodes. *)
Definition ring1 : Consistent string testHashFunc :=
  Eval vm_compute in
    match New (float64_rounding := exact64) (Some ["node1"%string])
            newConfig with
    | Ok c => c
    | _ => newConsistent hashFunc_value newConfig
    end.

(** The ring of ["node1"] and ["node2"] with one virtual node each and
    four partitions, before the pass over the partitions, and the tables
    of that pass once the partitions 0, 1 and 2 are placed. *)
Definition twoNodes : Consistent string testHashFunc :=
  Eval vm_compute in
    foldl (fun c member => add member c)
      (newConsistent hashFunc_value (withDefaults (oneReplica 4)))
      ["node1"; "node2"]%string.

Definition twoNodes_tables : gmap Z string * gmap string Z :=
  Eval vm_compute in
    match distributeFrom (float64_rounding := exact64) twoNodes [0; 1; 2]
            ∅ ∅ with
    | Ok pl => pl
    | _ => (∅, ∅)
    end.

(** Other rings over the configuration of the tests. *)

(** [New(["node3", "node1"], newConfig())] *)
Definition ring31 : Consistent string testHashFunc :=
  Eval vm_compute in
    match New (float64_rounding := exact64)
            (Some ["node3"; "node1"]%string) newConfig with
    | Ok c => c
    | _ => newConsistent hashFunc_value newConfig
    end.

(** [New(["node1", "node11"], newConfig())] *)
Definition ring_1_11 : Consistent string testHashFunc :=
  Eval vm_compute in
    match New (float64_rounding := exact64)
            (Some ["node1"; "node11"]%string) newConfig with
    | Ok c => c
    | _ => newConsistent hashFunc_value newConfig
    end.

(** [New(["node1", "node1"], newConfig())] *)
Definition ring_1_1 : Consistent string testHashFunc :=
  Eval vm_compute in
    match New (float64_rounding := exact64)
            (Some ["node1"; "node1"]%string) newConfig with
    | Ok c => c
    | _ => newConsistent hashFunc_value newConfig
    end.

(** [ring_1_1] after [Remove("node1")] *)
Definition ring_1_1_less : Consistent string testHashFunc :=
  Eval vm_compute in
    match Remove (float64_rounding := exact64) "node1" ring_1_1 with
    | Ok c => c
    | _ => newConsistent hashFunc_value newConfig
    end.

(** [newConfig()] with a load factor of 1. *)
Definition loadOne : Config testHashFunc :=
  mkConfig (Some hashFunc_value) 23 20 1.

(** ** The formulas of the specification *)

(** [ceil((P / member_count) * loadFactor)], read over the rationals, and
    [0] without members. *)
Definition spec_AverageLoad (P n : Z) (loadFactor : Q) : Z :=
  if n =? 0 then 0
  else Qceiling (inject_Z P / inject_Z n * loadFactor)%Q.

(** [ceil(ceil(P / member_count) * loadFactor)], the form of the worked
    example and of the load bound. *)
Definition spec_loadBound {float64_rounding : Float64} (P n : Z) (loadFactor : Q) : Z :=
  Qceiling (fmul (float64 (Qceiling (inject_Z P / inject_Z n)%Q)) loadFactor).

(** * Rendezvous hashing: package [rendezvous] *)

Module rendezvous.

(** [type HashFunc func(s string) uint64]: the types of such function
    values; the nil function is left out. *)
Class HashFunc (H : Type) := HashFunc_call : H -> string -> Z.

Record Rendezvous (H : Type) : Type := mkRendezvous {
  nodes : gmap string Z;
  nStr : list string;
  nHash : list Z;
  hash : H
}.
Arguments mkRendezvous {H}.
Arguments nodes {H}.
Arguments nStr {H}.
Arguments nHash {H}.
Arguments hash {H}.

Definition xorShiftMul64 (x : Z) : Z :=
  let x := Z.lxor x (Z.shiftr x 12) in
  let x := Z.lxor x (uint64 (Z.shiftl x 25)) in
  let x := Z.lxor x (Z.shiftr x 27) in
  uint64 (x * 2685821657736338717).

Section Rendezvous.

Context {H : Type} {HashFunc_H : HashFunc H}.

(** [hash(s)], a [uint64] *)
Definition call (hash : H) (s : string) : Z := uint64 (HashFunc_call hash s).

(** The loop [for i, n := range nodes] of [New], from index [i] on; the
    three slices have the length of [nodes], so no assignment is out of
    range. *)
Fixpoint New_loop (i : nat) (rest : list string) (r : Rendezvous H)
  : Rendezvous H :=
  match rest with
  | [] => r
  | n :: rest' =>
      New_loop (S i) rest'
        {| nodes := <[n := Z.of_nat i]> (nodes r);
           nStr := <[i := n]> (nStr r);
           nHash := <[i := call (hash r) n]> (nHash r);
           hash := hash r |}
  end.

Definition New (nodes : list string) (hash : H) : Rendezvous H :=
  New_loop 0 nodes
    {| nodes := ∅;
       nStr := replicate (length nodes) EmptyString;
       nHash := replicate (length nodes) 0;
       hash := hash |}.

(** The loop [for i, nHash := range r.nHash[1:]] of [Lookup], from index
    [i] on. *)
Fixpoint Lookup_loop (kHash : Z) (rest : list Z) (i mIdx mHash : Z) : Z * Z :=
  match rest with
  | [] => (mIdx, mHash)
  | nHash :: rest' =>
      let h := xorShiftMul64 (Z.lxor kHash nHash) in
      if mHash <? h then Lookup_loop kHash rest' (i + 1) (i + 1) h
      else Lookup_loop kHash rest' (i + 1) mIdx mHash
  end.

Definition Lookup (r : Rendezvous H) (k : string) : result string :=
  if Z.of_nat (size (nodes r)) =? 0 then Ok EmptyString
  else
    let kHash := call (hash r) k in
    match index (nHash r) 0 with
    | None => Panic panic_index
    | Some h0 =>
        let mHash := xorShiftMul64 (Z.lxor kHash h0) in
        let '(mIdx, _) :=
          Lookup_loop kHash (drop 1 (nHash r)) 0 0 mHash in
        match index (nStr r) mIdx with
        | None => Panic panic_index
        | Some n => Ok n
        end
    end.

Definition Add (r : Rendezvous H) (node : string) : Rendezvous H :=
  {| nodes := <[node := Z.of_nat (length (nStr r))]> (nodes r);
     nStr := nStr r ++ [node];
     nHash := nHash r ++ [call (hash r) node];
     hash := hash r |}.

(** [s[i] = v] on a slice *)
Definition store {A : Type} (l : list A) (i : Z) (v : A) : result (list A) :=
  match index l i with
  | None => Panic panic_index
  | Some _ => Ok (<[Z.to_nat i := v]> l)
  end.

(** [Remove]: the operands of [r.nStr[nIdx] = r.nStr[l]] are read before
    the assignment is made. *)
Definition Remove (r : Rendezvous H) (node : string)
  : result (Rendezvous H) :=
  let nIdx := default 0 (nodes r !! node) in
  let l := Z.of_nat (length (nStr r)) in
  match index (nStr r) l with
  | None => Panic panic_index
  | Some s =>
      nStr1 ← store (nStr r) nIdx s;
      let nStr1 := take (Z.to_nat l) nStr1 in
      match index (nHash r) l with
      | None => Panic panic_index
      | Some h =>
          nHash1 ← store (nHash r) nIdx h;
          let nHash1 := take (Z.to_nat l) nHash1 in
          let nodes1 := delete node (nodes r) in
          match index nStr1 nIdx with
          | None => Panic panic_index
          | Some moved =>
              Ok {| nodes := <[moved := nIdx]> nodes1;
                    nStr := nStr1; nHash := nHash1; hash := hash r |}
          end
      end
  end.

(** The score of the node [n] for the key [k]. *)
Definition score (hash : H) (k n : string) : Z :=
  xorShiftMul64 (Z.lxor (call hash k) (call hash n)).

(** The receiver that [New(nodes, hash)] and then one [Add] for each
    element of [adds] leave. *)
Definition built (hash : H) (nodes adds : list string) : Rendezvous H :=
  foldl Add (New nodes hash) adds.

End Rendezvous.

End rendezvous.

(** [hash/fnv]'s [New64a] (FNV-1a), the hash of [rendezvous_test.go]. *)
Definition fnv64a (data : list byte) : Z :=
  fold_left
    (fun h b => (Z.lxor h (byte_to_Z b) * 1099511628211) mod 2 ^ 64)
    data 14695981039346656037.

(** [func hashFunc(s string) uint64] of [rendezvous_test.go] *)
Inductive rendezvousHashFunc : Type := rendezvous_hashFunc.

#[global] Instance rendezvousHashFunc_call
  : rendezvous.HashFunc rendezvousHashFunc := fun _ s => fnv64a (bytes s).


(** * Jump consistent hashing: package [jump] *)

Module jump.

(** [int32(x)]: the signed reading of the low 32 bits. *)
Definition int32 (z : Z) : Z :=
  let u := z mod 2 ^ 32 in if u <? 2 ^ 31 then u else u - 2 ^ 32.

(** [type KeyHashFunc interface]: [io.Writer], [Reset()] and [Sum64()] on
    the states [K] of a hash; [Write] returns the error it met, if any. *)
Class KeyHashFunc (K : Type) := {
  KeyHashFunc_Reset : K -> K;
  KeyHashFunc_Write : K -> list byte -> K * option string;
  KeyHashFunc_Sum64 : K -> Z
}.

(** [type HashFunc struct { n int32; h KeyHashFunc }] *)
Record HashFunc (K : Type) : Type := mkHashFunc {
  HashFunc_n : Z;
  HashFunc_h : K
}.
Arguments mkHashFunc {K}.
Arguments HashFunc_n {K}.
Arguments HashFunc_h {K}.

Section Jump.

Context {float64_rounding : Float64}.

(** [x / y] on [float64] *)
Definition fdiv (x y : Q) : Q := round64 (x / y)%Q.

(** [int64(f)] for a [float64] [f]: the integer part of [f]; where it is
    not an [int64], what amd64 gives, the least [int64]. *)
Definition int64_of_float64 (f : Q) : Z :=
  let t := if Qle_bool 0 f then Qfloor f else Qceiling f in
  if (- 2 ^ 63 <=? t) && (t <? 2 ^ 63) then t else - 2 ^ 63.

(** The right-hand side of the assignment to [j]. *)
Definition jump_to (b key : Z) : Z :=
  int64_of_float64
    (fmul (float64 (b + 1))
          (fdiv (float64 (int (Z.shiftl 1 31)))
                (float64 (uint64 (Z.shiftr key 33 + 1))))).

(** The loop [for j < int64(buckets)] of [Hash]. *)
Fixpoint Hash_loop (fuel : nat) (key buckets b j : Z) : result Z :=
  match fuel with
  | O => OutOfFuel
  | S fuel' =>
      if j <? buckets then
        let b := j in
        let key := uint64 (key * 2862933555777941757 + 1) in
        let j := jump_to b key in
        Hash_loop fuel' key buckets b j
      else Ok b
  end.

Definition Hash (key buckets : Z) : result Z :=
  let buckets := if buckets <=? 0 then 1 else buckets in
  b ← Hash_loop (S (Z.to_nat buckets)) key buckets 0 0;
  Ok (int32 b).

Context {K : Type} {KeyHashFunc_K : KeyHashFunc K}.

(** [HashString]; the hash is written to, so its state is returned with
    the result. *)
Definition HashString (key : string) (buckets : Z) (h : K)
  : result Z * K :=
  let h := KeyHashFunc_Reset h in
  let '(h, err) := KeyHashFunc_Write h (bytes key) in
  match err with
  | Some e => (Panic e, h)
  | None => (Hash (uint64 (KeyHashFunc_Sum64 h)) buckets, h)
  end.

Definition New (n : Z) (h : K) : HashFunc K := mkHashFunc (int32 n) h.

Definition N (h : HashFunc K) : Z := int (HashFunc_n h).

(** The method [(h *HashFunc) Hash(key)]. *)
Definition HashFunc_Hash (h : HashFunc K) (key : string)
  : result Z * HashFunc K :=
  let '(r, k) := HashString key (HashFunc_n h) (HashFunc_h h) in
  (b ← r; Ok (int b), mkHashFunc (HashFunc_n h) k).

End Jump.

End jump.

(** [hash/fnv]'s [New64a] as a [KeyHashFunc]: the state is the running
    hash. *)
Inductive fnv1a : Type := fnv1a_state (h : Z).

#[global] Instance fnv1a_KeyHashFunc : jump.KeyHashFunc fnv1a := {|
  jump.KeyHashFunc_Reset := fun _ => fnv1a_state 14695981039346656037;
  jump.KeyHashFunc_Write := fun s p =>
    match s with
    | fnv1a_state h =>
        (fnv1a_state
           (fold_left
              (fun h b => (Z.lxor h (byte_to_Z b) * 1099511628211) mod 2 ^ 64)
              p h), None)
    end;
  jump.KeyHashFunc_Sum64 := fun s => match s with fnv1a_state h => h end
|}.


(** * Properties *)

Section Properties.

Context {M HF : Type} {Member_M : Member M} {Hasher_HF : Hasher HF}
  {float64_rounding : Float64}.

Lemma uint64_small (z : Z) : 0 <= z < 2 ^ 64 -> uint64 z = z.
Proof. intros Hz. unfold uint64. by apply Z.mod_small. Qed.

Lemma uint64_range (z : Z) : 0 <= uint64 z < 2 ^ 64.
Proof. unfold uint64. apply Z.mod_pos_bound. lia. Qed.

Lemma int_small (z : Z) : 0 <= z < 2 ^ 63 -> int z = z.
Proof.
  intros Hz. unfold int. rewrite Z.mod_small by lia.
  destruct (Z.ltb_spec z (2 ^ 63)); lia.
Qed.

Lemma len_nonneg {K : Type} `{Countable K} {A : Type} (m : gmap K A) :
  0 <= len m.
Proof. unfold len. lia. Qed.

Lemma len_zero_iff {K : Type} `{Countable K} {A : Type} (m : gmap K A) :
  len m = 0 <-> m = ∅.
Proof.
  unfold len. rewrite <- map_size_empty_iff. lia.
Qed.

(** C1 (as amended): without members [AverageLoad()] is [0]; with [n]
    members it is the ceiling of the [float64] product of the load factor
    and the integer quotient [q] of [P] by [n], the quotient of Go's
    [uint64] division, which rounds down: [q * n <= P < (q + 1) * n].
    Where the conversion of [q] and the product are exact in binary64,
    this is the ceiling of [q * loadFactor]. *)
Theorem AverageLoad_floor_quotient (c : Consistent M HF) :
  0 <= partitionCount c ->
  len (members c) < 2 ^ 63 ->
  (len (members c) = 0 -> AverageLoad c = 0) /\
  (0 < len (members c) ->
   exists q : Z,
     q * len (members c) <= partitionCount c < (q + 1) * len (members c) /\
     AverageLoad c = Qceiling (fmul (float64 q) (Load (config c))) /\
     (inject_Z (AverageLoad c - 1) < fmul (float64 q) (Load (config c))
      <= inject_Z (AverageLoad c))%Q /\
     ((fmul (float64 q) (Load (config c))
       == inject_Z q * Load (config c))%Q ->
      AverageLoad c = Qceiling (inject_Z q * Load (config c))%Q)).
Proof.
  intros HP Hn. unfold AverageLoad, averageLoad. split.
  - intros ->. reflexivity.
  - intros Hpos.
    destruct (Z.eqb_spec (len (members c)) 0) as [E|_]; [lia|].
    rewrite uint64_small by lia.
    exists (partitionCount c / len (members c)). split; [|split; [|split]].
    + split.
      * rewrite Z.mul_comm. apply Z.mul_div_le. lia.
      * rewrite Z.mul_comm. rewrite Z.mul_add_distr_l, Z.mul_1_r.
        pose proof (Z.mod_pos_bound (partitionCount c) (len (members c)) Hpos).
        pose proof (Z.div_mod (partitionCount c) (len (members c))). lia.
    + reflexivity.
    + split; [apply Qceiling_lt | apply Qle_ceiling].
    + intros Hexact. by apply Qceiling_comp.
Qed.

(** ** The binary search of [sort.Search] *)

Lemma sort_Search_loop_spec (fuel : nat) (f : Z -> bool) (i j : Z) :
  i <= j -> j - i <= Z.of_nat fuel ->
  i <= sort_Search_loop fuel f i j <= j /\
  (sort_Search_loop fuel f i j = i \/
   f (sort_Search_loop fuel f i j - 1) = false) /\
  (sort_Search_loop fuel f i j = j \/
   f (sort_Search_loop fuel f i j) = true).
Proof.
  revert i j. induction fuel as [|fuel IH]; intros i j Hij Hfuel.
  - cbn. assert (i = j) by lia. subst j. lia.
  - cbn [sort_Search_loop]. destruct (Z.ltb_spec i j) as [Hlt|Hge].
    + assert (Hh : i <= (i + j) / 2 < j).
      { split; [apply Z.div_le_lower_bound|apply Z.div_lt_upper_bound];
          lia. }
      destruct (f ((i + j) / 2)) eqn:Hf; cbn [negb].
      * destruct (IH i ((i + j) / 2)) as (Hr & Hlo & Hhi); [lia..|].
        split; [lia|]. split; [done|].
        destruct Hhi as [->|Hhi]; [|by right]. by right.
      * destruct (IH ((i + j) / 2 + 1) j) as (Hr & Hlo & Hhi); [lia..|].
        split; [lia|]. split; [|done].
        destruct Hlo as [->|Hlo]; [|by right].
        right. by replace ((i + j) / 2 + 1 - 1) with ((i + j) / 2) by lia.
    + assert (i = j) by lia. subst j. lia.
Qed.

(** [sort.Search] returns an index of [0, n]: the loop does not run out
    of turns, and at the index it returns the predicate has just become
    true. *)
Lemma sort_Search_spec (n : Z) (f : Z -> bool) :
  0 <= n ->
  0 <= sort_Search n f <= n /\
  (sort_Search n f = 0 \/ f (sort_Search n f - 1) = false) /\
  (sort_Search n f = n \/ f (sort_Search n f) = true).
Proof.
  intros Hn. unfold sort_Search. apply sort_Search_loop_spec; lia.
Qed.

Lemma searchIdx_range (c : Consistent M HF) (partID : Z) :
  (0 < length (sortedSet c))%nat ->
  0 <= searchIdx c partID < Z.of_nat (length (sortedSet c)).
Proof.
  intros Hlen. unfold searchIdx.
  match goal with
  | |- context [sort_Search ?n ?f] =>
      destruct (sort_Search_spec n f) as ([Hlo Hhi] & _); [lia|]
  end.
  destruct (Z.leb_spec (Z.of_nat (length (sortedSet c)))
              (sort_Search (Z.of_nat (length (sortedSet c)))
                 (fun i => match index (sortedSet c) i with
                           | Some h => Sum64 c (PutUint64 partID) <=? h
                           | None => false
                           end))); lia.
Qed.


(** ** The configuration after the defaults *)

Lemma withDefaults_PartitionCount (cfg : Config HF) :
  PartitionCount (withDefaults cfg)
  = if PartitionCount cfg =? 0 then DefaultPartitionCount
    else PartitionCount cfg.
Proof.
  unfold withDefaults.
  destruct (PartitionCount cfg =? 0) eqn:E1; cbn;
    destruct (ReplicationFactor cfg =? 0); cbn;
    destruct (Qeq_bool _ _); cbn; reflexivity.
Qed.

Lemma withDefaults_ReplicationFactor (cfg : Config HF) :
  ReplicationFactor (withDefaults cfg)
  = if ReplicationFactor cfg =? 0 then DefaultReplicationFactor
    else ReplicationFactor cfg.
Proof.
  unfold withDefaults.
  destruct (PartitionCount cfg =? 0) eqn:E1; cbn;
    destruct (ReplicationFactor cfg =? 0); cbn;
    destruct (Qeq_bool _ _); cbn; reflexivity.
Qed.

Lemma partitionCount_New_pos (cfg : Config HF) :
  - 2 ^ 63 <= PartitionCount cfg < 2 ^ 63 ->
  0 < uint64 (PartitionCount (withDefaults cfg)).
Proof.
  intros Hrange. rewrite withDefaults_PartitionCount. unfold uint64.
  destruct (Z.eqb_spec (PartitionCount cfg) 0) as [E|NE].
  - reflexivity.
  - destruct (Z.le_gt_cases 0 (PartitionCount cfg)).
    + rewrite Z.mod_small by lia. lia.
    + replace (PartitionCount cfg)
        with ((PartitionCount cfg + 2 ^ 64) + (-1) * 2 ^ 64) by lia.
      rewrite Z.mod_add by lia. rewrite Z.mod_small by lia. lia.
Qed.

Lemma partitionCount_New (cfg : Config HF) :
  0 <= PartitionCount cfg < 2 ^ 63 ->
  uint64 (PartitionCount (withDefaults cfg))
  = (if PartitionCount cfg =? 0 then DefaultPartitionCount
     else PartitionCount cfg) /\
  0 < uint64 (PartitionCount (withDefaults cfg)) < 2 ^ 63.
Proof.
  intros Hrange. rewrite withDefaults_PartitionCount.
  destruct (Z.eqb_spec (PartitionCount cfg) 0) as [E|NE].
  - split; [reflexivity|]. unfold uint64, DefaultPartitionCount.
    rewrite Z.mod_small; lia.
  - rewrite uint64_small by lia. lia.
Qed.

(** C9: with a hash function, [New] on the empty non-nil slice panics
    with the placement error, raised for partition 0 over the empty ring,
    while [New] on the nil slice skips the pass and returns a ring with no
    virtual node, no member and empty partition and load tables. *)
Theorem New_empty_slice_panics_nil_slice_builds
    (cfg : Config HF) (hf : HF) :
  HashFunc cfg = Some hf ->
  - 2 ^ 63 <= PartitionCount cfg < 2 ^ 63 ->
  New (M := M) (Some []) cfg = Panic panic_no_room /\
  exists c : Consistent M HF,
    New None cfg = Ok c /\
    sortedSet c = [] /\ ring c = ∅ /\ members c = ∅ /\
    partitions c = ∅ /\ loads c = ∅ /\
    0 < partitionCount c /\
    distributeWithLoad c (int 0) (searchIdx c 0) ∅ ∅ = Panic panic_no_room /\
    distributePartitions c = Panic panic_no_room.
Proof.
  intros Hhf Hrange. unfold New. rewrite Hhf. cbn [default foldl].
  pose proof (partitionCount_New_pos cfg Hrange) as HP.
  set (c0 := newConsistent hf (withDefaults cfg)).
  assert (Hd : distributePartitions c0 = Panic panic_no_room).
  { unfold distributePartitions.
    change (partitionCount c0)
      with (uint64 (PartitionCount (withDefaults cfg))).
    rewrite seqZ_cons by lia. reflexivity. }
  split; [exact Hd|].
  exists c0. repeat split; try reflexivity; try assumption.
Qed.


(** ** The placement probe *)

Lemma distributeWithLoad_loop_runs (fuel : nat) (c : Consistent M HF)
    (avgLoad count partID idx : Z) (pt : gmap Z M) (ld : gmap string Z) :
  (1 <= fuel)%nat ->
  Z.of_nat (length (sortedSet c)) <= count + Z.of_nat fuel ->
  distributeWithLoad_loop fuel c avgLoad count partID idx pt ld <> OutOfFuel.
Proof.
  revert count idx. induction fuel as [|fuel IH]; intros count idx Hf Hlen.
  - lia.
  - cbn [distributeWithLoad_loop].
    destruct (Z.leb_spec (Z.of_nat (length (sortedSet c))) (count + 1));
      [discriminate|].
    destruct (index (sortedSet c) idx) as [h|]; [|discriminate].
    destruct (ring c !! h) as [m|]; [|discriminate].
    destruct (_ <=? avgLoad); [discriminate|].
    apply IH; lia.
Qed.

(** The loop of [distributeWithLoad] returns or panics within the fuel it
    is given. *)
Lemma distributeWithLoad_runs (c : Consistent M HF) (partID idx : Z)
    (pt : gmap Z M) (ld : gmap string Z) :
  distributeWithLoad c partID idx pt ld <> OutOfFuel.
Proof.
  unfold distributeWithLoad. apply distributeWithLoad_loop_runs; lia.
Qed.

Lemma index_elem_of {A : Type} (l : list A) (i : Z) (x : A) :
  index l i = Some x -> x ∈ l.
Proof.
  unfold index. destruct (i <? 0); [discriminate|].
  intros Hl. by eapply list_elem_of_lookup_2.
Qed.

Lemma distributeWithLoad_loop_Ok (fuel : nat) (c : Consistent M HF)
    (avgLoad count partID idx : Z) (pt pt' : gmap Z M)
    (ld ld' : gmap string Z) :
  distributeWithLoad_loop fuel c avgLoad count partID idx pt ld
    = Ok (pt', ld') ->
  exists (h : Z) (m : M),
    h ∈ sortedSet c /\ ring c !! h = Some m /\
    load_of ld (Member_String m) + 1 <= avgLoad /\
    pt' = <[partID := m]> pt /\
    ld' = <[Member_String m := load_of ld (Member_String m) + 1]> ld.
Proof.
  revert count idx. induction fuel as [|fuel IH]; intros count idx.
  - discriminate.
  - cbn [distributeWithLoad_loop].
    destruct (Z.leb_spec (Z.of_nat (length (sortedSet c))) (count + 1));
      [discriminate|].
    destruct (index (sortedSet c) idx) as [h|] eqn:Hidx; [|discriminate].
    destruct (ring c !! h) as [m|] eqn:Hring; [|discriminate].
    destruct (Z.leb_spec (load_of ld (Member_String m) + 1) avgLoad).
    + intros [= <- <-]. exists h, m.
      repeat split; eauto using index_elem_of.
    + apply IH.
Qed.

(** What a probe that returns has done: it gave the partition to the
    owner of one virtual node, who had room for it. *)
Lemma distributeWithLoad_Ok (c : Consistent M HF) (partID idx : Z)
    (pt pt' : gmap Z M) (ld ld' : gmap string Z) :
  distributeWithLoad c partID idx pt ld = Ok (pt', ld') ->
  exists (h : Z) (m : M),
    h ∈ sortedSet c /\ ring c !! h = Some m /\
    load_of ld (Member_String m) + 1 <= averageLoad c /\
    pt' = <[partID := m]> pt /\
    ld' = <[Member_String m := load_of ld (Member_String m) + 1]> ld.
Proof. apply distributeWithLoad_loop_Ok. Qed.

(** A ring with at most one virtual node has no probe that returns: the
    count reaches [len(c.sortedSet)] before any node is read. *)
Lemma distributeWithLoad_short_ring (c : Consistent M HF) (partID idx : Z)
    (pt : gmap Z M) (ld : gmap string Z) :
  (length (sortedSet c) <= 1)%nat ->
  distributeWithLoad c partID idx pt ld = Panic panic_no_room.
Proof.
  intros Hlen. unfold distributeWithLoad. cbn [distributeWithLoad_loop].
  destruct (Z.leb_spec (Z.of_nat (length (sortedSet c))) (0 + 1)); [done|lia].
Qed.

(** The probe is a first fit over the [len(c.sortedSet) - 1] virtual
    nodes that follow [idx] on the circle: it gives the partition to the
    owner of the first of them that has room, and panics when none of
    them has.  The node that closes the circle is never read. *)
Lemma distributeWithLoad_loop_first_fit (k fuel : nat) (c : Consistent M HF)
    (avgLoad count partID idx : Z) (pt : gmap Z M) (ld : gmap string Z)
    (h : Z) (m : M) :
  0 <= idx < Z.of_nat (length (sortedSet c)) ->
  count + 1 + Z.of_nat k < Z.of_nat (length (sortedSet c)) ->
  (k < fuel)%nat ->
  (forall t : nat, (t < k)%nat ->
     exists (h' : Z) (m' : M),
       sortedSet c !! Z.to_nat ((idx + Z.of_nat t)
                                mod Z.of_nat (length (sortedSet c)))
       = Some h' /\
       ring c !! h' = Some m' /\
       avgLoad < load_of ld (Member_String m') + 1) ->
  sortedSet c !! Z.to_nat ((idx + Z.of_nat k)
                           mod Z.of_nat (length (sortedSet c))) = Some h ->
  ring c !! h = Some m ->
  load_of ld (Member_String m) + 1 <= avgLoad ->
  distributeWithLoad_loop fuel c avgLoad count partID idx pt ld
  = Ok (<[partID := m]> pt,
        <[Member_String m := load_of ld (Member_String m) + 1]> ld).
Proof.
  revert fuel count idx.
  induction k as [|k IH]; intros fuel count idx Hidx Hcount Hfuel Hfull
    Hh Hm Hroom.
  - destruct fuel as [|fuel]; [lia|]. cbn [distributeWithLoad_loop].
    destruct (Z.leb_spec (Z.of_nat (length (sortedSet c))) (count + 1));
      [lia|].
    rewrite Z.add_0_r, Z.mod_small in Hh by lia.
    unfold index. destruct (Z.ltb_spec idx 0); [lia|].
    rewrite Hh, Hm.
    destruct (Z.leb_spec (load_of ld (Member_String m) + 1) avgLoad);
      [done|lia].
  - destruct fuel as [|fuel]; [lia|]. cbn [distributeWithLoad_loop].
    destruct (Z.leb_spec (Z.of_nat (length (sortedSet c))) (count + 1));
      [lia|].
    destruct (Hfull 0%nat) as (h' & m' & Hh' & Hm' & Hfull'); [lia|].
    rewrite Z.add_0_r, Z.mod_small in Hh' by lia.
    unfold index. destruct (Z.ltb_spec idx 0); [lia|].
    rewrite Hh', Hm'.
    destruct (Z.leb_spec (load_of ld (Member_String m') + 1) avgLoad);
      [lia|].
    set (idx' := if Z.of_nat (length (sortedSet c)) <=? idx + 1
                 then 0 else idx + 1).
    assert (Hidx' : 0 <= idx' < Z.of_nat (length (sortedSet c)) /\
                    idx' = (idx + 1) mod Z.of_nat (length (sortedSet c))).
    { subst idx'.
      destruct (Z.leb_spec (Z.of_nat (length (sortedSet c))) (idx + 1)).
      - assert (E : idx + 1 = Z.of_nat (length (sortedSet c))) by lia.
        rewrite E, Z.mod_same by lia. lia.
      - rewrite Z.mod_small by lia. lia. }
    destruct Hidx' as [Hr Hmod].
    assert (Hshift : forall t : nat,
              (idx' + Z.of_nat t) mod Z.of_nat (length (sortedSet c))
              = (idx + Z.of_nat (S t)) mod Z.of_nat (length (sortedSet c))).
    { intros t. rewrite Hmod, Zplus_mod_idemp_l. f_equal. lia. }
    apply IH; try done; try lia.
    + intros t Ht. rewrite Hshift. apply Hfull. lia.
    + by rewrite Hshift.
Qed.

Lemma distributeWithLoad_loop_no_fit (k fuel : nat) (c : Consistent M HF)
    (avgLoad count partID idx : Z) (pt : gmap Z M) (ld : gmap string Z) :
  0 <= idx < Z.of_nat (length (sortedSet c)) ->
  count + 1 + Z.of_nat k = Z.of_nat (length (sortedSet c)) ->
  (k < fuel)%nat ->
  (forall t : nat, (t < k)%nat ->
     exists (h' : Z) (m' : M),
       sortedSet c !! Z.to_nat ((idx + Z.of_nat t)
                                mod Z.of_nat (length (sortedSet c)))
       = Some h' /\
       ring c !! h' = Some m' /\
       avgLoad < load_of ld (Member_String m') + 1) ->
  distributeWithLoad_loop fuel c avgLoad count partID idx pt ld
  = Panic panic_no_room.
Proof.
  revert fuel count idx.
  induction k as [|k IH]; intros fuel count idx Hidx Hcount Hfuel Hfull.
  - destruct fuel as [|fuel]; [lia|]. cbn [distributeWithLoad_loop].
    destruct (Z.leb_spec (Z.of_nat (length (sortedSet c))) (count + 1));
      [done|lia].
  - destruct fuel as [|fuel]; [lia|]. cbn [distributeWithLoad_loop].
    destruct (Z.leb_spec (Z.of_nat (length (sortedSet c))) (count + 1));
      [lia|].
    destruct (Hfull 0%nat) as (h' & m' & Hh' & Hm' & Hfull'); [lia|].
    rewrite Z.add_0_r, Z.mod_small in Hh' by lia.
    unfold index. destruct (Z.ltb_spec idx 0); [lia|].
    rewrite Hh', Hm'.
    destruct (Z.leb_spec (load_of ld (Member_String m') + 1) avgLoad);
      [lia|].
    set (idx' := if Z.of_nat (length (sortedSet c)) <=? idx + 1
                 then 0 else idx + 1).
    assert (Hidx' : 0 <= idx' < Z.of_nat (length (sortedSet c)) /\
                    idx' = (idx + 1) mod Z.of_nat (length (sortedSet c))).
    { subst idx'.
      destruct (Z.leb_spec (Z.of_nat (length (sortedSet c))) (idx + 1)).
      - assert (E : idx + 1 = Z.of_nat (length (sortedSet c))) by lia.
        rewrite E, Z.mod_same by lia. lia.
      - rewrite Z.mod_small by lia. lia. }
    destruct Hidx' as [Hr Hmod].
    apply IH; try done; try lia.
    intros t Ht.
    replace ((idx' + Z.of_nat t) mod Z.of_nat (length (sortedSet c)))
      with ((idx + Z.of_nat (S t)) mod Z.of_nat (length (sortedSet c))).
    + apply Hfull. lia.
    + rewrite Hmod, Zplus_mod_idemp_l. f_equal. lia.
Qed.

(** The probe of one partition, as the code runs it: a first fit over
    the nodes at the offsets [0 .. len - 2] from [idx]; the node at the
    offset [len - 1] is left out, and a panic follows when the others are
    full, whether or not that node's owner has room. *)
Lemma distributeWithLoad_first_fit (c : Consistent M HF) (partID idx : Z)
    (pt : gmap Z M) (ld : gmap string Z) (k : nat) :
  0 <= idx < Z.of_nat (length (sortedSet c)) ->
  (forall t : nat, (t < k)%nat ->
     exists (h' : Z) (m' : M),
       sortedSet c !! Z.to_nat ((idx + Z.of_nat t)
                                mod Z.of_nat (length (sortedSet c)))
       = Some h' /\
       ring c !! h' = Some m' /\
       averageLoad c < load_of ld (Member_String m') + 1) ->
  (Z.of_nat k + 1 = Z.of_nat (length (sortedSet c)) ->
   distributeWithLoad c partID idx pt ld = Panic panic_no_room) /\
  (forall (h : Z) (m : M),
     Z.of_nat k + 1 < Z.of_nat (length (sortedSet c)) ->
     sortedSet c !! Z.to_nat ((idx + Z.of_nat k)
                              mod Z.of_nat (length (sortedSet c))) = Some h ->
     ring c !! h = Some m ->
     load_of ld (Member_String m) + 1 <= averageLoad c ->
     distributeWithLoad c partID idx pt ld
     = Ok (<[partID := m]> pt,
           <[Member_String m := load_of ld (Member_String m) + 1]> ld)).
Proof.
  intros Hidx Hfull. unfold distributeWithLoad. split.
  - intros Hk. apply (distributeWithLoad_loop_no_fit k); try done; lia.
  - intros h m Hk Hh Hm Hroom.
    apply (distributeWithLoad_loop_first_fit k) with (h := h);
      try done; lia.
Qed.


(** ** The load table *)

Lemma totalLoad_empty : totalLoad ∅ = 0.
Proof. unfold totalLoad. by rewrite map_fold_empty. Qed.

Lemma totalLoad_insert (ld : gmap string Z) (name : string) (v : Z) :
  totalLoad (<[name := v]> ld) = totalLoad ld - load_of ld name + v.
Proof.
  unfold totalLoad, load_of.
  destruct (ld !! name) as [w|] eqn:Hw; cbn [default].
  - rewrite <- (insert_delete_eq ld).
    rewrite map_fold_insert_L;
      [|intros; lia|by rewrite lookup_delete_eq].
    rewrite (map_fold_delete_L _ _ name w ld);
      [cbn beta; unfold id; lia|intros; lia|done].
  - rewrite map_fold_insert_L; [cbn beta; lia|intros; lia|done].
Qed.

Lemma load_of_insert (ld : gmap string Z) (name name' : string) (v : Z) :
  load_of (<[name := v]> ld) name'
  = if decide (name = name') then v else load_of ld name'.
Proof.
  unfold load_of. rewrite lookup_insert. by case_decide.
Qed.

Lemma owned_empty (name : string) : owned ∅ name = 0.
Proof. unfold owned. by rewrite map_filter_empty, map_size_empty. Qed.

Lemma owned_insert (pt : gmap Z M) (p : Z) (m : M) (name : string) :
  pt !! p = None ->
  owned (<[p := m]> pt) name
  = owned pt name + (if decide (Member_String m = name) then 1 else 0).
Proof.
  intros Hp. unfold owned. case_decide as Hm.
  - rewrite map_filter_insert_True by done.
    rewrite map_size_insert_None; [lia|].
    by rewrite map_lookup_filter_None_2; [|left].
  - rewrite map_filter_insert_not'; [lia|done|].
    intros y Hy. congruence.
Qed.

Lemma owned_pos (pt : gmap Z M) (name : string) :
  0 < owned pt name <->
  exists (p : Z) (m : M), pt !! p = Some m /\ Member_String m = name.
Proof.
  unfold owned. split.
  - intros Hpos.
    destruct (map_choose_or_empty
                (filter (fun pm => Member_String pm.2 = name) pt))
      as [(p & m & Hpm)|E].
    + apply map_lookup_filter_Some in Hpm as [? ?]. eauto.
    + rewrite E, map_size_empty in Hpos. lia.
  - intros (p & m & Hp & Hm).
    assert (Hin : filter (fun pm => Member_String pm.2 = name) pt !! p
                  = Some m) by by apply map_lookup_filter_Some.
    assert (size (filter (fun pm => Member_String pm.2 = name) pt) <> 0%nat).
    { apply map_size_non_empty_iff. intros E. by rewrite E in Hin. }
    lia.
Qed.


(** ** The pass over the partitions *)

Lemma bind_Ok_inv {A B : Type} (r : result A) (k : A -> result B) (b : B) :
  r ≫= k = Ok b -> exists a : A, r = Ok a /\ k a = Ok b.
Proof. destruct r as [a| |]; cbn; [eauto|discriminate|discriminate]. Qed.

Lemma bind_runs {A B : Type} (r : result A) (k : A -> result B) :
  r <> OutOfFuel -> (forall a, k a <> OutOfFuel) -> r ≫= k <> OutOfFuel.
Proof. destruct r as [a| |]; cbn; [auto|discriminate|done]. Qed.

Lemma distributeFrom_cons (c : Consistent M HF) (p : Z) (ids : list Z)
    (pt : gmap Z M) (ld : gmap string Z) :
  distributeFrom c (p :: ids) pt ld
  = distributeWithLoad c (int p) (searchIdx c p) pt ld
      ≫= fun pl => distributeFrom c ids pl.1 pl.2.
Proof. reflexivity. Qed.

Lemma distributeFrom_runs (c : Consistent M HF) (ids : list Z)
    (pt : gmap Z M) (ld : gmap string Z) :
  distributeFrom c ids pt ld <> OutOfFuel.
Proof.
  revert pt ld. induction ids as [|p ids IH]; intros pt ld.
  - discriminate.
  - rewrite distributeFrom_cons.
    apply bind_runs; [apply distributeWithLoad_runs|auto].
Qed.

Lemma distributePartitions_runs (c : Consistent M HF) :
  distributePartitions c <> OutOfFuel.
Proof.
  unfold distributePartitions.
  apply bind_runs; [apply distributeFrom_runs|discriminate].
Qed.

Lemma distributeFrom_cons_Ok (c : Consistent M HF) (p : Z) (ids : list Z)
    (pt pt' : gmap Z M) (ld ld' : gmap string Z) :
  distributeFrom c (p :: ids) pt ld = Ok (pt', ld') ->
  exists (pt1 : gmap Z M) (ld1 : gmap string Z),
    distributeWithLoad c (int p) (searchIdx c p) pt ld = Ok (pt1, ld1) /\
    distributeFrom c ids pt1 ld1 = Ok (pt', ld').
Proof.
  rewrite distributeFrom_cons. intros Hb.
  apply bind_Ok_inv in Hb as ([pt1 ld1] & ? & ?). eauto.
Qed.

(** The load table along a pass: every entry stays between 1 and the
    average load, and every placed partition adds one to the sum. *)
Lemma distributeFrom_loads (c : Consistent M HF) (ids : list Z)
    (pt pt' : gmap Z M) (ld ld' : gmap string Z) :
  distributeFrom c ids pt ld = Ok (pt', ld') ->
  (forall name v, ld !! name = Some v -> 1 <= v <= averageLoad c) ->
  (forall name v, ld' !! name = Some v -> 1 <= v <= averageLoad c) /\
  totalLoad ld' = totalLoad ld + Z.of_nat (length ids) /\
  (ids <> [] -> 1 <= averageLoad c).
Proof.
  revert pt ld. induction ids as [|p ids IH]; intros pt ld Hrun Hld.
  - cbn in Hrun. injection Hrun as <- <-. cbn [length].
    split; [done|]. split; [lia|done].
  - apply distributeFrom_cons_Ok in Hrun as (pt1 & ld1 & Hone & Hrest).
    apply distributeWithLoad_Ok in Hone
      as (h & m & _ & _ & Hroom & -> & ->).
    assert (Hnonneg : 0 <= load_of ld (Member_String m)).
    { unfold load_of. destruct (ld !! Member_String m) as [v|] eqn:Hv;
        cbn; [|lia]. apply Hld in Hv. unfold id. lia. }
    apply IH in Hrest as (Hkeys & Hsum & _).
    + split; [done|]. split; [|lia].
      rewrite Hsum, totalLoad_insert. cbn [length]. lia.
    + intros name v. rewrite lookup_insert. case_decide as Hname.
      * intros [= <-]. lia.
      * apply Hld.
Qed.

(** The partition table along a pass over fresh partition ids. *)
Lemma distributeFrom_tables (c : Consistent M HF) (ids : list Z)
    (pt pt' : gmap Z M) (ld ld' : gmap string Z) :
  distributeFrom c ids pt ld = Ok (pt', ld') ->
  NoDup ids ->
  Forall (fun p => int p = p) ids ->
  (forall p, p ∈ ids -> pt !! p = None) ->
  (forall name, load_of ld name = owned pt name) ->
  (forall p m, pt !! p = Some m -> exists h, ring c !! h = Some m) ->
  (forall p, is_Some (pt' !! p) <-> is_Some (pt !! p) \/ p ∈ ids) /\
  (forall p m, pt' !! p = Some m -> exists h, ring c !! h = Some m) /\
  (forall name, load_of ld' name = owned pt' name).
Proof.
  revert pt ld.
  induction ids as [|p ids IH]; intros pt ld Hrun Hnd Hint Hfresh Hld Hown.
  - cbn in Hrun. injection Hrun as <- <-. split; [|done].
    intros p. rewrite elem_of_nil. tauto.
  - apply distributeFrom_cons_Ok in Hrun as (pt1 & ld1 & Hone & Hrest).
    apply distributeWithLoad_Ok in Hone
      as (h & m & _ & Hring & _ & -> & ->).
    apply NoDup_cons in Hnd as [Hp Hnd].
    apply Forall_cons in Hint as [Hintp Hint]. rewrite Hintp in Hrest.
    apply IH in Hrest as (Hdom & Howner & Hloads); try done.
    + split; [|done]. intros p'. rewrite Hdom, elem_of_cons.
      rewrite lookup_insert. case_decide as Hpp.
      * subst p'. split; [tauto|]. intros _. left. by eexists.
      * split; [tauto|]. intros [?|[?|?]]; [tauto|congruence|tauto].
    + intros p' Hp'. rewrite lookup_insert_ne by (intros ->; done).
      apply Hfresh. by right.
    + intros name. rewrite load_of_insert, owned_insert
        by (apply Hfresh; by left).
      rewrite <- Hld. case_decide as E; [rewrite E|]; lia.
    + intros p' m'. rewrite lookup_insert. case_decide.
      * intros [= <-]. eauto.
      * apply Hown.
Qed.


(** ** The average load and the rounding of binary64 *)

Section Rounding.

Hypothesis round64_mono :
  forall x y : Q, (x <= y)%Q -> (round64 x <= round64 y)%Q.
Hypothesis round64_zero : (round64 0 == 0)%Q.

Lemma round64_proper (x y : Q) : (x == y)%Q -> (round64 x == round64 y)%Q.
Proof.
  intros E. apply Qle_antisym; apply round64_mono; rewrite E; apply Qle_refl.
Qed.

Lemma float64_nonneg (q : Z) : 0 <= q -> (0 <= float64 q)%Q.
Proof.
  intros Hq. unfold float64. rewrite <- round64_zero.
  apply round64_mono. change 0%Q with (inject_Z 0). by rewrite <- Zle_Qle.
Qed.

Lemma capacity_zero (L : Q) : Qceiling (fmul (float64 0) L) = 0.
Proof.
  unfold fmul, float64. change (inject_Z 0) with 0%Q.
  assert (E : (round64 (round64 0 * L) == 0)%Q).
  { rewrite <- round64_zero at 2. apply round64_proper.
    rewrite round64_zero. apply Qmult_0_l. }
  rewrite (Qceiling_comp _ _ E). reflexivity.
Qed.

Lemma capacity_pos_Load (q : Z) (L : Q) :
  0 <= q -> 1 <= Qceiling (fmul (float64 q) L) -> (0 <= L)%Q.
Proof.
  intros Hq Hcap. destruct (Qlt_le_dec L 0) as [Hneg|]; [|done].
  exfalso.
  assert (Hprod : (float64 q * L <= 0)%Q).
  { rewrite Qmult_comm. rewrite <- (Qmult_0_l (float64 q)).
    apply Qmult_le_compat_r; [by apply Qlt_le_weak|by apply float64_nonneg]. }
  apply round64_mono in Hprod. rewrite round64_zero in Hprod.
  apply Qceiling_resp_le in Hprod. unfold fmul in Hcap.
  change (Qceiling 0) with 0 in Hprod. lia.
Qed.

Lemma capacity_mono (q q' : Z) (L : Q) :
  q <= q' -> (0 <= L)%Q ->
  Qceiling (fmul (float64 q) L) <= Qceiling (fmul (float64 q') L).
Proof.
  intros Hq HL. apply Qceiling_resp_le. unfold fmul, float64.
  apply round64_mono. apply Qmult_le_compat_r; [|done].
  apply round64_mono. by rewrite <- Zle_Qle.
Qed.

Lemma Zdiv_le_Qceiling (P n : Z) :
  P / n <= Qceiling (inject_Z P / inject_Z n)%Q.
Proof.
  rewrite Zdiv_Qdiv. rewrite Zle_Qle.
  eapply Qle_trans; [apply Qfloor_le|apply Qle_ceiling].
Qed.

(** The capacity that the code computes is below the bound of the
    specification, whose inner quotient is rounded up. *)
Lemma averageLoad_le_spec_loadBound (c : Consistent M HF) :
  0 < len (members c) < 2 ^ 63 ->
  (0 <= Load (config c))%Q ->
  averageLoad c
  <= spec_loadBound (partitionCount c) (len (members c)) (Load (config c)).
Proof.
  intros Hn HL. unfold averageLoad, spec_loadBound.
  destruct (Z.eqb_spec (len (members c)) 0); [lia|].
  rewrite uint64_small by lia.
  apply capacity_mono; [apply Zdiv_le_Qceiling|done].
Qed.

(** C3: after a pass of [distributePartitions] that returns, over a
    non-empty member set, the load of every member name is at most
    [AverageLoad()], itself at most [ceil(ceil(P / |M|) * loadFactor)],
    and the loads sum to [P].  The rounding of binary64 enters only
    through its being monotone and exact at 0. *)
Theorem distributePartitions_load_bound (c c' : Consistent M HF) :
  0 <= partitionCount c ->
  0 < len (members c) < 2 ^ 63 ->
  distributePartitions c = Ok c' ->
  (forall name : string,
     load_of (loads c') name <= AverageLoad c' /\
     load_of (loads c') name
     <= spec_loadBound (partitionCount c) (len (members c))
          (Load (config c))) /\
  totalLoad (loads c') = partitionCount c.
Proof.
  intros HP Hn Hrun. unfold distributePartitions in Hrun.
  apply bind_Ok_inv in Hrun as ([pt ld] & Hpass & Hc').
  injection Hc' as <-. cbn [loads fst snd].
  apply distributeFrom_loads in Hpass as (Hkeys & Hsum & Havg);
    [|intros name v; by rewrite lookup_empty].
  rewrite totalLoad_empty, length_seqZ in Hsum.
  split; [|lia].
  assert (Hcap : 0 <= averageLoad c /\
                 averageLoad c
                 <= spec_loadBound (partitionCount c) (len (members c))
                      (Load (config c))).
  { destruct (Z.eq_dec (partitionCount c) 0) as [E0|NE].
    - unfold averageLoad, spec_loadBound. rewrite E0.
      destruct (Z.eqb_spec (len (members c)) 0); [lia|].
      rewrite uint64_small by lia. rewrite Z.div_0_l by lia.
      rewrite capacity_zero.
      assert (E : Qceiling (inject_Z 0 / inject_Z (len (members c)))%Q = 0).
      { change (inject_Z 0) with 0%Q. unfold Qdiv.
        rewrite (Qceiling_comp _ _ (Qmult_0_l _)). reflexivity. }
      rewrite E, capacity_zero. lia.
    - assert (Hone : 1 <= averageLoad c).
      { apply Havg. rewrite seqZ_cons by lia. discriminate. }
      split; [lia|]. apply averageLoad_le_spec_loadBound; [done|].
      unfold averageLoad in Hone.
      destruct (Z.eqb_spec (len (members c)) 0); [lia|].
      eapply capacity_pos_Load; [|exact Hone].
      apply Z.div_pos; [lia|]. rewrite uint64_small; lia. }
  intros name. unfold AverageLoad.
  change (averageLoad _) with (averageLoad c) at 1.
  unfold load_of. destruct (ld !! name) as [v|] eqn:Hv; cbn.
  - apply Hkeys in Hv. unfold id. lia.
  - lia.
Qed.

End Rounding.


(** ** Adding and removing virtual nodes *)

Lemma vnode_hashFunc (c c' : Consistent M HF) (name : string) (i : Z) :
  hashFunc c' = hashFunc c -> vnode c' name i = vnode c name i.
Proof. intros E. unfold vnode, Sum64. by rewrite E. Qed.

Lemma addReplicas_spec (member : M) (ks : list Z) (c : Consistent M HF) :
  let c' := foldl (addReplica member) c ks in
  config c' = config c /\ hashFunc c' = hashFunc c /\
  partitionCount c' = partitionCount c /\ loads c' = loads c /\
  members c' = members c /\ partitions c' = partitions c /\
  sortedSet c' = sortedSet c ++ (vnode c (Member_String member) <$> ks) /\
  forall h : Z,
    ring c' !! h
    = if decide (h ∈ vnode c (Member_String member) <$> ks)
      then Some member else ring c !! h.
Proof.
  revert c. induction ks as [|i ks IH]; intros c; cbn [foldl].
  - cbn. rewrite app_nil_r. repeat split; done.
  - specialize (IH (addReplica member c i)). cbn zeta in IH.
    change (vnode (addReplica member c i)) with (vnode c) in IH.
    destruct IH as (E1 & E2 & E3 & E4 & E5 & E6 & E7 & E8).
    cbn [addReplica config hashFunc partitionCount loads members partitions
         sortedSet ring] in E1, E2, E3, E4, E5, E6, E7, E8.
    repeat split; try done.
    + rewrite E7, <- app_assoc. reflexivity.
    + intros h. rewrite E8, fmap_cons.
      destruct (decide (h ∈ vnode c (Member_String member) <$> ks)) as [Hin|Hin].
      * rewrite decide_True; [done|by right].
      * destruct (decide (h = vnode c (Member_String member) i)) as [->|Hne].
        -- rewrite decide_True by left. apply lookup_insert_eq.
        -- rewrite decide_False by (by apply not_elem_of_cons).
           by rewrite lookup_insert_ne.
Qed.

Lemma removeReplicas_spec (name : string) (ks : list Z) (c : Consistent M HF) :
  let c' := foldl (removeReplica name) c ks in
  config c' = config c /\ hashFunc c' = hashFunc c /\
  partitionCount c' = partitionCount c /\ loads c' = loads c /\
  members c' = members c /\ partitions c' = partitions c /\
  sortedSet c'
  = foldl (fun l h => delSlice h l) (sortedSet c) (vnode c name <$> ks) /\
  forall h : Z,
    ring c' !! h
    = if decide (h ∈ vnode c name <$> ks) then None else ring c !! h.
Proof.
  revert c. induction ks as [|i ks IH]; intros c; cbn [foldl].
  - cbn. repeat split; done.
  - specialize (IH (removeReplica name c i)). cbn zeta in IH.
    change (vnode (removeReplica name c i)) with (vnode c) in IH.
    destruct IH as (E1 & E2 & E3 & E4 & E5 & E6 & E7 & E8).
    cbn [removeReplica config hashFunc partitionCount loads members
         partitions sortedSet ring] in E1, E2, E3, E4, E5, E6, E7, E8.
    repeat split; try done.
    intros h. rewrite E8, fmap_cons.
    destruct (decide (h ∈ vnode c name <$> ks)) as [Hin|Hin].
    + rewrite decide_True; [done|by right].
    + destruct (decide (h = vnode c name i)) as [->|Hne].
      * rewrite decide_True by left. apply lookup_delete_eq.
      * rewrite decide_False by (by apply not_elem_of_cons).
        by rewrite lookup_delete_ne.
Qed.

Lemma vnode_elem_of_replicas (c : Consistent M HF) (name : string) (i R : Z) :
  0 <= i < R -> vnode c name i ∈ vnode c name <$> seqZ 0 R.
Proof.
  intros Hi. apply list_elem_of_fmap. exists i. split; [done|].
  apply elem_of_seqZ. lia.
Qed.

Lemma add_fields (member : M) (c : Consistent M HF) :
  config (add member c) = config c /\
  hashFunc (add member c) = hashFunc c /\
  partitionCount (add member c) = partitionCount c /\
  loads (add member c) = loads c /\
  partitions (add member c) = partitions c /\
  members (add member c) = <[Member_String member := member]> (members c) /\
  sortedSet (add member c)
  = sortSlice (sortedSet c ++
      (vnode c (Member_String member)
         <$> seqZ 0 (ReplicationFactor (config c)))) /\
  forall h : Z,
    ring (add member c) !! h
    = if decide (h ∈ vnode c (Member_String member)
                       <$> seqZ 0 (ReplicationFactor (config c)))
      then Some member else ring c !! h.
Proof.
  unfold add.
  destruct (addReplicas_spec member (seqZ 0 (ReplicationFactor (config c))) c)
    as (E1 & E2 & E3 & E4 & E5 & E6 & E7 & E8).
  cbn [config hashFunc partitionCount loads members partitions sortedSet ring].
  rewrite E7, E5. repeat split; done.
Qed.

Lemma add_ring_ok (member : M) (c : Consistent M HF) :
  ring_ok c -> ring_ok (add member c).
Proof.
  intros [Hmem Hvn Hname].
  destruct (add_fields member c) as (Ec & Eh & _ & _ & _ & Em & _ & Er).
  split.
  - intros h m. rewrite Er, Em. case_decide as Hin.
    + intros [= <-]. apply lookup_insert_eq.
    + intros Hring. rewrite lookup_insert_ne; [by eapply Hmem|].
      intros E. apply Hin. apply Hvn in Hring as (i & Hi & ->).
      rewrite <- E. by apply vnode_elem_of_replicas.
  - intros h m. rewrite Er, Ec. case_decide as Hin.
    + intros [= <-]. apply list_elem_of_fmap in Hin as (i & -> & Hi).
      apply elem_of_seqZ in Hi. exists i.
      split; [lia|]. symmetry. by apply vnode_hashFunc.
    + intros Hring. apply Hvn in Hring as (i & Hi & ->). exists i.
      split; [done|]. symmetry. by apply vnode_hashFunc.
  - intros name m. rewrite Em, lookup_insert. case_decide as E.
    + by intros [= <-].
    + apply Hname.
Qed.


(** ** The invariants along the operations *)

Lemma distributePartitions_fields (c c' : Consistent M HF) :
  distributePartitions c = Ok c' ->
  config c' = config c /\ hashFunc c' = hashFunc c /\
  sortedSet c' = sortedSet c /\ partitionCount c' = partitionCount c /\
  members c' = members c /\ ring c' = ring c.
Proof.
  unfold distributePartitions. intros Hrun.
  apply bind_Ok_inv in Hrun as ([pt ld] & _ & Hc').
  injection Hc' as <-. repeat split; reflexivity.
Qed.

Lemma ring_ok_ext (c c' : Consistent M HF) :
  config c' = config c -> hashFunc c' = hashFunc c ->
  members c' = members c -> ring c' = ring c ->
  ring_ok c -> ring_ok c'.
Proof.
  intros Ec Eh Em Er [Hmem Hvn Hname]. split.
  - intros h m. rewrite Er, Em. apply Hmem.
  - intros h m. rewrite Er, Ec. intros Hring.
    apply Hvn in Hring as (i & Hi & ->). exists i.
    split; [done|]. symmetry. by apply vnode_hashFunc.
  - intros name m. rewrite Em. apply Hname.
Qed.

Lemma distributePartitions_table_ok (c c' : Consistent M HF) :
  ring_ok c ->
  0 <= partitionCount c <= 2 ^ 63 ->
  distributePartitions c = Ok c' ->
  table_ok c'.
Proof.
  intros Hring HP Hrun.
  unfold distributePartitions in Hrun.
  apply bind_Ok_inv in Hrun as ([pt ld] & Hpass & Hc').
  injection Hc' as <-.
  pose proof Hpass as Hloads.
  apply distributeFrom_loads in Hloads as (Hkeys & Hsum & _);
    [|intros name v; by rewrite lookup_empty].
  apply distributeFrom_tables in Hpass as (Hdom & Hown & Hld).
  - split; cbn [partitions loads members partitionCount fst snd].
    + intros p Hp.
      assert (Hsome : is_Some (pt !! p)).
      { apply Hdom. right. apply elem_of_seqZ. lia. }
      destruct Hsome as [m Hm]. exists m. split; [done|].
      apply Hown in Hm as [h Hh]. by eapply ring_member.
    + intros p Hp. apply Hdom in Hp as [[? Hp]|Hp].
      * by rewrite lookup_empty in Hp.
      * apply elem_of_seqZ in Hp. lia.
    + done.
    + done.
    + rewrite Hsum, totalLoad_empty, length_seqZ. lia.
  - apply NoDup_seqZ.
  - apply Forall_seqZ. intros p Hp. apply int_small. lia.
  - intros p _. apply lookup_empty.
  - intros name. by rewrite owned_empty.
  - intros p m. by rewrite lookup_empty.
Qed.

Lemma removeNodes_fields (name : string) (c : Consistent M HF) :
  config (removeNodes name c) = config c /\
  hashFunc (removeNodes name c) = hashFunc c /\
  partitionCount (removeNodes name c) = partitionCount c /\
  loads (removeNodes name c) = loads c /\
  partitions (removeNodes name c) = partitions c /\
  members (removeNodes name c) = delete name (members c) /\
  sortedSet (removeNodes name c)
  = foldl (fun l h => delSlice h l) (sortedSet c)
      (vnode c name <$> seqZ 0 (ReplicationFactor (config c))) /\
  forall h : Z,
    ring (removeNodes name c) !! h
    = if decide (h ∈ vnode c name
                       <$> seqZ 0 (ReplicationFactor (config c)))
      then None else ring c !! h.
Proof.
  unfold removeNodes.
  destruct (removeReplicas_spec name
              (seqZ 0 (ReplicationFactor (config c))) c)
    as (E1 & E2 & E3 & E4 & E5 & E6 & E7 & E8).
  cbn [config hashFunc partitionCount loads members partitions sortedSet ring].
  rewrite E5. repeat split; done.
Qed.

Lemma removeNodes_ring_ok (name : string) (c : Consistent M HF) :
  ring_ok c -> ring_ok (removeNodes name c).
Proof.
  intros [Hmem Hvn Hname].
  destruct (removeNodes_fields name c)
    as (Ec & Eh & _ & _ & _ & Em & _ & Er).
  split.
  - intros h m. rewrite Er, Em. case_decide as Hin; [done|].
    intros Hring. rewrite lookup_delete_ne; [by eapply Hmem|].
    intros E. apply Hin. apply Hvn in Hring as (i & Hi & ->).
    rewrite E. by apply vnode_elem_of_replicas.
  - intros h m. rewrite Er, Ec. case_decide as Hin; [done|].
    intros Hring. apply Hvn in Hring as (i & Hi & ->). exists i.
    split; [done|]. symmetry. by apply vnode_hashFunc.
  - intros name' m. rewrite Em. intros Hm.
    apply lookup_delete_Some in Hm as [_ Hm]. by apply Hname.
Qed.

Lemma table_ok_members (c : Consistent M HF) :
  0 < partitionCount c -> table_ok c -> members c <> ∅.
Proof.
  intros HP Ht E. destruct (table_total c Ht 0) as (m & _ & Hm); [lia|].
  by rewrite E, lookup_empty in Hm.
Qed.

Lemma distributePartitions_state_ok (c c' : Consistent M HF) :
  ring_ok c ->
  0 < partitionCount c < 2 ^ 63 ->
  distributePartitions c = Ok c' ->
  state_ok c'.
Proof.
  intros Hring HP Hrun.
  pose proof (distributePartitions_fields c c' Hrun)
    as (Ec & Eh & _ & EP & Em & Er).
  assert (Ht : table_ok c')
    by (eapply distributePartitions_table_ok; [done|lia|done]).
  split.
  - by eapply ring_ok_ext.
  - done.
  - intros E. exfalso. eapply table_ok_members; [|done|done]. lia.
  - lia.
Qed.

Lemma Add_state_ok (member : M) (c c' : Consistent M HF) :
  state_ok c -> Add member c = Ok c' -> state_ok c'.
Proof.
  intros Hok. unfold Add.
  destruct (members c !! Member_String member).
  - by intros [= <-].
  - apply distributePartitions_state_ok.
    + apply add_ring_ok, Hok.
    + destruct (add_fields member c) as (_ & _ & -> & _). apply Hok.
Qed.

Lemma Remove_state_ok (name : string) (c c' : Consistent M HF) :
  state_ok c -> Remove name c = Ok c' -> state_ok c'.
Proof.
  intros Hok. unfold Remove.
  destruct (members c !! name); [|by intros [= <-]].
  pose proof (removeNodes_ring_ok name c (ok_ring c Hok)) as Hring.
  destruct (removeNodes_fields name c) as (Ec & Eh & EP & _).
  destruct (Z.eqb_spec (len (members (removeNodes name c))) 0) as [E|NE].
  - intros [= <-]. apply len_zero_iff in E. split.
    + apply (ring_ok_ext (removeNodes name c)); [reflexivity..|exact Hring].
    + done.
    + done.
    + change (0 < partitionCount (removeNodes name c) < 2 ^ 63).
      rewrite EP. apply Hok.
  - apply distributePartitions_state_ok; [done|].
    rewrite EP. apply Hok.
Qed.

Lemma adds_ring_ok (ms : list M) (c : Consistent M HF) :
  ring_ok c -> ring_ok (foldl (fun c member => add member c) c ms).
Proof.
  revert c. induction ms as [|m ms IH]; intros c Hc; cbn [foldl];
    [done|]. by apply IH, add_ring_ok.
Qed.

Lemma adds_partitionCount (ms : list M) (c : Consistent M HF) :
  partitionCount (foldl (fun c member => add member c) c ms)
  = partitionCount c.
Proof.
  revert c. induction ms as [|m ms IH]; intros c; cbn [foldl]; [done|].
  rewrite IH. by destruct (add_fields m c) as (_ & _ & -> & _).
Qed.

Lemma newConsistent_ring_ok (hf : HF) (cfg : Config HF) :
  ring_ok (newConsistent hf cfg).
Proof. split; intros ? ?; cbn; by rewrite lookup_empty. Qed.

Lemma New_state_ok (ms : option (list M)) (cfg : Config HF)
    (c : Consistent M HF) :
  0 <= PartitionCount cfg < 2 ^ 63 ->
  New ms cfg = Ok c ->
  state_ok c.
Proof.
  intros Hrange. unfold New. destruct (HashFunc cfg) as [hf|]; [|done].
  pose proof (partitionCount_New cfg Hrange) as [_ HP].
  pose proof (adds_ring_ok (default [] ms) _
                (newConsistent_ring_ok hf (withDefaults cfg))) as Hring.
  pose proof (adds_partitionCount (default [] ms)
                (newConsistent hf (withDefaults cfg))) as EP.
  cbn [newConsistent partitionCount] in EP.
  destruct ms as [ms|].
  - apply distributePartitions_state_ok; [done|]. by rewrite EP.
  - intros [= <-]. cbn [default foldl]. split; done.
Qed.

Lemma run_state_ok (ops : list (op M)) (c c' : Consistent M HF) :
  state_ok c -> run ops c = Ok c' -> state_ok c'.
Proof.
  revert c. induction ops as [|o ops IH]; intros c Hok; cbn [run].
  - by intros [= <-].
  - intros Hrun. apply bind_Ok_inv in Hrun as (c1 & Hop & Hrest).
    apply (IH c1); [|done].
    destruct o; cbn in Hop; eauto using Add_state_ok, Remove_state_ok.
Qed.


(** ** No operation runs out of fuel *)

Lemma Add_runs (member : M) (c : Consistent M HF) : Add member c <> OutOfFuel.
Proof.
  unfold Add. destruct (members c !! Member_String member); [done|].
  apply distributePartitions_runs.
Qed.

Lemma Remove_runs (name : string) (c : Consistent M HF) :
  Remove name c <> OutOfFuel.
Proof.
  unfold Remove. destruct (members c !! name); [|done].
  destruct (len _ =? 0); [done|apply distributePartitions_runs].
Qed.

Lemma New_runs (ms : option (list M)) (cfg : Config HF) :
  New ms cfg <> OutOfFuel.
Proof.
  unfold New. destruct (HashFunc cfg); [|done].
  destruct ms; [apply distributePartitions_runs|done].
Qed.

Lemma run_runs (ops : list (op M)) (c : Consistent M HF) :
  run ops c <> OutOfFuel.
Proof.
  revert c. induction ops as [|o ops IH]; intros c; cbn [run]; [done|].
  apply bind_runs; [|done].
  destruct o; cbn; [apply Add_runs|apply Remove_runs].
Qed.


Lemma reachable_state_ok (c : Consistent M HF) : reachable c -> state_ok c.
Proof.
  intros (ms & cfg & ops & c0 & Hrange & Hnew & Hrun).
  eapply run_state_ok; [|done]. by eapply New_state_ok.
Qed.

Lemma reachable_step (o : op M) (c c' : Consistent M HF) :
  reachable c -> apply_op o c = Ok c' -> reachable c'.
Proof.
  intros (ms & cfg & ops & c0 & Hrange & Hnew & Hrun) Hop.
  exists ms, cfg, (ops ++ [o]), c0. split; [done|]. split; [done|].
  clear Hnew. revert c0 Hrun. induction ops as [|o' ops IH]; intros c0 Hrun.
  - cbn in Hrun. injection Hrun as ->. cbn. by rewrite Hop.
  - cbn [run app] in *. apply bind_Ok_inv in Hrun as (c1 & Hc1 & Hrun).
    rewrite Hc1. cbn. by apply IH.
Qed.

(** ** The claims on the tables *)

(** The keys of the load table of a completed pass: the names that own a
    partition. *)
Lemma table_ok_load_keys (c : Consistent M HF) (name : string) :
  table_ok c ->
  (is_Some (loads c !! name) <->
   exists (p : Z) (m : M),
     partitions c !! p = Some m /\ Member_String m = name).
Proof.
  intros [Htot Hdom Hload Hkeys Hsum].
  rewrite <- owned_pos, <- Hload. unfold load_of. split.
  - intros [v Hv]. rewrite Hv. cbn. apply Hkeys in Hv. lia.
  - destruct (loads c !! name); cbn; [eauto|lia].
Qed.

(** C4 (as amended): after [New] and any sequence of [Add] and [Remove]
    calls that return and leave a member, the partition table has an owner
    for every partition id of [0, P) and for no other id, every owner is a
    current member, and the keys of the load table are the names of the
    members that own a partition, each with the number of its partitions:
    a subset of the member names, a member without partition having no
    entry. *)
Theorem tables_after_membership_changes (c : Consistent M HF) :
  reachable c ->
  members c <> ∅ ->
  (forall p : Z, 0 <= p < partitionCount c ->
     exists m : M, partitions c !! p = Some m /\
                   members c !! Member_String m = Some m) /\
  (forall p : Z, is_Some (partitions c !! p) -> 0 <= p < partitionCount c) /\
  (forall name : string,
     is_Some (loads c !! name) <->
     exists (p : Z) (m : M),
       partitions c !! p = Some m /\ Member_String m = name) /\
  (forall name : string,
     is_Some (loads c !! name) -> is_Some (members c !! name)) /\
  (forall name : string, load_of (loads c) name = owned (partitions c) name).
Proof.
  intros Hreach Hne. apply reachable_state_ok in Hreach as Hok.
  pose proof (ok_table c Hok Hne) as Htable.
  pose proof (fun name => table_ok_load_keys c name Htable) as Hiff.
  destruct Htable as [Htot Hdom Hload Hkeys Hsum].
  split; [done|]. split; [done|]. split; [exact Hiff|]. split; [|done].
  intros name Hsome. apply Hiff in Hsome as (p & m & Hp & <-).
  assert (Hin : 0 <= p < partitionCount c) by (apply Hdom; eauto).
  destruct (Htot p Hin) as (m' & Hp' & Hm'). rewrite Hp in Hp'.
  injection Hp' as <-. eauto.
Qed.

Lemma Remove_last (c : Consistent M HF) (name : string) (m : M) :
  members c = {[name := m]} ->
  exists c' : Consistent M HF,
    Remove name c = Ok c' /\
    members c' = ∅ /\ partitions c' = ∅ /\ loads c' = loads c.
Proof.
  intros Hsole.
  destruct (removeNodes_fields name c) as (Ec & Eh & EP & El & Ept & Em & _).
  assert (Hlen : len (members (removeNodes name c)) = 0).
  { apply len_zero_iff. rewrite Em, Hsole. apply delete_singleton_eq. }
  eexists. split.
  { unfold Remove. rewrite Hsole, lookup_singleton_eq, Hlen. reflexivity. }
  cbn [members partitions loads].
  apply len_zero_iff in Hlen. done.
Qed.

(** Removing the only member returns, without a pass over the
    partitions, a state with no member and an empty partition table, the
    load table being the one of before; and an [Add] that returns
    afterwards leaves that member alone in the member set, owner of every
    partition of [0, P), with a load of [P]. *)
Theorem Remove_sole_member (c : Consistent M HF) (name : string) (m : M) :
  reachable c ->
  members c = {[name := m]} ->
  exists c' : Consistent M HF,
    Remove name c = Ok c' /\
    members c' = ∅ /\ partitions c' = ∅ /\ loads c' = loads c /\
    forall (member : M) (c'' : Consistent M HF),
      Add member c' = Ok c'' ->
      members c'' = {[Member_String member := member]} /\
      (forall p : Z, 0 <= p < partitionCount c'' ->
         partitions c'' !! p = Some member) /\
      (forall p : Z, is_Some (partitions c'' !! p) ->
         0 <= p < partitionCount c'') /\
      loads c'' = {[Member_String member := partitionCount c'']}.
Proof.
  intros Hreach Hsole.
  destruct (Remove_last c name m Hsole) as (c' & Hrem & Hm & Hpt & Hl).
  exists c'. split; [done|]. split; [done|]. split; [done|].
  split; [done|].
  intros member c'' Hadd.
  assert (Hreach' : reachable c'').
  { eapply (reachable_step (OpAdd member)); [|exact Hadd].
    by eapply (reachable_step (OpRemove name)). }
  assert (Hmem : members c'' = {[Member_String member := member]}).
  { unfold Add in Hadd. rewrite Hm, lookup_empty in Hadd.
    apply distributePartitions_fields in Hadd as (_ & _ & _ & _ & -> & _).
    destruct (add_fields member c') as (_ & _ & _ & _ & _ & -> & _).
    rewrite Hm. apply insert_empty. }
  assert (Hne : members c'' <> ∅).
  { rewrite Hmem. apply insert_non_empty. }
  pose proof (ok_table c'' (reachable_state_ok c'' Hreach') Hne)
    as [Htot Hdom Hload Hkeys Hsum].
  assert (Hall : forall p, 0 <= p < partitionCount c'' ->
                           partitions c'' !! p = Some member).
  { intros p Hp. destruct (Htot p Hp) as (m' & Hp' & Hm').
    rewrite Hmem in Hm'. apply lookup_singleton_Some in Hm' as [_ <-].
    done. }
  split; [done|]. split; [done|]. split; [done|].
  pose proof (ok_count c'' (reachable_state_ok c'' Hreach')) as HP.
  pose proof (fun n => table_ok_load_keys c'' n
                        (ok_table c'' (reachable_state_ok c'' Hreach') Hne))
    as Hiff.
  assert (Hkey : forall n, is_Some (loads c'' !! n) <->
                           n = Member_String member).
  { intros n. rewrite Hiff. split.
    - intros (p & m0 & Hp0 & <-).
      rewrite Hall in Hp0 by (apply Hdom; eauto). by injection Hp0 as <-.
    - intros ->. exists 0, member. split; [|done]. apply Hall. lia. }
  destruct (proj2 (Hkey (Member_String member)) eq_refl) as [v Hv].
  assert (E : loads c'' = {[Member_String member := v]}).
  { apply map_eq. intros n.
    destruct (decide (n = Member_String member)) as [->|Hn].
    - by rewrite lookup_singleton_eq.
    - rewrite lookup_singleton_ne by done.
      destruct (loads c'' !! n) as [w|] eqn:Hw; [|done].
      exfalso. apply Hn, Hkey. eauto. }
  rewrite E in Hsum. unfold totalLoad in Hsum.
  rewrite map_fold_singleton in Hsum. rewrite E. f_equal. lia.
Qed.


(** C6: [Add] of a member whose name is present and [Remove] of a name
    that is absent return the state they were given, every field of it;
    hence an [Add] that returned is followed by no change when the same
    member, or another member of that name, is added again. *)
Theorem Add_present_Remove_absent_unchanged
    (c : Consistent M HF) (member : M) (name : string) :
  (is_Some (members c !! Member_String member) -> Add member c = Ok c) /\
  (members c !! name = None -> Remove name c = Ok c) /\
  (forall (c1 : Consistent M HF) (member' : M),
     Add member c = Ok c1 ->
     Member_String member' = Member_String member ->
     Add member' c1 = Ok c1).
Proof.
  split; [|split].
  - intros [m Hm]. unfold Add. by rewrite Hm.
  - intros Hnone. unfold Remove. by rewrite Hnone.
  - intros c1 member' Hadd Hname.
    assert (Hin : is_Some (members c1 !! Member_String member)).
    { unfold Add in Hadd.
      destruct (members c !! Member_String member) as [m|] eqn:Hm.
      - injection Hadd as <-. eauto.
      - apply distributePartitions_fields in Hadd
          as (_ & _ & _ & _ & -> & _).
        destruct (add_fields member c) as (_ & _ & _ & _ & _ & -> & _).
        rewrite lookup_insert_eq. eauto. }
    destruct Hin as [m Hm]. unfold Add. by rewrite Hname, Hm.
Qed.

Lemma FindPartitionID_reachable (c : Consistent M HF) (key : list byte) :
  reachable c ->
  FindPartitionID c key = Ok (Sum64 c key mod partitionCount c) /\
  0 <= Sum64 c key mod partitionCount c < partitionCount c.
Proof.
  intros Hreach. pose proof (ok_count c (reachable_state_ok c Hreach)) as HP.
  pose proof (Z.mod_pos_bound (Sum64 c key) (partitionCount c)) as Hmod.
  unfold FindPartitionID.
  destruct (Z.eqb_spec (partitionCount c) 0); [lia|].
  rewrite int_small by lia. split; [done|lia].
Qed.

(** C8: [GetPartitionOwner] returns the member that the partition table
    records for the partition and the nil member where the table has no
    entry, as for every partition once no member is left;
    [LocateKey(key)] is [GetPartitionOwner(FindPartitionID(key))], the
    partition being [hash(key) mod P]. *)
Theorem GetPartitionOwner_LocateKey (c : Consistent M HF) :
  reachable c ->
  (forall (partID : Z) (m : M),
     partitions c !! partID = Some m ->
     GetPartitionOwner c partID = Some m) /\
  (forall partID : Z,
     partitions c !! partID = None -> GetPartitionOwner c partID = None) /\
  (members c = ∅ -> forall partID : Z, GetPartitionOwner c partID = None) /\
  (forall key : list byte,
     LocateKey c key
     = FindPartitionID c key ≫= fun partID => Ok (GetPartitionOwner c partID))
  /\
  (forall key : list byte,
     FindPartitionID c key = Ok (Sum64 c key mod partitionCount c) /\
     LocateKey c key
     = Ok (GetPartitionOwner c (Sum64 c key mod partitionCount c))).
Proof.
  intros Hreach. pose proof (reachable_state_ok c Hreach) as Hok.
  unfold GetPartitionOwner, getPartitionOwner.
  split; [|split; [|split; [|split]]].
  - intros partID m ->. reflexivity.
  - intros partID ->. reflexivity.
  - intros Hempty partID. rewrite (ok_empty c Hok Hempty), lookup_empty.
    reflexivity.
  - reflexivity.
  - intros key. destruct (FindPartitionID_reachable c key Hreach) as [E _].
    split; [done|]. unfold LocateKey. rewrite E. reflexivity.
Qed.


(** ** Construction from a list of members *)

Lemma adds_fields (ms : list M) (c : Consistent M HF) :
  config (foldl (fun c member => add member c) c ms) = config c /\
  hashFunc (foldl (fun c member => add member c) c ms) = hashFunc c.
Proof.
  revert c. induction ms as [|m ms IH]; intros c; cbn [foldl]; [done|].
  destruct (IH (add m c)) as [-> ->].
  by destruct (add_fields m c) as (-> & -> & _).
Qed.

Lemma New_Ok_inv (ms : option (list M)) (cfg : Config HF)
    (c : Consistent M HF) :
  New ms cfg = Ok c ->
  exists hf : HF,
    HashFunc cfg = Some hf /\
    config c = withDefaults cfg /\ hashFunc c = hf /\
    sortedSet c
    = sortedSet (foldl (fun c member => add member c)
                   (newConsistent hf (withDefaults cfg)) (default [] ms)) /\
    members c
    = members (foldl (fun c member => add member c)
                 (newConsistent hf (withDefaults cfg)) (default [] ms)).
Proof.
  unfold New. destruct (HashFunc cfg) as [hf|]; [|done].
  intros Hrun. exists hf. split; [done|].
  destruct (adds_fields (default [] ms) (newConsistent hf (withDefaults cfg)))
    as [Ec Eh].
  destruct ms as [ms|].
  - apply distributePartitions_fields in Hrun
      as (-> & -> & -> & _ & -> & _). done.
  - injection Hrun as <-. done.
Qed.

Lemma count_app (h : Z) (l1 l2 : list Z) :
  length (filter (fun x => x = h) (l1 ++ l2))
  = (length (filter (fun x => x = h) l1)
     + length (filter (fun x => x = h) l2))%nat.
Proof. by rewrite filter_app, length_app. Qed.

Lemma count_elem_of (h : Z) (l : list Z) :
  h ∈ l -> (1 <= length (filter (fun x => x = h) l))%nat.
Proof.
  intros Hin.
  assert (Hf : h ∈ filter (fun x => x = h) l) by by apply list_elem_of_filter.
  destruct (filter (fun x => x = h) l); [by apply elem_of_nil in Hf|].
  cbn. lia.
Qed.

Lemma count_NoDup (h : Z) (l : list Z) :
  NoDup l -> (length (filter (fun x => x = h) l) <= 1)%nat.
Proof.
  induction 1 as [|x l Hx Hnd IH]; [cbn; lia|].
  rewrite filter_cons. case_decide as E; [|done]. subst x. cbn.
  destruct (filter (fun x => x = h) l) as [|y l'] eqn:Hf; [cbn; lia|].
  exfalso. apply Hx.
  assert (Hy : y ∈ filter (fun x => x = h) l) by (rewrite Hf; left).
  apply list_elem_of_filter in Hy as [-> ?]. done.
Qed.

Lemma add_count (member : M) (c : Consistent M HF) (name : string) (i : Z) :
  0 <= i < ReplicationFactor (config c) ->
  (length (filter (fun x => x = vnode c name i) (sortedSet c))
   + (if decide (Member_String member = name) then 1 else 0)
   <= length (filter (fun x => x = vnode c name i)
                (sortedSet (add member c))))%nat.
Proof.
  intros Hi. destruct (add_fields member c) as (_ & _ & _ & _ & _ & _ & -> & _).
  unfold sortSlice. rewrite merge_sort_Permutation, count_app.
  apply Nat.add_le_mono_l. case_decide as E; [|lia].
  apply count_elem_of. rewrite E. by apply vnode_elem_of_replicas.
Qed.

Lemma adds_count (ms : list M) (c : Consistent M HF) (name : string) (i : Z) :
  0 <= i < ReplicationFactor (config c) ->
  (length (filter (fun x => x = vnode c name i) (sortedSet c))
   + length (filter (fun m => Member_String m = name) ms)
   <= length (filter (fun x => x = vnode c name i)
                (sortedSet (foldl (fun c member => add member c) c ms))))%nat.
Proof.
  revert c. induction ms as [|m ms IH]; intros c Hi; cbn [foldl].
  - cbn. lia.
  - destruct (add_fields m c) as (Ec & Eh & _).
    specialize (IH (add m c)). rewrite Ec in IH.
    rewrite (vnode_hashFunc c (add m c)) in IH by done.
    specialize (IH Hi). pose proof (add_count m c name i Hi) as Hadd.
    rewrite filter_cons. case_decide; cbn [length]; lia.
Qed.

Lemma adds_members (ms : list M) (c : Consistent M HF) (name : string) :
  (exists m, m ∈ ms /\ Member_String m = name) ->
  exists m, m ∈ ms /\ Member_String m = name /\
    members (foldl (fun c member => add member c) c ms) !! name = Some m.
Proof.
  induction ms as [|m ms IH] using rev_ind; intros (m0 & Hin & Hname).
  - by apply elem_of_nil in Hin.
  - rewrite foldl_app. cbn [foldl].
    destruct (add_fields m (foldl (fun c member => add member c) c ms))
      as (_ & _ & _ & _ & _ & -> & _).
    destruct (decide (Member_String m = name)) as [E|NE].
    + exists m. split; [apply elem_of_app; right; left|].
      split; [done|]. rewrite E. apply lookup_insert_eq.
    + apply elem_of_app in Hin as [Hin|Hin].
      * destruct IH as (m1 & Hin1 & Hname1 & Hm1); [eauto|].
        exists m1. split; [apply elem_of_app; by left|]. split; [done|].
        by rewrite lookup_insert_ne.
      * apply list_elem_of_singleton in Hin. congruence.
Qed.

(** C10: [New] adds every element of its list without the membership
    check of [Add]: when [k] elements of the list have the name [name],
    the hash of each of the [R] virtual nodes of that name stands at least
    [k] times in [sortedSet] ([k] appends of it, and one more for each
    other virtual node of the list with the same hash), so that for
    [k > 1] [sortedSet] has duplicates, while the member map has one
    entry for the name, the last such element of the list. *)
Theorem New_keeps_duplicate_members
    (ms : option (list M)) (cfg : Config HF) (c : Consistent M HF)
    (name : string) (i : Z) :
  New ms cfg = Ok c ->
  0 <= i < ReplicationFactor (config c) ->
  (length (filter (fun m => Member_String m = name) (default [] ms))
   <= length (filter (fun x => x = vnode c name i) (sortedSet c)))%nat /\
  ((2 <= length (filter (fun m => Member_String m = name) (default [] ms)))%nat
   -> ~ NoDup (sortedSet c)) /\
  ((1 <= length (filter (fun m => Member_String m = name) (default [] ms)))%nat
   -> exists m : M, m ∈ default [] ms /\ Member_String m = name /\
                    members c !! name = Some m).
Proof.
  intros Hnew Hi.
  apply New_Ok_inv in Hnew as (hf & Hhf & Ec & Eh & Es & Em).
  set (c0 := newConsistent hf (withDefaults cfg)) in *.
  assert (Hcount :
    (length (filter (fun m => Member_String m = name) (default [] ms))
     <= length (filter (fun x => x = vnode c name i) (sortedSet c)))%nat).
  { rewrite Es. rewrite (vnode_hashFunc c0 c) by done.
    pose proof (adds_count (default [] ms) c0 name i) as Hc.
    rewrite Ec in Hi. specialize (Hc Hi). cbn [c0 newConsistent sortedSet] in Hc.
    cbn in Hc. exact Hc. }
  split; [done|]. split.
  - intros Hk Hnd. apply (count_NoDup (vnode c name i)) in Hnd. lia.
  - intros Hk. rewrite Em. apply adds_members.
    destruct (filter (fun m => Member_String m = name) (default [] ms))
      as [|m l] eqn:Hf; [cbn in Hk; lia|].
    assert (Hin : m ∈ filter (fun m => Member_String m = name) (default [] ms))
      by (rewrite Hf; left).
    apply list_elem_of_filter in Hin as [? ?]. eauto.
Qed.


(** ** The closest members *)

Lemma rangeStep_Ok (c : Consistent M HF) (o : M) (ownerKey : Z)
    (keys : list Z) (kMems : gmap Z M) (entry : string * M) :
  rangeStep c (Some o) (Ok (ownerKey, keys, kMems)) entry
  = Ok (if decide (entry.1 = Member_String o)
        then Sum64 c (bytes entry.1) else ownerKey,
        keys ++ [Sum64 c (bytes entry.1)],
        <[Sum64 c (bytes entry.1) := entry.2]> kMems).
Proof. reflexivity. Qed.

Lemma range_members_spec (c : Consistent M HF) (o : M)
    (order : list (string * M)) (ownerKey : Z) (keys : list Z)
    (kMems : gmap Z M) :
  foldl (rangeStep c (Some o)) (Ok (ownerKey, keys, kMems)) order
  = Ok (if decide (Member_String o ∈ order.*1)
        then Sum64 c (bytes (Member_String o)) else ownerKey,
        keys ++ ((fun n => Sum64 c (bytes n)) <$> order.*1),
        foldl (fun km e => <[Sum64 c (bytes e.1) := e.2]> km) kMems order).
Proof.
  revert ownerKey keys kMems.
  induction order as [|e order IH]; intros ownerKey keys kMems.
  - cbn. by rewrite app_nil_r.
  - cbn [foldl]. rewrite rangeStep_Ok, IH. cbn [fmap list_fmap].
    rewrite <- app_assoc. cbn [app]. f_equal. f_equal. f_equal.
    destruct (decide (e.1 = Member_String o)) as [E|NE].
    + rewrite E.
      destruct (decide (Member_String o ∈ Member_String o :: order.*1))
        as [_|Hn]; [by case_decide|].
      exfalso. apply Hn. left.
    + destruct (decide (Member_String o ∈ order.*1)) as [Hin|Hin];
        destruct (decide (Member_String o ∈ e.1 :: order.*1)) as [Hin'|Hin'];
        try done.
      * exfalso. apply Hin'. by right.
      * apply elem_of_cons in Hin' as [?|?]; [congruence|done].
Qed.

Lemma range_members_nil_owner (c : Consistent M HF) (order : list (string * M))
    (st : Z * list Z * gmap Z M) :
  order <> [] ->
  foldl (rangeStep c None) (Ok st) order = Panic panic_nil_deref.
Proof.
  destruct order as [|e order]; [done|]. intros _. cbn [foldl].
  assert (E : rangeStep c None (Ok st) e = Panic panic_nil_deref)
    by by destruct st as [[? ?] ?].
  rewrite E. clear. induction order as [|e' order IH]; [done|].
  cbn [foldl]. exact IH.
Qed.

Lemma kMems_other (hk : string -> Z) (order : list (string * M))
    (kMems : gmap Z M) (key : Z) :
  key ∉ hk <$> order.*1 ->
  foldl (fun km e => <[hk e.1 := e.2]> km) kMems order !! key = kMems !! key.
Proof.
  revert kMems. induction order as [|e order IH]; intros kMems Hkey;
    cbn [foldl]; [done|].
  cbn [fmap list_fmap] in Hkey. apply not_elem_of_cons in Hkey as [Hne Hkey].
  rewrite IH by done. by rewrite lookup_insert_ne.
Qed.

Lemma kMems_entry (hk : string -> Z) (order : list (string * M))
    (kMems : gmap Z M) (n : string) (m : M) :
  NoDup (order.*1) ->
  (forall n1 n2, n1 ∈ order.*1 -> n2 ∈ order.*1 -> hk n1 = hk n2 -> n1 = n2) ->
  (n, m) ∈ order ->
  foldl (fun km e => <[hk e.1 := e.2]> km) kMems order !! hk n = Some m.
Proof.
  revert kMems. induction order as [|e order IH]; intros kMems Hnd Hinj Hin.
  - by apply elem_of_nil in Hin.
  - cbn [foldl]. cbn [fmap list_fmap] in Hnd, Hinj.
    apply NoDup_cons in Hnd as [He Hnd].
    apply elem_of_cons in Hin as [<-|Hin].
    + rewrite kMems_other; [apply lookup_insert_eq|]. cbn.
      intros (n' & Hhk & Hn')%list_elem_of_fmap.
      apply Hinj in Hhk; [|left|by right]. cbn in He. by subst n'.
    + apply IH; [done| |done].
      intros n1 n2 H1 H2. apply Hinj; by right.
Qed.

Lemma findOwner_found (rest : list Z) (kMems : gmap Z M) (ownerKey idx : Z)
    (m : M) :
  ownerKey ∈ rest ->
  kMems !! ownerKey = Some m ->
  exists j : nat,
    findOwner rest kMems ownerKey idx = Ok (idx + Z.of_nat j, [m]) /\
    rest !! j = Some ownerKey.
Proof.
  revert idx. induction rest as [|key rest IH]; intros idx Hin Hm.
  - by apply elem_of_nil in Hin.
  - cbn [findOwner]. destruct (Z.eqb_spec key ownerKey) as [->|Hne].
    + rewrite Hm. exists 0%nat. split; [f_equal; f_equal; lia|done].
    + apply elem_of_cons in Hin as [?|Hin]; [congruence|].
      destruct (IH (idx + 1) Hin Hm) as (j & Hj & Hl).
      exists (S j). split; [|done]. rewrite Hj. f_equal. f_equal. lia.
Qed.

Lemma closestLoop_runs (fuel : nat) (keys : list Z) (kMems : gmap Z M)
    (count idx : Z) (res : list M) :
  (1 <= fuel)%nat ->
  count - Z.of_nat (length res) < Z.of_nat fuel ->
  closestLoop fuel keys kMems count idx res <> OutOfFuel.
Proof.
  revert idx res. induction fuel as [|fuel IH]; intros idx res Hone Hfuel.
  - lia.
  - cbn [closestLoop].
    destruct (Z.ltb_spec (Z.of_nat (length res)) count); [|done].
    destruct (index keys _) as [key|]; [|done].
    destruct (kMems !! key) as [m|]; [|done].
    apply IH; rewrite ?length_app; cbn [length]; lia.
Qed.

(** The walk of [closestLoop]: turn [t] reads the key at the position
    [idx + t] of the circle of keys. *)
Lemma closestLoop_walk (fuel : nat) (keys : list Z) (kMems : gmap Z M)
    (count idx : Z) (res : list M) :
  0 <= idx < Z.of_nat (length keys) ->
  (forall key, key ∈ keys -> is_Some (kMems !! key)) ->
  (1 <= fuel)%nat ->
  count - Z.of_nat (length res) < Z.of_nat fuel ->
  exists res' : list M,
    closestLoop fuel keys kMems count idx res = Ok (res ++ res') /\
    length res' = Z.to_nat (count - Z.of_nat (length res)) /\
    forall (t : nat) (m : M),
      res' !! t = Some m ->
      exists key : Z,
        keys !! Z.to_nat ((idx + 1 + Z.of_nat t) mod Z.of_nat (length keys))
        = Some key /\
        kMems !! key = Some m.
Proof.
  intros Hidx Hkeys. revert idx res Hidx.
  induction fuel as [|fuel IH]; intros idx res Hidx Hone Hfuel.
  - lia.
  - cbn [closestLoop].
    destruct (Z.ltb_spec (Z.of_nat (length res)) count) as [Hlt|Hge].
    + set (idx' := if Z.of_nat (length keys) <=? idx + 1 then 0 else idx + 1).
      assert (Hidx' : 0 <= idx' < Z.of_nat (length keys) /\
                      idx' = (idx + 1) mod Z.of_nat (length keys)).
      { subst idx'. destruct (Z.leb_spec (Z.of_nat (length keys)) (idx + 1)).
        - assert (E : idx + 1 = Z.of_nat (length keys)) by lia.
          rewrite E, Z.mod_same by lia. lia.
        - rewrite Z.mod_small by lia. lia. }
      destruct Hidx' as [Hr Hmod].
      assert (Hlook : is_Some (keys !! Z.to_nat idx')).
      { apply lookup_lt_is_Some. lia. }
      destruct Hlook as [key Hkey].
      assert (Hindex : index keys idx' = Some key).
      { unfold index. destruct (Z.ltb_spec idx' 0); [lia|done]. }
      rewrite Hindex.
      destruct (Hkeys key) as [m Hm]; [by eapply list_elem_of_lookup_2|].
      rewrite Hm.
      destruct (IH idx' (res ++ [m]) Hr) as (res' & Hrun & Hlen & Hwalk).
      { lia. }
      { rewrite length_app. cbn [length]. lia. }
      exists (m :: res'). split; [by rewrite Hrun, <- app_assoc|].
      rewrite length_app in Hlen. cbn [length] in Hlen |- *.
      split; [lia|].
      intros [|t] m'.
      * cbn. intros [= <-]. exists key. split; [|done].
        rewrite Z.add_0_r, <- Hmod. done.
      * cbn. intros Ht. apply Hwalk in Ht as (key' & Hk' & Hm').
        exists key'. split; [|done]. rewrite <- Hk'. f_equal. f_equal.
        rewrite Hmod.
        rewrite <- (Zplus_mod_idemp_l (idx + 1)).
        f_equal. lia.
    + exists []. rewrite app_nil_r. split; [done|]. split; [cbn; lia|].
      intros t m. by rewrite lookup_nil.
Qed.


Lemma mod_shift_inj (n j t1 t2 : Z) :
  0 < n -> 0 <= t1 < n -> 0 <= t2 < n ->
  (j + t1) mod n = (j + t2) mod n -> t1 = t2.
Proof.
  intros Hn H1 H2 E.
  assert (E0 : (t1 - t2) mod n = 0).
  { replace (t1 - t2) with ((j + t1) - (j + t2)) by lia.
    rewrite Zminus_mod, E, Z.sub_diag. apply Z.mod_0_l. lia. }
  apply Z.mod_divide in E0; [|lia]. destruct E0 as [k Hk].
  destruct (Z.eq_dec k 0) as [->|Hk0]; [lia|].
  assert (Hcases : k <= -1 \/ 1 <= k) by lia.
  destruct Hcases; nia.
Qed.

Lemma getClosestN_error_iff (c : Consistent M HF) (order : list (string * M))
    (partID count : Z) :
  (exists res : list M,
     getClosestN c order partID count
     = Ok (res, Some ErrInsufficientMemberCount))
  <-> len (members c) < count.
Proof.
  unfold getClosestN.
  destruct (Z.ltb_spec (len (members c)) count) as [Hlt|Hge].
  - split; [done|]. intros _. by exists [].
  - split; [|lia]. intros [res Hres]. exfalso.
    apply bind_Ok_inv in Hres as ([[ownerKey keys] kMems] & _ & Hres).
    apply bind_Ok_inv in Hres as ([idx res0] & _ & Hres).
    apply bind_Ok_inv in Hres as (res1 & _ & Hres). discriminate.
Qed.

Lemma getClosestN_runs (c : Consistent M HF) (order : list (string * M))
    (partID count : Z) :
  getClosestN c order partID count <> OutOfFuel.
Proof.
  unfold getClosestN. destruct (_ <? count); [done|].
  apply bind_runs.
  - destruct (getPartitionOwner c partID) as [o|].
    + by rewrite range_members_spec.
    + destruct order as [|e order]; [done|].
      by rewrite range_members_nil_owner.
  - intros [[ownerKey keys] kMems]. apply bind_runs.
    + generalize 0. generalize (sortSlice keys) at 1.
      induction l as [|key rest IH]; intros idx; cbn; [done|].
      destruct (key =? ownerKey); [by destruct (kMems !! key)|apply IH].
    + intros [idx res]. apply bind_runs; [|done].
      apply closestLoop_runs; lia.
Qed.

(** With enough members, and member names that the hash function tells
    apart, [getClosestN] returns [count] members of distinct names, the
    owner of the partition first. *)
Lemma getClosestN_members (c : Consistent M HF) (order : list (string * M))
    (partID count : Z) :
  state_ok c ->
  order ≡ₚ map_to_list (members c) ->
  (forall n1 n2 : string,
     is_Some (members c !! n1) -> is_Some (members c !! n2) ->
     Sum64 c (bytes n1) = Sum64 c (bytes n2) -> n1 = n2) ->
  0 <= partID < partitionCount c ->
  1 <= count <= len (members c) ->
  exists (res : list M) (owner : M),
    getClosestN c order partID count = Ok (res, None) /\
    Z.of_nat (length res) = count /\
    NoDup (Member_String <$> res) /\
    (forall m : M, m ∈ res -> members c !! Member_String m = Some m) /\
    getPartitionOwner c partID = Some owner /\
    head res = Some owner.
Proof.
  intros Hok Hperm Hinj HpartID Hcount.
  assert (Hne : members c <> ∅).
  { intros E. apply len_zero_iff in E. lia. }
  pose proof (ok_table c Hok Hne) as Htable.
  pose proof (ok_ring c Hok) as Hring.
  destruct (table_total c Htable partID HpartID) as (o & Ho & Hom).
  set (hk := fun n : string => Sum64 c (bytes n)).
  assert (Hentry : forall n m, (n, m) ∈ order <-> members c !! n = Some m).
  { intros n m. rewrite Hperm. apply elem_of_map_to_list. }
  assert (Hnames : forall n, n ∈ order.*1 <-> is_Some (members c !! n)).
  { intros n. rewrite list_elem_of_fmap. split.
    - intros ([n' m] & -> & Hin). apply Hentry in Hin. eauto.
    - intros [m Hm]. exists (n, m). split; [done|]. by apply Hentry. }
  assert (Hnd : NoDup (order.*1)).
  { rewrite Hperm. apply NoDup_fst_map_to_list. }
  assert (Hinj' : forall n1 n2, n1 ∈ order.*1 -> n2 ∈ order.*1 ->
                                hk n1 = hk n2 -> n1 = n2).
  { intros n1 n2 H1 H2. apply Hinj; by apply Hnames. }
  assert (Hlen : length order = size (members c)).
  { rewrite Hperm. apply length_map_to_list. }
  unfold getClosestN.
  destruct (Z.ltb_spec (len (members c)) count) as [?|_]; [lia|].
  unfold getPartitionOwner at 1. rewrite Ho.
  rewrite range_members_spec. cbn [mbind result_bind app].
  rewrite decide_True by (apply Hnames; eauto).
  fold hk.
  set (keys := sortSlice (hk <$> order.*1)).
  set (kMems := foldl (fun km e => <[Sum64 c (bytes e.1) := e.2]> km) ∅ order).
  assert (Hkperm : keys ≡ₚ hk <$> order.*1)
    by apply merge_sort_Permutation.
  assert (K1 : forall key, key ∈ keys ->
            exists n m, key = hk n /\ members c !! n = Some m /\
                        kMems !! key = Some m).
  { intros key Hkey. rewrite Hkperm in Hkey.
    apply list_elem_of_fmap in Hkey as (n & -> & Hn).
    apply Hnames in Hn as Hm. destruct Hm as [m Hm]. exists n, m.
    split; [done|]. split; [done|].
    apply (kMems_entry hk); [done|done|]. by apply Hentry. }
  assert (K2 : NoDup keys).
  { rewrite Hkperm. apply NoDup_fmap_2_strong; [|done].
    intros n1 n2 H1 H2. by apply Hinj'. }
  assert (Hklen : length keys = size (members c)).
  { rewrite Hkperm, length_fmap, length_fmap. done. }
  assert (K3 : hk (Member_String o) ∈ keys).
  { rewrite Hkperm. apply list_elem_of_fmap_2, Hnames. eauto. }
  assert (K4 : kMems !! hk (Member_String o) = Some o).
  { apply (kMems_entry hk); [done|done|]. by apply Hentry. }
  destruct (findOwner_found keys kMems (hk (Member_String o)) 0 o K3 K4)
    as (j & Hfind & Hj).
  change (hk (Member_String o))
    with (Sum64 c (bytes (Member_String o))) in Hfind.
  rewrite Hfind. cbn [mbind result_bind].
  assert (Hjlt : (j < length keys)%nat) by by eapply lookup_lt_Some.
  destruct (closestLoop_walk (S (Z.to_nat count)) keys kMems count
              (0 + Z.of_nat j) [o]) as (res' & Hloop & Hlen' & Hwalk).
  { lia. }
  { intros key Hkey. destruct (K1 key Hkey) as (? & m & _ & _ & ?). eauto. }
  { lia. }
  { cbn [length]. lia. }
  rewrite Hloop. cbn [mbind result_bind app length] in *.
  exists (o :: res'), o.
  assert (Hpos : forall (t : nat) (m : M), (o :: res') !! t = Some m ->
            exists key,
              keys !! Z.to_nat ((Z.of_nat j + Z.of_nat t)
                                mod Z.of_nat (length keys)) = Some key /\
              kMems !! key = Some m).
  { intros [|t] m.
    - cbn. intros [= <-]. exists (hk (Member_String o)).
      split; [|done]. rewrite Z.add_0_r, Z.mod_small by lia.
      by rewrite Nat2Z.id.
    - cbn. intros Ht. apply Hwalk in Ht as (key & Hk & Hm).
      exists key. split; [|done]. rewrite <- Hk. do 3 f_equal. lia. }
  assert (Hmem : forall (t : nat) (m : M), (o :: res') !! t = Some m ->
            exists key, keys !! Z.to_nat ((Z.of_nat j + Z.of_nat t)
                                mod Z.of_nat (length keys)) = Some key /\
                        key = hk (Member_String m) /\
                        members c !! Member_String m = Some m).
  { intros t m Ht. apply Hpos in Ht as (key & Hk & Hm). exists key.
    split; [done|].
    destruct (K1 key) as (n & m' & -> & Hn & Hm');
      [by eapply list_elem_of_lookup_2|].
    rewrite Hm in Hm'. injection Hm' as <-.
    pose proof (members_name c Hring n m Hn) as <-. done. }
  split; [done|]. split; [cbn [length]; lia|].
  split; [|split; [|split; [by unfold getPartitionOwner; rewrite Ho|done]]].
  - apply NoDup_alt. intros t1 t2 s H1 H2.
    apply list_lookup_fmap_Some in H1 as (m1 & -> & Hm1).
    apply list_lookup_fmap_Some in H2 as (m2 & Es & Hm2).
    pose proof (lookup_lt_Some _ _ _ Hm1) as Ht1.
    pose proof (lookup_lt_Some _ _ _ Hm2) as Ht2.
    cbn [length] in Ht1, Ht2.
    apply Hmem in Hm1 as (key1 & Hk1 & -> & _).
    apply Hmem in Hm2 as (key2 & Hk2 & -> & _).
    rewrite <- Es in Hk2.
    pose proof (NoDup_lookup _ _ _ _ K2 Hk1 Hk2) as Epos.
    apply Z2Nat.inj in Epos; [|apply Z.mod_pos_bound; lia..].
    apply mod_shift_inj in Epos; unfold len in *; lia.
  - intros m Hm. apply list_elem_of_lookup in Hm as [t Ht].
    by apply Hmem in Ht as (key & _ & _ & ?).
Qed.


(** C7: in a state reached from [New], with a hash function that tells
    the member names apart, and whatever the order in which the member map
    is ranged over, [GetClosestN] and [GetClosestNForPartition] return the
    insufficient-members error exactly when [count] is more than the
    number of members; for [1 <= count <= |M|] (and, for
    [GetClosestNForPartition], a partition id of [0, P)) they return
    [count] current members of distinct names, the first of them the owner
    of the partition. *)
Theorem GetClosestN_distinct_members (c : Consistent M HF)
    (order : list (string * M)) (key : list byte) (partID count : Z) :
  reachable c ->
  order ≡ₚ map_to_list (members c) ->
  (forall n1 n2 : string,
     is_Some (members c !! n1) -> is_Some (members c !! n2) ->
     Sum64 c (bytes n1) = Sum64 c (bytes n2) -> n1 = n2) ->
  ((exists res : list M,
      GetClosestN c order key count
      = Ok (res, Some ErrInsufficientMemberCount))
   <-> len (members c) < count) /\
  ((exists res : list M,
      GetClosestNForPartition c order partID count
      = Ok (res, Some ErrInsufficientMemberCount))
   <-> len (members c) < count) /\
  (1 <= count <= len (members c) ->
   exists (res : list M) (owner : M),
     GetClosestN c order key count = Ok (res, None) /\
     Z.of_nat (length res) = count /\
     NoDup (Member_String <$> res) /\
     (forall m : M, m ∈ res -> members c !! Member_String m = Some m) /\
     LocateKey c key = Ok (Some owner) /\
     head res = Some owner) /\
  (1 <= count <= len (members c) ->
   0 <= partID < partitionCount c ->
   exists (res : list M) (owner : M),
     GetClosestNForPartition c order partID count = Ok (res, None) /\
     Z.of_nat (length res) = count /\
     NoDup (Member_String <$> res) /\
     (forall m : M, m ∈ res -> members c !! Member_String m = Some m) /\
     GetPartitionOwner c partID = Some owner /\
     head res = Some owner).
Proof.
  intros Hreach Hperm Hinj.
  pose proof (reachable_state_ok c Hreach) as Hok.
  destruct (FindPartitionID_reachable c key Hreach) as [Efind Hrange].
  unfold GetClosestN, GetClosestNForPartition, LocateKey, GetPartitionOwner.
  rewrite Efind. cbn [mbind result_bind].
  split; [apply getClosestN_error_iff|].
  split; [apply getClosestN_error_iff|].
  split.
  - intros Hcount.
    destruct (getClosestN_members c order _ count Hok Hperm Hinj Hrange Hcount)
      as (res & owner & Hres & Hlen & Hnd & Hmem & Howner & Hhead).
    exists res, owner. rewrite Howner. done.
  - intros Hcount HpartID.
    exact (getClosestN_members c order _ count Hok Hperm Hinj HpartID Hcount).
Qed.


(** ** The order of [sortedSet] *)

Lemma delSlice_elem_of (val y : Z) (l : list Z) :
  y ∈ delSlice val l -> y ∈ l.
Proof.
  induction l as [|x l IH]; cbn [delSlice]; [done|].
  destruct (Z.eqb_spec x val).
  - intros Hy. by right.
  - intros [->|Hy]%elem_of_cons; [left|right; auto].
Qed.

Lemma delSlice_elem_of_ne (val y : Z) (l : list Z) :
  y ∈ l -> y <> val -> y ∈ delSlice val l.
Proof.
  induction l as [|x l IH]; cbn [delSlice]; [done|].
  intros [->|Hy]%elem_of_cons Hne.
  - destruct (Z.eqb_spec x val); [done|left].
  - destruct (Z.eqb_spec x val); [done|right; auto].
Qed.

Lemma delSlice_sorted (val : Z) (l : list Z) :
  StronglySorted Z.le l -> StronglySorted Z.le (delSlice val l).
Proof.
  induction 1 as [|x l Hl IH Hx]; cbn [delSlice]; [constructor|].
  destruct (Z.eqb_spec x val); [done|].
  constructor; [done|].
  apply Forall_forall. intros y Hy. apply delSlice_elem_of in Hy.
  by eapply Forall_forall in Hx.
Qed.

Lemma delSlices_sorted (hs l : list Z) :
  StronglySorted Z.le l ->
  StronglySorted Z.le (foldl (fun l h => delSlice h l) l hs).
Proof.
  revert l. induction hs as [|h hs IH]; intros l Hl; cbn [foldl]; [done|].
  by apply IH, delSlice_sorted.
Qed.

Lemma delSlices_elem_of_ne (hs l : list Z) (y : Z) :
  y ∈ l -> y ∉ hs -> y ∈ foldl (fun l h => delSlice h l) l hs.
Proof.
  revert l. induction hs as [|h hs IH]; intros l Hy Hhs; cbn [foldl]; [done|].
  apply not_elem_of_cons in Hhs as [Hne Hhs].
  apply IH; [|done]. by apply delSlice_elem_of_ne.
Qed.

Lemma add_nodes_ok (member : M) (c : Consistent M HF) :
  nodes_ok c -> nodes_ok (add member c).
Proof.
  intros [_ Hcover].
  destruct (add_fields member c) as (_ & _ & _ & _ & _ & _ & Es & Er).
  split.
  - rewrite Es. apply StronglySorted_merge_sort; apply _.
  - intros h. rewrite Er, Es. unfold sortSlice.
    rewrite merge_sort_Permutation, elem_of_app.
    case_decide; [by right|]. intros Hh. left. by apply Hcover.
Qed.

Lemma removeNodes_nodes_ok (name : string) (c : Consistent M HF) :
  nodes_ok c -> nodes_ok (removeNodes name c).
Proof.
  intros [Hsorted Hcover].
  destruct (removeNodes_fields name c) as (_ & _ & _ & _ & _ & _ & Es & Er).
  split.
  - rewrite Es. by apply delSlices_sorted.
  - intros h. rewrite Er, Es. case_decide as Hin.
    + by intros [? ?].
    + intros Hh. apply delSlices_elem_of_ne; [by apply Hcover|done].
Qed.

Lemma distributePartitions_nodes_ok (c c' : Consistent M HF) :
  distributePartitions c = Ok c' -> nodes_ok c -> nodes_ok c'.
Proof.
  intros Hrun [Hsorted Hcover].
  apply distributePartitions_fields in Hrun as (_ & _ & Es & _ & _ & Er).
  split; [by rewrite Es|]. intros h. rewrite Er, Es. apply Hcover.
Qed.

Lemma adds_nodes_ok (ms : list M) (c : Consistent M HF) :
  nodes_ok c -> nodes_ok (foldl (fun c member => add member c) c ms).
Proof.
  revert c. induction ms as [|m ms IH]; intros c Hc; cbn [foldl];
    [done|]. by apply IH, add_nodes_ok.
Qed.

Lemma apply_op_nodes_ok (o : op M) (c c' : Consistent M HF) :
  nodes_ok c -> apply_op o c = Ok c' -> nodes_ok c'.
Proof.
  intros Hc. destruct o as [member|name]; cbn [apply_op].
  - unfold Add. destruct (members c !! Member_String member).
    + by intros [= <-].
    + intros Hrun. eapply distributePartitions_nodes_ok; [done|].
      by apply add_nodes_ok.
  - unfold Remove. destruct (members c !! name); [|by intros [= <-]].
    pose proof (removeNodes_nodes_ok name c Hc) as Hc1.
    destruct (len _ =? 0).
    + by intros [= <-].
    + intros Hrun. by eapply distributePartitions_nodes_ok.
Qed.

Lemma reachable_nodes_ok (c : Consistent M HF) : reachable c -> nodes_ok c.
Proof.
  intros (ms & cfg & ops & c0 & _ & Hnew & Hrun).
  assert (Hc0 : nodes_ok c0).
  { unfold New in Hnew. destruct (HashFunc cfg) as [hf|]; [|done].
    assert (Hinit : nodes_ok (newConsistent (M := M) hf (withDefaults cfg))).
    { split; [constructor|]. intros h [m Hm]. cbn in Hm.
      by rewrite lookup_empty in Hm. }
    apply (adds_nodes_ok (default [] ms)) in Hinit.
    destruct ms as [ms|].
    - by eapply distributePartitions_nodes_ok.
    - by injection Hnew as <-. }
  clear Hnew. revert c0 Hc0 Hrun.
  induction ops as [|o ops IH]; intros c0 Hc0 Hrun; cbn [run] in Hrun.
  - by injection Hrun as <-.
  - apply bind_Ok_inv in Hrun as (c1 & Hop & Hrest).
    apply (IH c1); [|done]. by eapply apply_op_nodes_ok.
Qed.

(** In every state reached from [New], [sortedSet] is in ascending order
    (equal neighbours are not excluded) and holds the hash of every entry
    of the ring map. *)
Theorem sortedSet_ascending_covers_ring (c : Consistent M HF) :
  reachable c ->
  StronglySorted Z.le (sortedSet c) /\
  forall h : Z, is_Some (ring c !! h) -> h ∈ sortedSet c.
Proof. intros Hreach. exact (reachable_nodes_ok c Hreach). Qed.


Lemma StronglySorted_lookup_le (l : list Z) (i j : nat) (a b : Z) :
  StronglySorted Z.le l -> (i <= j)%nat ->
  l !! i = Some a -> l !! j = Some b -> a <= b.
Proof.
  intros Hl. revert i j. induction Hl as [|x l Hl IH Hx]; intros i j Hij Hi Hj.
  - by rewrite lookup_nil in Hi.
  - destruct i as [|i], j as [|j]; cbn in Hi, Hj.
    + injection Hi as <-. injection Hj as <-. lia.
    + injection Hi as <-. eapply Forall_forall in Hx; [exact Hx|].
      by eapply list_elem_of_lookup_2.
    + lia.
    + apply (IH i j); [lia|done|done].
Qed.

(** The probe of a partition starts at the first virtual node whose hash
    is at or after the hash of the partition, and at index 0 when every
    hash is before it: step 3 of the pass, in the states reached from
    [New], where [sortedSet] is in order. *)
Theorem searchIdx_first_at_or_after (c : Consistent M HF) (partID : Z) :
  reachable c ->
  ((forall h : Z, h ∈ sortedSet c -> h < Sum64 c (PutUint64 partID)) ->
   searchIdx c partID = 0) /\
  (forall (i : nat) (h : Z),
     sortedSet c !! i = Some h ->
     Sum64 c (PutUint64 partID) <= h ->
     (forall (j : nat) (h' : Z),
        (j < i)%nat -> sortedSet c !! j = Some h' ->
        h' < Sum64 c (PutUint64 partID)) ->
     searchIdx c partID = Z.of_nat i).
Proof.
  intros Hreach.
  pose proof (proj1 (reachable_nodes_ok c Hreach)) as Hsorted.
  unfold searchIdx.
  set (key := Sum64 c (PutUint64 partID)).
  set (n := Z.of_nat (length (sortedSet c))).
  set (f := fun i : Z => match index (sortedSet c) i with
                         | Some h => key <=? h
                         | None => false
                         end).
  destruct (sort_Search_spec n f) as ([Hlo Hhi] & Hbefore & Hat); [lia|].
  assert (Hf : forall (i : nat) (h : Z),
            sortedSet c !! i = Some h -> f (Z.of_nat i) = (key <=? h)).
  { intros i h Hi. unfold f, index.
    destruct (Z.ltb_spec (Z.of_nat i) 0); [lia|].
    by rewrite Nat2Z.id, Hi. }
  assert (Htrue_inv : forall z : Z, f z = true ->
            exists h : Z, sortedSet c !! Z.to_nat z = Some h /\ key <= h).
  { intros z. unfold f, index. destruct (Z.ltb_spec z 0); [done|].
    destruct (sortedSet c !! Z.to_nat z) as [h|]; [|done].
    intros Hle%Z.leb_le. eauto. }
  split.
  - intros Hall.
    destruct Hat as [->|Htrue].
    { by rewrite Z.leb_refl. }
    exfalso. apply Htrue_inv in Htrue as (h & Hh & Hle).
    assert (h < key) by (apply Hall; by eapply list_elem_of_lookup_2). lia.
  - intros i h Hi Hkey Hmin.
    pose proof (lookup_lt_Some _ _ _ Hi) as Hlt.
    assert (Er : sort_Search n f = Z.of_nat i).
    { destruct (Z.lt_trichotomy (sort_Search n f) (Z.of_nat i))
        as [Hless|[E|Hmore]]; [|done|].
      - exfalso. destruct Hat as [E|Htrue]; [subst n; lia|].
        assert (Hsome : is_Some (sortedSet c !! Z.to_nat (sort_Search n f))).
        { apply lookup_lt_is_Some. lia. }
        destruct Hsome as [h' Hh'].
        pose proof (Hf _ _ Hh') as Hfr. rewrite Z2Nat.id in Hfr by lia.
        rewrite Hfr in Htrue. apply Z.leb_le in Htrue.
        assert (h' < key) by (eapply (Hmin (Z.to_nat (sort_Search n f)));
                              [lia|done]).
        lia.
      - exfalso. destruct Hbefore as [E|Hfalse]; [lia|].
        assert (Hsome :
          is_Some (sortedSet c !! Z.to_nat (sort_Search n f - 1))).
        { apply lookup_lt_is_Some. subst n. lia. }
        destruct Hsome as [h' Hh'].
        pose proof (Hf _ _ Hh') as Hfr. rewrite Z2Nat.id in Hfr by lia.
        rewrite Hfr in Hfalse. apply Z.leb_gt in Hfalse.
        assert (h <= h').
        { eapply (StronglySorted_lookup_le _ i
                    (Z.to_nat (sort_Search n f - 1))); [done|lia|done|done]. }
        lia. }
    rewrite Er. destruct (Z.leb_spec n (Z.of_nat i)); [subst n; lia|done].
Qed.


(** No call runs out of the fuel of its loops: each returns or panics. *)
Theorem operations_return_or_panic :
  (forall (ms : option (list M)) (cfg : Config HF), New ms cfg <> OutOfFuel) /\
  (forall (member : M) (c : Consistent M HF), Add member c <> OutOfFuel) /\
  (forall (name : string) (c : Consistent M HF), Remove name c <> OutOfFuel) /\
  (forall (ops : list (op M)) (c : Consistent M HF), run ops c <> OutOfFuel) /\
  (forall (c : Consistent M HF) (order : list (string * M)) (partID count : Z),
     getClosestN c order partID count <> OutOfFuel).
Proof.
  split; [exact New_runs|]. split; [exact Add_runs|].
  split; [exact Remove_runs|]. split; [exact run_runs|].
  exact getClosestN_runs.
Qed.


(** ** The partition of a key and the member map *)

Lemma Add_fields (member : M) (c c' : Consistent M HF) :
  Add member c = Ok c' ->
  config c' = config c /\ hashFunc c' = hashFunc c /\
  partitionCount c' = partitionCount c /\
  members c'
  = match members c !! Member_String member with
    | Some _ => members c
    | None => <[Member_String member := member]> (members c)
    end.
Proof.
  unfold Add. destruct (members c !! Member_String member).
  - by intros [= <-].
  - intros Hrun.
    apply distributePartitions_fields in Hrun as (-> & -> & _ & -> & -> & _).
    destruct (add_fields member c) as (-> & -> & -> & _ & _ & -> & _). done.
Qed.

Lemma Remove_fields (name : string) (c c' : Consistent M HF) :
  Remove name c = Ok c' ->
  config c' = config c /\ hashFunc c' = hashFunc c /\
  partitionCount c' = partitionCount c /\
  members c' = delete name (members c).
Proof.
  unfold Remove. destruct (members c !! name) eqn:Hm.
  - destruct (removeNodes_fields name c) as (Ec & Eh & EP & _ & _ & Em & _).
    destruct (len _ =? 0).
    + intros [= <-]. done.
    + intros Hrun.
      apply distributePartitions_fields in Hrun as (-> & -> & _ & -> & -> & _).
      done.
  - intros [= <-]. by rewrite delete_id.
Qed.

Lemma run_fields (ops : list (op M)) (c c' : Consistent M HF) :
  run ops c = Ok c' ->
  config c' = config c /\ hashFunc c' = hashFunc c /\
  partitionCount c' = partitionCount c.
Proof.
  revert c. induction ops as [|o ops IH]; intros c; cbn [run].
  - by intros [= <-].
  - intros Hrun. apply bind_Ok_inv in Hrun as (c1 & Hop & Hrest).
    apply IH in Hrest as (-> & -> & ->).
    destruct o; cbn [apply_op] in Hop.
    + by apply Add_fields in Hop as (-> & -> & -> & _).
    + by apply Remove_fields in Hop as (-> & -> & -> & _).
Qed.

(** The partition of a key does not depend on the members: in every
    state that [New] and a sequence of [Add] and [Remove] calls lead to,
    [partitionCount] is the [PartitionCount] of the configuration
    ([DefaultPartitionCount] for 0), and [FindPartitionID(key)] returns
    what it returned right after [New]: the hash of the key modulo that
    count, a partition id of [0, P). *)
Theorem FindPartitionID_fixed_by_membership
    (ms : option (list M)) (cfg : Config HF) (ops : list (op M))
    (c0 c : Consistent M HF) (key : list byte) :
  0 <= PartitionCount cfg < 2 ^ 63 ->
  New ms cfg = Ok c0 ->
  run ops c0 = Ok c ->
  partitionCount c
  = (if PartitionCount cfg =? 0 then DefaultPartitionCount
     else PartitionCount cfg) /\
  FindPartitionID c key = FindPartitionID c0 key /\
  exists p : Z,
    FindPartitionID c key = Ok p /\
    0 <= p < partitionCount c /\
    p = Sum64 c0 key mod partitionCount c.
Proof.
  intros Hrange Hnew Hrun.
  assert (Hreach : reachable c) by (exists ms, cfg, ops, c0; done).
  pose proof (run_fields ops c0 c Hrun) as (Ec & Eh & EP).
  assert (ES : Sum64 c key = Sum64 c0 key) by (unfold Sum64; by rewrite Eh).
  destruct (FindPartitionID_reachable c key Hreach) as [Efind Hp].
  split.
  - rewrite EP. unfold New in Hnew.
    destruct (HashFunc cfg) as [hf|]; [|done].
    pose proof (adds_partitionCount (default [] ms)
                  (newConsistent hf (withDefaults cfg))) as EP0.
    cbn [newConsistent partitionCount] in EP0.
    assert (E0 : partitionCount c0 = uint64 (PartitionCount (withDefaults cfg))).
    { destruct ms as [ms|].
      - apply distributePartitions_fields in Hnew as (_ & _ & _ & -> & _).
        exact EP0.
      - injection Hnew as <-. exact EP0. }
    rewrite E0, withDefaults_PartitionCount.
    unfold DefaultPartitionCount.
    destruct (Z.eqb_spec (PartitionCount cfg) 0); apply uint64_small; lia.
  - split.
    + unfold FindPartitionID. by rewrite ES, EP.
    + exists (Sum64 c key mod partitionCount c).
      split; [done|]. split; [done|]. by rewrite ES.
Qed.

Lemma GetMembers_eq (c : Consistent M HF) (order : list (string * M)) :
  GetMembers c order = order.*2.
Proof.
  unfold GetMembers.
  assert (G : forall acc : list M,
             foldl (fun members entry => members ++ [entry.2]) acc order
             = acc ++ order.*2).
  { induction order as [|e order IH]; intros acc; cbn [foldl].
    - by rewrite app_nil_r.
    - rewrite IH. cbn. by rewrite <- app_assoc. }
  apply (G []).
Qed.

(** [GetMembers()] returns the current members, one for each name of
    the member map, whatever the order in which the map is ranged
    over. *)
Theorem GetMembers_current_members (c : Consistent M HF)
    (order : list (string * M)) :
  reachable c ->
  order ≡ₚ map_to_list (members c) ->
  Z.of_nat (length (GetMembers c order)) = len (members c) /\
  NoDup (Member_String <$> GetMembers c order) /\
  (forall m : M,
     m ∈ GetMembers c order <-> members c !! Member_String m = Some m) /\
  (forall name : string,
     name ∈ Member_String <$> GetMembers c order
     <-> is_Some (members c !! name)).
Proof.
  intros Hreach Hperm.
  pose proof (ok_ring c (reachable_state_ok c Hreach)) as Hring.
  rewrite GetMembers_eq.
  assert (Hentry : forall n m, (n, m) ∈ order <-> members c !! n = Some m).
  { intros n m. rewrite Hperm. apply elem_of_map_to_list. }
  assert (Hnames : Member_String <$> order.*2 = order.*1).
  { assert (Hall : Forall (fun e => Member_String e.2 = e.1) order).
    { apply Forall_forall. intros [n m] Hin. apply Hentry in Hin.
      by apply (members_name c Hring). }
    clear -Hall. induction Hall as [|e order He _ IH]; [done|].
    cbn. by rewrite He, IH. }
  assert (Hmem : forall m, m ∈ order.*2 <->
                           members c !! Member_String m = Some m).
  { intros m. rewrite list_elem_of_fmap. split.
    - intros ([n m'] & -> & Hin). apply Hentry in Hin. cbn.
      by rewrite (members_name c Hring n m' Hin).
    - intros Hm. exists (Member_String m, m). split; [done|].
      by apply Hentry. }
  split; [|split; [|split]].
  - rewrite length_fmap, Hperm, length_map_to_list. done.
  - rewrite Hnames, Hperm. apply NoDup_fst_map_to_list.
  - exact Hmem.
  - intros name. rewrite Hnames, list_elem_of_fmap. split.
    + intros ([n m] & -> & Hin). apply Hentry in Hin. eauto.
    + intros [m Hm]. exists (name, m). split; [done|]. by apply Hentry.
Qed.

Lemma adds_members_last (ms : list M) (c : Consistent M HF) (name : string) :
  members (foldl (fun c member => add member c) c ms) !! name
  = match last (filter (fun m => Member_String m = name) ms) with
    | Some m => Some m
    | None => members c !! name
    end.
Proof.
  induction ms as [|m ms IH] using rev_ind; [done|].
  rewrite foldl_app. cbn [foldl].
  destruct (add_fields m (foldl (fun c member => add member c) c ms))
    as (_ & _ & _ & _ & _ & -> & _).
  rewrite filter_app, filter_cons, filter_nil.
  destruct (decide (Member_String m = name)) as [E|NE].
  - rewrite last_snoc, E. apply lookup_insert_eq.
  - rewrite app_nil_r, lookup_insert_ne by done. exact IH.
Qed.

(** The member map.  After [New], a name maps to the last element of
    that name in the list; an [Add] that returns has inserted the member
    when its name was absent and has changed no entry otherwise; a
    [Remove] that returns has deleted the name. *)
Theorem member_map_after_New_Add_Remove :
  (forall (ms : option (list M)) (cfg : Config HF) (c : Consistent M HF)
          (name : string),
     New ms cfg = Ok c ->
     members c !! name
     = last (filter (fun m => Member_String m = name) (default [] ms))) /\
  (forall (member : M) (c c' : Consistent M HF),
     Add member c = Ok c' ->
     members c'
     = match members c !! Member_String member with
       | Some _ => members c
       | None => <[Member_String member := member]> (members c)
       end) /\
  (forall (name : string) (c c' : Consistent M HF),
     Remove name c = Ok c' -> members c' = delete name (members c)).
Proof.
  split; [|split].
  - intros ms cfg c name Hnew.
    apply New_Ok_inv in Hnew as (hf & _ & _ & _ & _ & ->).
    rewrite adds_members_last. cbn [newConsistent members].
    rewrite lookup_empty. by destruct (last _).
  - intros member c c' Hadd. by apply Add_fields in Hadd as (_ & _ & _ & ->).
  - intros name c c' Hrem. by apply Remove_fields in Hrem as (_ & _ & _ & ->).
Qed.


(** ** After a removal, and the edges of [getClosestN] *)

Lemma kMems_values (hk : string -> Z) (order : list (string * M))
    (kMems : gmap Z M) (key : Z) (m : M) :
  foldl (fun km e => <[hk e.1 := e.2]> km) kMems order !! key = Some m ->
  kMems !! key = Some m \/ m ∈ order.*2.
Proof.
  revert kMems. induction order as [|e order IH]; intros kMems; cbn [foldl].
  - by left.
  - intros Hm. apply IH in Hm as [Hm|Hm].
    + apply lookup_insert_Some in Hm as [[_ <-]|[_ Hm]].
      * right. cbn. left.
      * by left.
    + right. cbn. by right.
Qed.

Lemma findOwner_values (rest : list Z) (kMems : gmap Z M) (ownerKey idx : Z)
    (idx' : Z) (res : list M) :
  findOwner rest kMems ownerKey idx = Ok (idx', res) ->
  forall m : M, m ∈ res -> exists key : Z, kMems !! key = Some m.
Proof.
  revert idx. induction rest as [|key rest IH]; intros idx; cbn [findOwner].
  - intros [= <- <-] m Hm. by apply elem_of_nil in Hm.
  - destruct (key =? ownerKey).
    + destruct (kMems !! key) as [m0|] eqn:Hk; [|done].
      intros [= <- <-] m Hm. apply list_elem_of_singleton in Hm as ->. eauto.
    + apply IH.
Qed.

Lemma closestLoop_values (fuel : nat) (keys : list Z) (kMems : gmap Z M)
    (count idx : Z) (res res' : list M) :
  closestLoop fuel keys kMems count idx res = Ok res' ->
  forall m : M, m ∈ res' -> m ∈ res \/ exists key : Z, kMems !! key = Some m.
Proof.
  revert idx res. induction fuel as [|fuel IH]; intros idx res;
    cbn [closestLoop]; [done|].
  destruct (_ <? count).
  - destruct (index keys _) as [key|]; [|done].
    destruct (kMems !! key) as [m0|] eqn:Hk; [|done].
    intros Hrun m Hm. apply (IH _ _ Hrun) in Hm as [Hm|Hm]; [|by right].
    apply elem_of_app in Hm as [Hm|Hm]; [by left|].
    apply list_elem_of_singleton in Hm as ->. right. eauto.
  - intros [= <-] m Hm. by left.
Qed.

(** Whatever it returns, [getClosestN] returns values of the member map. *)
Lemma getClosestN_values (c : Consistent M HF) (order : list (string * M))
    (partID count : Z) (res : list M) (err : option error) :
  getClosestN c order partID count = Ok (res, err) ->
  forall m : M, m ∈ res -> m ∈ order.*2.
Proof.
  unfold getClosestN. destruct (_ <? count).
  { intros [= <- <-] m Hm. by apply elem_of_nil in Hm. }
  intros Hrun.
  apply bind_Ok_inv in Hrun as ([[ownerKey keys] kMems] & Hrange & Hrun).
  apply bind_Ok_inv in Hrun as ([idx res0] & Hfind & Hrun).
  apply bind_Ok_inv in Hrun as (res1 & Hloop & Hrun).
  injection Hrun as <- <-.
  assert (Hk : forall key m, kMems !! key = Some m -> m ∈ order.*2).
  { destruct (getPartitionOwner c partID) as [o|].
    - rewrite range_members_spec in Hrange. injection Hrange as _ _ <-.
      intros key m Hm.
      apply (kMems_values (fun n => Sum64 c (bytes n))) in Hm as [Hm|Hm];
        [by rewrite lookup_empty in Hm|done].
    - destruct order as [|e order].
      + cbn in Hrange. injection Hrange as _ _ <-.
        intros key m Hm. by rewrite lookup_empty in Hm.
      + by rewrite range_members_nil_owner in Hrange. }
  intros m Hm.
  apply (closestLoop_values _ _ _ _ _ _ _ Hloop) in Hm as [Hm|[key Hm]].
  - apply (findOwner_values _ _ _ _ _ _ Hfind) in Hm as [key Hm]. eauto.
  - eauto.
Qed.

(** After a [Remove(name)] that returns, in a state reached from [New]:
    the name is no member and the other entries of the member map are
    those of before; no virtual node and no partition belongs to a member
    of that name, so that [LocateKey] never returns one, and neither does
    [getClosestN], whatever it returns; and the load table has no entry
    for the name as long as a member is left. *)
Theorem Remove_leaves_nothing_to_the_name
    (c c' : Consistent M HF) (name : string) :
  reachable c ->
  Remove name c = Ok c' ->
  members c' !! name = None /\
  (forall name' : string,
     name' <> name -> members c' !! name' = members c !! name') /\
  (forall (h : Z) (m : M), ring c' !! h = Some m -> Member_String m <> name) /\
  (forall (p : Z) (m : M),
     partitions c' !! p = Some m -> Member_String m <> name) /\
  (forall (key : list byte) (m : M),
     LocateKey c' key = Ok (Some m) -> Member_String m <> name) /\
  (forall (order : list (string * M)) (partID count : Z) (res : list M)
          (err : option error),
     order ≡ₚ map_to_list (members c') ->
     getClosestN c' order partID count = Ok (res, err) ->
     name ∉ Member_String <$> res) /\
  (members c' <> ∅ -> loads c' !! name = None).
Proof.
  intros Hreach Hrem.
  assert (Hreach' : reachable c')
    by (by eapply (reachable_step (OpRemove name))).
  pose proof (reachable_state_ok c' Hreach') as Hok.
  pose proof (ok_ring c' Hok) as Hring.
  pose proof (Remove_fields name c c' Hrem) as (_ & _ & _ & Em).
  assert (Hgone : members c' !! name = None)
    by (rewrite Em; apply lookup_delete_eq).
  assert (Hmember : forall m : M,
            members c' !! Member_String m = Some m -> Member_String m <> name).
  { intros m Hm E. rewrite E in Hm. congruence. }
  assert (Hpart : forall (p : Z) (m : M),
            partitions c' !! p = Some m -> Member_String m <> name).
  { intros p m Hp. apply Hmember.
    destruct (decide (members c' = ∅)) as [Hempty|Hne].
    - by rewrite (ok_empty c' Hok Hempty), lookup_empty in Hp.
    - pose proof (ok_table c' Hok Hne) as Ht.
      destruct (table_total c' Ht p) as (m' & Hp' & Hm').
      + apply (table_dom c' Ht). eauto.
      + congruence. }
  split; [done|]. split.
  { intros name' Hne. rewrite Em. by apply lookup_delete_ne. }
  split.
  { intros h m Hh. apply Hmember. by apply (ring_member c' Hring h). }
  split; [exact Hpart|]. split.
  { intros key m. unfold LocateKey.
    destruct (FindPartitionID c' key) as [p| |]; cbn; [|done..].
    unfold GetPartitionOwner, getPartitionOwner.
    destruct (partitions c' !! p) as [m'|] eqn:Hp; [|done].
    intros [= <-]. by eapply Hpart. }
  split.
  { intros order partID count res err Hperm Hres Hin.
    apply list_elem_of_fmap in Hin as (m & Hname & Hm).
    apply (getClosestN_values _ _ _ _ _ _ Hres) in Hm.
    apply list_elem_of_fmap in Hm as ([n m'] & -> & Hin).
    rewrite Hperm in Hin. apply elem_of_map_to_list in Hin.
    pose proof (members_name c' Hring n m' Hin) as E. cbn in Hname.
    congruence. }
  intros Hne. pose proof (ok_table c' Hok Hne) as Ht.
  destruct (loads c' !! name) as [v|] eqn:Hv; [|done]. exfalso.
  assert (Hsome : is_Some (loads c' !! name)) by eauto.
  apply (table_ok_load_keys c' name Ht) in Hsome as (p & m & Hp & Hname).
  by apply Hpart in Hp.
Qed.

(** [getClosestN] at the edges, in a state reached from [New] and with a
    hash function that tells the member names apart.  Without members,
    [count <= 0] gives the empty list and no error, and [count >= 1] the
    insufficient-members error.  With members: a partition id outside
    [0, P) has the nil owner, and [owner.String()] panics; and for
    [count <= 0] the result is the owner of the partition alone, one
    member where [count] asks for none. *)
Theorem getClosestN_edge_cases (c : Consistent M HF)
    (order : list (string * M)) (partID count : Z) :
  reachable c ->
  order ≡ₚ map_to_list (members c) ->
  (forall n1 n2 : string,
     is_Some (members c !! n1) -> is_Some (members c !! n2) ->
     Sum64 c (bytes n1) = Sum64 c (bytes n2) -> n1 = n2) ->
  (members c = ∅ -> count <= 0 ->
   getClosestN c order partID count = Ok ([], None)) /\
  (members c = ∅ -> 1 <= count ->
   getClosestN c order partID count = Ok ([], Some ErrInsufficientMemberCount))
  /\
  (members c <> ∅ -> count <= len (members c) ->
   ~ 0 <= partID < partitionCount c ->
   getClosestN c order partID count = Panic panic_nil_deref) /\
  (members c <> ∅ -> count <= 0 -> 0 <= partID < partitionCount c ->
   exists owner : M,
     getPartitionOwner c partID = Some owner /\
     getClosestN c order partID count = Ok ([owner], None)).
Proof.
  intros Hreach Hperm Hinj.
  pose proof (reachable_state_ok c Hreach) as Hok.
  assert (Hlen : length order = size (members c)).
  { rewrite Hperm. apply length_map_to_list. }
  split; [|split; [|split]].
  - intros Hempty Hcount. unfold getClosestN.
    assert (E : len (members c) = 0) by by apply len_zero_iff.
    destruct (Z.ltb_spec (len (members c)) count); [lia|].
    assert (order = []) as ->.
    { apply length_zero_iff_nil. rewrite Hlen, Hempty. apply map_size_empty. }
    cbn. destruct (Z.ltb_spec (Z.of_nat 0) count); [lia|done].
  - intros Hempty Hcount. unfold getClosestN.
    assert (E : len (members c) = 0) by by apply len_zero_iff.
    destruct (Z.ltb_spec (len (members c)) count); [done|lia].
  - intros Hne Hcount Hout. unfold getClosestN.
    destruct (Z.ltb_spec (len (members c)) count); [lia|].
    assert (Hnone : getPartitionOwner c partID = None).
    { unfold getPartitionOwner.
      destruct (partitions c !! partID) as [m|] eqn:Hp; [|done].
      exfalso. apply Hout.
      apply (table_dom c (ok_table c Hok Hne)). eauto. }
    rewrite Hnone, range_members_nil_owner; [done|].
    intros ->. apply Hne. apply map_size_empty_iff.
    cbn in Hlen. lia.
  - intros Hne Hcount HpartID.
    pose proof (ok_table c Hok Hne) as Htable.
    pose proof (ok_ring c Hok) as Hring.
    destruct (table_total c Htable partID HpartID) as (o & Ho & Hom).
    exists o. split; [by unfold getPartitionOwner; rewrite Ho|].
    set (hk := fun n : string => Sum64 c (bytes n)).
    assert (Hentry : forall n m, (n, m) ∈ order <-> members c !! n = Some m).
    { intros n m. rewrite Hperm. apply elem_of_map_to_list. }
    assert (Hnames : forall n, n ∈ order.*1 <-> is_Some (members c !! n)).
    { intros n. rewrite list_elem_of_fmap. split.
      - intros ([n' m] & -> & Hin). apply Hentry in Hin. eauto.
      - intros [m Hm]. exists (n, m). split; [done|]. by apply Hentry. }
    assert (Hnd : NoDup (order.*1)).
    { rewrite Hperm. apply NoDup_fst_map_to_list. }
    assert (Hinj' : forall n1 n2, n1 ∈ order.*1 -> n2 ∈ order.*1 ->
                                  hk n1 = hk n2 -> n1 = n2).
    { intros n1 n2 H1 H2. apply Hinj; by apply Hnames. }
    unfold getClosestN.
    assert (0 <= len (members c)) by apply len_nonneg.
    destruct (Z.ltb_spec (len (members c)) count) as [?|_]; [lia|].
    unfold getPartitionOwner at 1. rewrite Ho.
    rewrite range_members_spec. cbn [mbind result_bind app].
    rewrite decide_True by (apply Hnames; eauto).
    fold hk.
    set (keys := sortSlice (hk <$> order.*1)).
    set (kMems :=
           foldl (fun km e => <[Sum64 c (bytes e.1) := e.2]> km) ∅ order).
    assert (K3 : hk (Member_String o) ∈ keys).
    { unfold keys, sortSlice. rewrite merge_sort_Permutation.
      apply list_elem_of_fmap_2, Hnames. eauto. }
    assert (K4 : kMems !! hk (Member_String o) = Some o).
    { apply (kMems_entry hk); [done|done|]. by apply Hentry. }
    destruct (findOwner_found keys kMems (hk (Member_String o)) 0 o K3 K4)
      as (j & Hfind & Hj).
    change (hk (Member_String o))
      with (Sum64 c (bytes (Member_String o))) in Hfind.
    rewrite Hfind. cbn [mbind result_bind closestLoop length].
    destruct (Z.ltb_spec (Z.of_nat 1) count); [lia|done].
Qed.


(** ** The tables as the result of a pass *)

Lemma with_tables_eq (c c' : Consistent M HF) :
  config c' = config c -> hashFunc c' = hashFunc c ->
  sortedSet c' = sortedSet c -> partitionCount c' = partitionCount c ->
  members c' = members c -> ring c' = ring c ->
  c' = with_tables c (partitions c') (loads c').
Proof.
  destruct c, c'. cbn. intros -> -> -> -> -> ->. reflexivity.
Qed.

Lemma distributeWithLoad_loop_with_tables (fuel : nat) (c : Consistent M HF)
    (pt0 : gmap Z M) (ld0 : gmap string Z) (avgLoad count partID idx : Z)
    (pt : gmap Z M) (ld : gmap string Z) :
  distributeWithLoad_loop fuel (with_tables c pt0 ld0) avgLoad count partID idx
    pt ld
  = distributeWithLoad_loop fuel c avgLoad count partID idx pt ld.
Proof.
  revert count idx. induction fuel as [|fuel IH]; intros count idx; [done|].
  cbn [distributeWithLoad_loop with_tables sortedSet ring].
  destruct (_ <=? count + 1); [done|].
  destruct (index (sortedSet c) idx) as [i|]; [|done].
  destruct (ring c !! i) as [member|]; [|done].
  destruct (_ <=? avgLoad); [done|]. apply IH.
Qed.

Lemma distributeFrom_with_tables (c : Consistent M HF) (pt0 : gmap Z M)
    (ld0 : gmap string Z) (ids : list Z) (pt : gmap Z M) (ld : gmap string Z) :
  distributeFrom (with_tables c pt0 ld0) ids pt ld = distributeFrom c ids pt ld.
Proof.
  revert pt ld. induction ids as [|p ids IH]; intros pt ld; [done|].
  rewrite !distributeFrom_cons.
  assert (E : distributeWithLoad (with_tables c pt0 ld0) (int p)
                (searchIdx (with_tables c pt0 ld0) p) pt ld
              = distributeWithLoad c (int p) (searchIdx c p) pt ld).
  { unfold distributeWithLoad.
    change (sortedSet (with_tables c pt0 ld0)) with (sortedSet c).
    change (averageLoad (with_tables c pt0 ld0)) with (averageLoad c).
    change (searchIdx (with_tables c pt0 ld0) p) with (searchIdx c p).
    apply distributeWithLoad_loop_with_tables. }
  rewrite E. destruct (distributeWithLoad c _ _ pt ld) as [[pt' ld']| |];
    cbn; [apply IH|done..].
Qed.

(** A pass does not read the tables it replaces. *)
Lemma distributePartitions_with_tables (c : Consistent M HF) (pt0 : gmap Z M)
    (ld0 : gmap string Z) :
  distributePartitions (with_tables c pt0 ld0) = distributePartitions c.
Proof.
  unfold distributePartitions.
  change (partitionCount (with_tables c pt0 ld0)) with (partitionCount c).
  rewrite distributeFrom_with_tables.
  destruct (distributeFrom c _ ∅ ∅) as [[pt ld]| |]; done.
Qed.

Lemma distributePartitions_ext (c c' : Consistent M HF) :
  config c' = config c -> hashFunc c' = hashFunc c ->
  sortedSet c' = sortedSet c -> partitionCount c' = partitionCount c ->
  members c' = members c -> ring c' = ring c ->
  distributePartitions c' = distributePartitions c.
Proof.
  intros E1 E2 E3 E4 E5 E6.
  rewrite (with_tables_eq c c' E1 E2 E3 E4 E5 E6).
  apply distributePartitions_with_tables.
Qed.

Lemma distributePartitions_idem (c c' : Consistent M HF) :
  distributePartitions c = Ok c' -> distributePartitions c' = Ok c'.
Proof.
  intros Hrun.
  pose proof (distributePartitions_fields c c' Hrun)
    as (E1 & E2 & E3 & E4 & E5 & E6).
  by rewrite (distributePartitions_ext c c').
Qed.


Lemma apply_op_settled (o : op M) (c c' : Consistent M HF) :
  settled c -> apply_op o c = Ok c' -> settled c'.
Proof.
  intros Hc. destruct o as [member|name]; cbn [apply_op].
  - unfold Add. destruct (members c !! Member_String member).
    + by intros [= <-].
    + intros Hrun _. by eapply distributePartitions_idem.
  - unfold Remove. destruct (members c !! name); [|by intros [= <-]].
    destruct (Z.eqb_spec (len (members (removeNodes name c))) 0) as [E|NE].
    + intros [= <-] Hne. exfalso. apply Hne. cbn [members].
      by apply len_zero_iff.
    + intros Hrun _. by eapply distributePartitions_idem.
Qed.

Lemma New_settled (ms : option (list M)) (cfg : Config HF)
    (c : Consistent M HF) :
  New ms cfg = Ok c -> settled c.
Proof.
  unfold New. destruct (HashFunc cfg) as [hf|]; [|done].
  destruct ms as [ms|].
  - intros Hrun _. by eapply distributePartitions_idem.
  - intros [= <-] Hne. by destruct Hne.
Qed.

Lemma run_settled (ops : list (op M)) (c c' : Consistent M HF) :
  settled c -> run ops c = Ok c' -> settled c'.
Proof.
  revert c. induction ops as [|o ops IH]; intros c Hc; cbn [run].
  - by intros [= <-].
  - intros Hrun. apply bind_Ok_inv in Hrun as (c1 & Hop & Hrest).
    apply (IH c1); [|done]. by eapply apply_op_settled.
Qed.

Lemma reachable_settled (c : Consistent M HF) : reachable c -> settled c.
Proof.
  intros (ms & cfg & ops & c0 & _ & Hnew & Hrun).
  eapply run_settled; [|done]. by eapply New_settled.
Qed.

(** In a state with members reached from [New], the two tables are the
    ones that a pass of [distributePartitions] over the state computes:
    the pass returns the state unchanged.  Hence two such states with the
    same configuration, hash function, [sortedSet], ring map and members
    have the same tables. *)
Theorem tables_are_those_of_a_fresh_pass (c : Consistent M HF) :
  reachable c ->
  members c <> ∅ ->
  distributePartitions c = Ok c /\
  forall c' : Consistent M HF,
    reachable c' ->
    config c' = config c -> hashFunc c' = hashFunc c ->
    partitionCount c' = partitionCount c ->
    sortedSet c' = sortedSet c -> ring c' = ring c ->
    members c' = members c ->
    c' = c.
Proof.
  intros Hreach Hne.
  pose proof (reachable_settled c Hreach Hne) as Hc.
  split; [done|].
  intros c' Hreach' E1 E2 E3 E4 E5 E6.
  assert (Hc' : distributePartitions c' = Ok c').
  { apply (reachable_settled c' Hreach'). by rewrite E6. }
  rewrite (distributePartitions_ext c c') in Hc' by done.
  congruence.
Qed.


(** ** The ring as a function of the members *)

Lemma vnodes_ext (c c' : Consistent M HF) (name : string) :
  config c' = config c -> hashFunc c' = hashFunc c ->
  vnodes c' name = vnodes c name.
Proof. intros Ec Eh. unfold vnodes, vnode, Sum64. by rewrite Ec, Eh. Qed.

Lemma delSlice_Permutation (val : Z) (l : list Z) :
  val ∈ l -> l ≡ₚ val :: delSlice val l.
Proof.
  induction l as [|x l IH]; cbn [delSlice]; [by intros ?%elem_of_nil|].
  destruct (Z.eqb_spec x val) as [->|Hne]; [done|].
  intros [?|Hin]%elem_of_cons; [congruence|].
  rewrite (IH Hin) at 1. apply Permutation_swap.
Qed.

Lemma delSlices_Permutation (hs l rest : list Z) :
  l ≡ₚ hs ++ rest -> foldl (fun l h => delSlice h l) l hs ≡ₚ rest.
Proof.
  revert l. induction hs as [|h hs IH]; intros l Hl; cbn [foldl]; [done|].
  apply IH. cbn in Hl.
  assert (Hin : h ∈ l) by (rewrite Hl; left).
  rewrite (delSlice_Permutation h l Hin) in Hl.
  by apply Permutation.Permutation_cons_inv in Hl.
Qed.


Lemma nodes_exact_ext (c c' : Consistent M HF) :
  config c' = config c -> hashFunc c' = hashFunc c ->
  sortedSet c' = sortedSet c -> members c' = members c ->
  nodes_exact c -> nodes_exact c'.
Proof.
  unfold nodes_exact. intros Ec Eh -> -> Hc. rewrite Hc.
  erewrite list_bind_ext; [done| |done].
  intros name. symmetry. by apply vnodes_ext.
Qed.

Lemma add_nodes_exact (member : M) (c : Consistent M HF) :
  members c !! Member_String member = None ->
  nodes_exact c -> nodes_exact (add member c).
Proof.
  unfold nodes_exact. intros Hfresh Hc.
  destruct (add_fields member c) as (Ec & Eh & _ & _ & _ & -> & -> & _).
  unfold sortSlice. rewrite merge_sort_Permutation.
  rewrite map_to_list_insert by done. cbn [fmap list_fmap fst].
  rewrite bind_cons, Hc, (vnodes_ext c (add member c)) by done.
  rewrite (list_bind_ext (vnodes (add member c)) (vnodes c)
             _ ((map_to_list (members c)).*1));
    [|intros name; by apply vnodes_ext|done].
  apply Permutation_app_comm.
Qed.

Lemma removeNodes_nodes_exact (name : string) (m : M) (c : Consistent M HF) :
  members c !! name = Some m ->
  nodes_exact c -> nodes_exact (removeNodes name c).
Proof.
  unfold nodes_exact. intros Hm Hc.
  destruct (removeNodes_fields name c) as (Ec & Eh & _ & _ & _ & -> & -> & _).
  rewrite (list_bind_ext (vnodes (removeNodes name c)) (vnodes c)
             _ ((map_to_list (delete name (members c))).*1));
    [|intros name'; by apply vnodes_ext|done].
  apply delSlices_Permutation. fold (vnodes c name).
  rewrite Hc. rewrite <- (map_to_list_delete (members c) name m Hm).
  cbn [fmap list_fmap fst]. by rewrite bind_cons.
Qed.

Lemma apply_op_nodes_exact (o : op M) (c c' : Consistent M HF) :
  nodes_exact c -> apply_op o c = Ok c' -> nodes_exact c'.
Proof.
  intros Hc. destruct o as [member|name]; cbn [apply_op].
  - unfold Add. destruct (members c !! Member_String member) eqn:Hm.
    + by intros [= <-].
    + intros Hrun.
      apply distributePartitions_fields in Hrun as (E1 & E2 & E3 & _ & E5 & _).
      apply (nodes_exact_ext (add member c)); [done..|].
      by apply add_nodes_exact.
  - unfold Remove. destruct (members c !! name) as [m|] eqn:Hm;
      [|by intros [= <-]].
    pose proof (removeNodes_nodes_exact name m c Hm Hc) as Hc1.
    destruct (len _ =? 0).
    + intros [= <-]. by apply (nodes_exact_ext (removeNodes name c)).
    + intros Hrun.
      apply distributePartitions_fields in Hrun as (E1 & E2 & E3 & _ & E5 & _).
      by apply (nodes_exact_ext (removeNodes name c)).
Qed.

Lemma run_nodes_exact (ops : list (op M)) (c c' : Consistent M HF) :
  nodes_exact c -> run ops c = Ok c' -> nodes_exact c'.
Proof.
  revert c. induction ops as [|o ops IH]; intros c Hc; cbn [run].
  - by intros [= <-].
  - intros Hrun. apply bind_Ok_inv in Hrun as (c1 & Hop & Hrest).
    apply (IH c1); [|done]. by eapply apply_op_nodes_exact.
Qed.

Lemma adds_nodes_exact (ms : list M) (c : Consistent M HF) :
  NoDup (Member_String <$> ms) ->
  (forall m, m ∈ ms -> members c !! Member_String m = None) ->
  nodes_exact c ->
  nodes_exact (foldl (fun c member => add member c) c ms).
Proof.
  revert c. induction ms as [|m ms IH]; intros c Hnd Hfresh Hc; cbn [foldl];
    [done|].
  cbn [fmap list_fmap] in Hnd. apply NoDup_cons in Hnd as [Hm Hnd].
  apply IH; [done| |].
  - intros m' Hm'.
    destruct (add_fields m c) as (_ & _ & _ & _ & _ & -> & _).
    rewrite lookup_insert_ne; [apply Hfresh; by right|].
    intros E. apply Hm. rewrite E. by apply list_elem_of_fmap_2.
  - apply add_nodes_exact; [|done]. apply Hfresh. left.
Qed.

Lemma New_nodes_exact (ms : option (list M)) (cfg : Config HF)
    (c : Consistent M HF) :
  NoDup (Member_String <$> default [] ms) ->
  New ms cfg = Ok c -> nodes_exact c.
Proof.
  intros Hnd Hnew.
  apply New_Ok_inv in Hnew as (hf & _ & Ec & Eh & Es & Em).
  set (c0 := newConsistent hf (withDefaults cfg)) in *.
  destruct (adds_fields (default [] ms) c0) as [Ec' Eh'].
  apply (nodes_exact_ext (foldl (fun c member => add member c) c0
                            (default [] ms))).
  - by rewrite Ec, Ec'.
  - by rewrite Eh, Eh'.
  - done.
  - done.
  - apply adds_nodes_exact; [done| |].
    + intros m _. apply lookup_empty.
    + unfold nodes_exact. cbn. by rewrite map_to_list_empty.
Qed.

Lemma length_bind_vnodes (c : Consistent M HF) (names : list string) :
  length (names ≫= vnodes c)
  = (Z.to_nat (ReplicationFactor (config c)) * length names)%nat.
Proof.
  induction names as [|n names IH]; [cbn; lia|].
  rewrite bind_cons, length_app, IH. unfold vnodes.
  rewrite length_fmap, length_seqZ. cbn [length]. lia.
Qed.

(** When the list given to [New] has no name twice, [sortedSet] is, in
    every state that follows, a rearrangement of the virtual nodes of the
    current members, [R] for each: [len(sortedSet)] is [R] times the
    number of members ([R] counting as 0 when negative). *)
Theorem sortedSet_is_the_members_virtual_nodes
    (ms : option (list M)) (cfg : Config HF) (ops : list (op M))
    (c0 c : Consistent M HF) :
  NoDup (Member_String <$> default [] ms) ->
  New ms cfg = Ok c0 ->
  run ops c0 = Ok c ->
  sortedSet c ≡ₚ (map_to_list (members c)).*1 ≫= vnodes c /\
  Z.of_nat (length (sortedSet c))
  = Z.max 0 (ReplicationFactor (config c)) * len (members c).
Proof.
  intros Hnd Hnew Hrun.
  assert (Hc : nodes_exact c).
  { eapply run_nodes_exact; [|done]. by eapply New_nodes_exact. }
  split; [exact Hc|]. unfold nodes_exact in Hc.
  rewrite (Permutation_length Hc), length_bind_vnodes, length_fmap,
    length_map_to_list.
  unfold len. lia.
Qed.

(** No two virtual nodes of the names of [U] have the same hash. *)
Lemma vnodes_NoDup_inj (c : Consistent M HF) (U : list string)
    (n1 n2 : string) (h : Z) :
  NoDup (U ≫= vnodes c) ->
  n1 ∈ U -> n2 ∈ U -> h ∈ vnodes c n1 -> h ∈ vnodes c n2 -> n1 = n2.
Proof.
  induction U as [|n U IH]; [by intros _ ?%elem_of_nil|].
  rewrite bind_cons. intros (Hn & Hdisj & HU)%NoDup_app.
  intros [->|H1]%elem_of_cons [->|H2]%elem_of_cons Hh1 Hh2.
  - done.
  - exfalso. apply (Hdisj h Hh1). apply list_elem_of_bind. eauto.
  - exfalso. apply (Hdisj h Hh2). apply list_elem_of_bind. eauto.
  - by apply IH.
Qed.


Lemma ring_exact_ext (U : list string) (c c' : Consistent M HF) :
  config c' = config c -> hashFunc c' = hashFunc c ->
  ring c' = ring c -> members c' = members c ->
  ring_exact U c -> ring_exact U c'.
Proof.
  intros Ec Eh Er Em [HU Hfull]. split.
  - intros name. rewrite Em. apply HU.
  - intros name m h. rewrite Em, Er, (vnodes_ext c c') by done. apply Hfull.
Qed.

Lemma add_ring_exact (U : list string) (member : M) (c : Consistent M HF) :
  NoDup (U ≫= vnodes c) ->
  Member_String member ∈ U ->
  ring_exact U c -> ring_exact U (add member c).
Proof.
  intros Hinj Hin [HU Hfull].
  destruct (add_fields member c) as (Ec & Eh & _ & _ & _ & Em & _ & Er).
  split.
  - intros name. rewrite Em. intros [m Hm].
    apply lookup_insert_Some in Hm as [[<- _]|[_ Hm]]; [done|]. eauto.
  - intros name m h. rewrite Em, Er, (vnodes_ext c (add member c)) by done.
    fold (vnodes c (Member_String member)).
    intros Hm Hh. apply lookup_insert_Some in Hm as [[<- <-]|[Hne Hm]].
    + by rewrite decide_True.
    + rewrite decide_False; [by eapply Hfull|].
      intros Hh'. apply Hne.
      eapply (vnodes_NoDup_inj c U); eauto.
Qed.

Lemma removeNodes_ring_exact (U : list string) (name : string)
    (c : Consistent M HF) :
  NoDup (U ≫= vnodes c) ->
  is_Some (members c !! name) ->
  ring_exact U c -> ring_exact U (removeNodes name c).
Proof.
  intros Hinj Hin [HU Hfull].
  destruct (removeNodes_fields name c) as (Ec & Eh & _ & _ & _ & Em & _ & Er).
  split.
  - intros name'. rewrite Em. intros [m Hm].
    apply lookup_delete_Some in Hm as [_ Hm]. eauto.
  - intros name' m h.
    rewrite Em, Er, (vnodes_ext c (removeNodes name c)) by done.
    fold (vnodes c name).
    intros Hm Hh. apply lookup_delete_Some in Hm as [Hne Hm].
    rewrite decide_False; [by eapply Hfull|].
    intros Hh'. apply Hne.
    eapply (vnodes_NoDup_inj c U); eauto.
Qed.

Lemma vnodes_NoDup_ext (U : list string) (c c' : Consistent M HF) :
  config c' = config c -> hashFunc c' = hashFunc c ->
  NoDup (U ≫= vnodes c) -> NoDup (U ≫= vnodes c').
Proof.
  intros Ec Eh Hc.
  rewrite (list_bind_ext (vnodes c') (vnodes c) U U); [done| |done].
  intros name. by apply vnodes_ext.
Qed.

Lemma apply_op_ring_exact (U : list string) (o : op M)
    (c c' : Consistent M HF) :
  NoDup (U ≫= vnodes c) ->
  match o with
  | OpAdd member => Member_String member ∈ U
  | OpRemove _ => True
  end ->
  ring_exact U c -> apply_op o c = Ok c' -> ring_exact U c'.
Proof.
  intros Hinj Ho Hc. destruct o as [member|name]; cbn [apply_op].
  - unfold Add. destruct (members c !! Member_String member) eqn:Hm.
    + by intros [= <-].
    + intros Hrun.
      apply distributePartitions_fields in Hrun as (E1 & E2 & _ & _ & E5 & E6).
      apply (ring_exact_ext U (add member c)); [done..|].
      by apply add_ring_exact.
  - unfold Remove. destruct (members c !! name) as [m|] eqn:Hm;
      [|by intros [= <-]].
    assert (Hc1 : ring_exact U (removeNodes name c))
      by (apply removeNodes_ring_exact; eauto).
    destruct (len _ =? 0).
    + intros [= <-]. by apply (ring_exact_ext U (removeNodes name c)).
    + intros Hrun.
      apply distributePartitions_fields in Hrun as (E1 & E2 & _ & _ & E5 & E6).
      by apply (ring_exact_ext U (removeNodes name c)).
Qed.

Lemma run_ring_exact (U : list string) (ops : list (op M))
    (c c' : Consistent M HF) :
  NoDup (U ≫= vnodes c) ->
  history_names (Some []) ops ⊆ U ->
  ring_exact U c -> run ops c = Ok c' -> ring_exact U c'.
Proof.
  revert c. induction ops as [|o ops IH]; intros c Hinj HU Hc; cbn [run].
  - by intros [= <-].
  - intros Hrun. apply bind_Ok_inv in Hrun as (c1 & Hop & Hrest).
    assert (Hf : config c1 = config c /\ hashFunc c1 = hashFunc c).
    { destruct o; cbn [apply_op] in Hop.
      - by apply Add_fields in Hop as (-> & -> & _).
      - by apply Remove_fields in Hop as (-> & -> & _). }
    destruct Hf as [Ec Eh].
    apply (IH c1).
    + by apply (vnodes_NoDup_ext U c c1).
    + intros n Hn. apply HU. unfold history_names in *. cbn in *.
      destruct o; [by right|exact Hn].
    + eapply (apply_op_ring_exact U o c c1); [done| |done|done].
      destruct o as [member|]; [|done]. apply HU.
      unfold history_names. cbn. left.
    + exact Hrest.
Qed.

Lemma adds_ring_exact (U : list string) (ms : list M) (c : Consistent M HF) :
  NoDup (U ≫= vnodes c) ->
  Member_String <$> ms ⊆ U ->
  ring_exact U c ->
  ring_exact U (foldl (fun c member => add member c) c ms).
Proof.
  revert c. induction ms as [|m ms IH]; intros c Hinj HU Hc; cbn [foldl];
    [done|].
  destruct (add_fields m c) as (Ec & Eh & _).
  apply IH.
  - by apply (vnodes_NoDup_ext U c (add m c)).
  - intros n Hn. apply HU. cbn. by right.
  - apply add_ring_exact; [done| |done]. apply HU. cbn. left.
Qed.

Lemma history_ring_exact (U : list string) (ms : option (list M))
    (cfg : Config HF) (ops : list (op M)) (c0 c : Consistent M HF) :
  NoDup (U ≫= vnodes c) ->
  history_names ms ops ⊆ U ->
  New ms cfg = Ok c0 -> run ops c0 = Ok c ->
  ring_exact U c.
Proof.
  intros Hinj HU Hnew Hrun.
  pose proof (run_fields ops c0 c Hrun) as (Ec & Eh & _).
  assert (Hinj0 : NoDup (U ≫= vnodes c0))
    by (apply (vnodes_NoDup_ext U c c0); done).
  apply (run_ring_exact U ops c0 c); [done| | |done].
  - intros n Hn. apply HU. unfold history_names in *. cbn in Hn.
    apply elem_of_app. by right.
  - pose proof Hnew as Hinv.
    apply New_Ok_inv in Hinv as (hf & Hhf & Ec0 & Eh0 & _ & Em0).
    set (c00 := newConsistent hf (withDefaults cfg)) in *.
    destruct (adds_fields (default [] ms) c00) as [Ec' Eh'].
    assert (Hinj00 : NoDup (U ≫= vnodes c00)).
    { apply (vnodes_NoDup_ext U c0 c00); [by rewrite Ec0|by rewrite Eh0|done]. }
    assert (Hc00 : ring_exact U c00).
    { split.
      - intros name [m Hm]. cbn in Hm. by rewrite lookup_empty in Hm.
      - intros name m h Hm. cbn in Hm. by rewrite lookup_empty in Hm. }
    pose proof (adds_ring_exact U (default [] ms) c00 Hinj00) as Hadds.
    assert (Hsub : Member_String <$> default [] ms ⊆ U).
    { intros n Hn. apply HU. unfold history_names. apply elem_of_app.
      by left. }
    specialize (Hadds Hsub Hc00).
    unfold New in Hnew. rewrite Hhf in Hnew.
    fold c00 in Hnew.
    destruct ms as [ms|].
    + apply distributePartitions_fields in Hnew
        as (E1 & E2 & _ & _ & E5 & E6).
      by eapply ring_exact_ext.
    + by injection Hnew as <-.
Qed.

Lemma New_partitionCount (ms : option (list M)) (cfg : Config HF)
    (c : Consistent M HF) :
  New ms cfg = Ok c ->
  partitionCount c = uint64 (PartitionCount (withDefaults cfg)).
Proof.
  unfold New. destruct (HashFunc cfg) as [hf|]; [|done].
  pose proof (adds_partitionCount (default [] ms)
                (newConsistent hf (withDefaults cfg))) as EP0.
  cbn [newConsistent partitionCount] in EP0.
  destruct ms as [ms|].
  - intros Hrun.
    by apply distributePartitions_fields in Hrun as (_ & _ & _ & -> & _).
  - by intros [= <-].
Qed.

(** The state depends only on the members, not on the history: when no
    two virtual nodes of the names of [U] have the same hash, two
    sequences of calls over names of [U], started from the same
    configuration with lists without repeated names, that end with the
    same non-empty member map end in the same state: same [sortedSet],
    ring map, partition table and load table. *)
Theorem state_depends_only_on_the_members
    (U : list string) (cfg : Config HF) (ms1 ms2 : option (list M))
    (ops1 ops2 : list (op M)) (c01 c02 c1 c2 : Consistent M HF) :
  0 <= PartitionCount cfg < 2 ^ 63 ->
  NoDup (Member_String <$> default [] ms1) ->
  NoDup (Member_String <$> default [] ms2) ->
  history_names ms1 ops1 ⊆ U ->
  history_names ms2 ops2 ⊆ U ->
  NoDup (U ≫= vnodes c1) ->
  New ms1 cfg = Ok c01 -> run ops1 c01 = Ok c1 ->
  New ms2 cfg = Ok c02 -> run ops2 c02 = Ok c2 ->
  members c1 = members c2 ->
  members c1 <> ∅ ->
  c1 = c2.
Proof.
  intros Hrange Hnd1 Hnd2 HU1 HU2 Hinj Hnew1 Hrun1 Hnew2 Hrun2 Em Hne.
  assert (Hreach1 : reachable c1) by (exists ms1, cfg, ops1, c01; done).
  assert (Hreach2 : reachable c2) by (exists ms2, cfg, ops2, c02; done).
  pose proof (run_fields ops1 c01 c1 Hrun1) as (Ec1 & Eh1 & EP1).
  pose proof (run_fields ops2 c02 c2 Hrun2) as (Ec2 & Eh2 & EP2).
  pose proof (New_partitionCount ms1 cfg c01 Hnew1) as EP01.
  pose proof (New_partitionCount ms2 cfg c02 Hnew2) as EP02.
  pose proof Hnew1 as Hinv1. pose proof Hnew2 as Hinv2.
  apply New_Ok_inv in Hinv1 as (hf1 & Hhf1 & Ec01 & Eh01 & _).
  apply New_Ok_inv in Hinv2 as (hf2 & Hhf2 & Ec02 & Eh02 & _).
  assert (Ec : config c2 = config c1) by congruence.
  assert (Eh : hashFunc c2 = hashFunc c1) by congruence.
  assert (EP : partitionCount c2 = partitionCount c1) by congruence.
  assert (Hinj2 : NoDup (U ≫= vnodes c2))
    by (by apply (vnodes_NoDup_ext U c1 c2)).
  pose proof (history_ring_exact U ms1 cfg ops1 c01 c1 Hinj HU1 Hnew1 Hrun1)
    as [_ Hfull1].
  pose proof (history_ring_exact U ms2 cfg ops2 c02 c2 Hinj2 HU2 Hnew2 Hrun2)
    as [_ Hfull2].
  pose proof (ok_ring c1 (reachable_state_ok c1 Hreach1)) as Hring1.
  pose proof (ok_ring c2 (reachable_state_ok c2 Hreach2)) as Hring2.
  assert (Hex1 : nodes_exact c1).
  { apply (run_nodes_exact ops1 c01); [|done].
    by apply (New_nodes_exact ms1 cfg). }
  assert (Hex2 : nodes_exact c2).
  { apply (run_nodes_exact ops2 c02); [|done].
    by apply (New_nodes_exact ms2 cfg). }
  assert (Es : sortedSet c2 = sortedSet c1).
  { apply (StronglySorted_unique Z.le).
    - apply (reachable_nodes_ok c2 Hreach2).
    - apply (reachable_nodes_ok c1 Hreach1).
    - unfold nodes_exact in Hex1, Hex2. rewrite Hex1, Hex2, Em.
      rewrite (list_bind_ext (vnodes c2) (vnodes c1)
                 _ ((map_to_list (members c2)).*1));
        [done|intros name; by apply vnodes_ext|done]. }
  assert (Hvn : forall (ca cb : Consistent M HF) (h : Z) (m : M),
            ring_ok ca -> config cb = config ca -> hashFunc cb = hashFunc ca ->
            members cb = members ca ->
            (forall name m h, members cb !! name = Some m ->
                              h ∈ vnodes cb name -> ring cb !! h = Some m) ->
            ring ca !! h = Some m -> ring cb !! h = Some m).
  { intros ca cb h m Hra Eca Eha Ema Hfull Hh.
    pose proof (ring_member ca Hra h m Hh) as Hm.
    destruct (ring_vnode ca Hra h m Hh) as (i & Hi & ->).
    apply (Hfull (Member_String m)); [by rewrite Ema|].
    rewrite (vnodes_ext ca cb) by done.
    by apply vnode_elem_of_replicas. }
  assert (Er : ring c2 = ring c1).
  { apply map_eq. intros h.
    destruct (ring c1 !! h) as [m|] eqn:H1.
    - by apply (Hvn c1 c2).
    - destruct (ring c2 !! h) as [m|] eqn:H2; [|done].
      apply (Hvn c2 c1) in H2; [congruence|done..]. }
  pose proof (reachable_settled c1 Hreach1 Hne) as Hs1.
  assert (Hs2 : distributePartitions c2 = Ok c2).
  { apply (reachable_settled c2 Hreach2). by rewrite <- Em. }
  rewrite (distributePartitions_ext c1 c2) in Hs2 by done.
  congruence.
Qed.

(** [Add] of a new member and then [Remove] of its name lead back to
    the state of before, every field of it, when that state has members
    and no virtual node of the new member has a hash that the ring map
    holds. *)
Theorem Add_then_Remove_restores (c c1 : Consistent M HF) (member : M) :
  reachable c ->
  members c <> ∅ ->
  members c !! Member_String member = None ->
  (forall h : Z, h ∈ vnodes c (Member_String member) -> ring c !! h = None) ->
  Add member c = Ok c1 ->
  Remove (Member_String member) c1 = Ok c.
Proof.
  intros Hreach Hne Hfresh Hfree Hadd.
  set (name := Member_String member) in *.
  unfold Add in Hadd. fold name in Hadd. rewrite Hfresh in Hadd.
  pose proof (distributePartitions_fields _ _ Hadd)
    as (E1 & E2 & E3 & E4 & E5 & E6).
  destruct (add_fields member c)
    as (A1 & A2 & A3 & _ & _ & A5 & A6 & A7).
  fold name in A5, A6, A7. fold (vnodes c name) in A6, A7.
  destruct (removeNodes_fields name c1)
    as (R1 & R2 & R3 & _ & _ & R5 & R6 & R7).
  assert (Ev : vnodes c1 name = vnodes c name).
  { apply vnodes_ext; congruence. }
  fold (vnodes c1 name) in R6, R7. rewrite Ev in R6, R7.
  assert (Em : members (removeNodes name c1) = members c).
  { rewrite R5, E5, A5. by apply delete_insert_id. }
  assert (Es : sortedSet (removeNodes name c1) = sortedSet c).
  { apply (StronglySorted_unique Z.le).
    - rewrite R6. apply delSlices_sorted. rewrite E3, A6.
      apply StronglySorted_merge_sort; apply _.
    - apply (reachable_nodes_ok c Hreach).
    - rewrite R6. apply delSlices_Permutation.
      rewrite E3, A6. unfold sortSlice. rewrite merge_sort_Permutation.
      apply Permutation_app_comm. }
  assert (Er : ring (removeNodes name c1) = ring c).
  { apply map_eq. intros h. rewrite R7, E6, A7.
    destruct (decide (h ∈ vnodes c name)) as [Hin|Hin]; [|done].
    symmetry. by apply Hfree. }
  unfold Remove.
  assert (Hin : members c1 !! name = Some member).
  { rewrite E5, A5. apply lookup_insert_eq. }
  rewrite Hin.
  destruct (Z.eqb_spec (len (members (removeNodes name c1))) 0) as [E|_].
  { exfalso. apply Hne. rewrite <- Em. by apply len_zero_iff. }
  rewrite (distributePartitions_ext c (removeNodes name c1));
    [by apply reachable_settled|congruence..|done|done].
Qed.


(** ** Capacity *)

Lemma totalLoad_le (ld : gmap string Z) (B : Z) :
  (forall (name : string) (v : Z), ld !! name = Some v -> v <= B) ->
  totalLoad ld <= Z.of_nat (size ld) * B.
Proof.
  induction ld as [|name v ld Hfresh IH] using map_ind; intros Hall.
  - rewrite totalLoad_empty, map_size_empty. lia.
  - rewrite totalLoad_insert, map_size_insert_None by done.
    unfold load_of. rewrite Hfresh. cbn [default].
    assert (v <= B) by (apply (Hall name); apply lookup_insert_eq).
    assert (totalLoad ld <= Z.of_nat (size ld) * B).
    { apply IH. intros name' v' Hv'. apply (Hall name').
      rewrite lookup_insert_ne; [done|]. intros <-. congruence. }
    lia.
Qed.

(** In a state with members reached from [New], [AverageLoad()] is at
    least 1 and the members' capacity covers the partitions:
    [P <= len(members) * AverageLoad()].  So an [Add] of a new member
    returns only if [P <= (len(members) + 1) * AverageLoad()] holds
    afterwards; since [averageLoad] rounds [P / len(members)] down before
    it multiplies, a load factor of 1 fails this whenever [P] is no
    multiple of the number of members. *)
Theorem capacity_covers_partitions (c : Consistent M HF) :
  reachable c ->
  members c <> ∅ ->
  1 <= AverageLoad c /\
  partitionCount c <= len (members c) * AverageLoad c /\
  forall (member : M) (c' : Consistent M HF),
    members c !! Member_String member = None ->
    Add member c = Ok c' ->
    partitionCount c <= (len (members c) + 1) * AverageLoad c'.
Proof.
  assert (Hcap : forall c0 : Consistent M HF,
            reachable c0 -> members c0 <> ∅ ->
            1 <= AverageLoad c0 /\
            partitionCount c0 <= len (members c0) * AverageLoad c0).
  { intros c0 Hreach Hne.
    pose proof (reachable_state_ok c0 Hreach) as Hok.
    pose proof (ok_table c0 Hok Hne) as Ht.
    pose proof (ok_count c0 Hok) as HP.
    destruct (table_total c0 Ht 0) as (m & Hp & Hm); [lia|].
    assert (Hkey : is_Some (loads c0 !! Member_String m)).
    { apply (table_ok_load_keys c0 _ Ht). eauto. }
    destruct Hkey as [v Hv].
    pose proof (table_load_keys c0 Ht _ _ Hv) as Hv1.
    unfold AverageLoad. split; [lia|].
    rewrite <- (table_sum c0 Ht).
    etransitivity.
    { apply (totalLoad_le _ (averageLoad c0)).
      intros name w Hw. by apply (table_load_keys c0 Ht) in Hw as [_ ?]. }
    apply Z.mul_le_mono_nonneg_r; [lia|]. unfold len.
    apply inj_le. rewrite <- !size_dom. apply subseteq_size.
    intros name Hname. apply elem_of_dom in Hname. apply elem_of_dom.
    apply (table_ok_load_keys c0 _ Ht) in Hname as (p & m' & Hp' & <-).
    destruct (table_total c0 Ht p) as (m'' & Hp'' & Hm'').
    { apply (table_dom c0 Ht). eauto. }
    rewrite Hp' in Hp''. injection Hp'' as <-. eauto. }
  intros Hreach Hne. destruct (Hcap c Hreach Hne) as [Havg Hle].
  split; [done|]. split; [done|].
  intros member c' Hfresh Hadd.
  assert (Hreach' : reachable c')
    by (by eapply (reachable_step (OpAdd member))).
  apply Add_fields in Hadd as (_ & _ & EP & Em). rewrite Hfresh in Em.
  assert (Hne' : members c' <> ∅) by (rewrite Em; apply insert_non_empty).
  destruct (Hcap c' Hreach' Hne') as [_ Hle'].
  rewrite EP in Hle'. unfold len in *. rewrite Em in Hle'.
  rewrite map_size_insert_None in Hle' by done. lia.
Qed.


(** ** Virtual nodes with the same key *)

Lemma Sprintf_sd_shared_key (name : string) :
  Sprintf_sd (name ++ "1") 0 = Sprintf_sd name 10.
Proof.
  unfold Sprintf_sd.
  change (NilZero.string_of_int (Z.to_int 0)) with "0"%string.
  change (NilZero.string_of_int (Z.to_int 10)) with "10"%string.
  induction name as [|a name IH]; [done|].
  change (String a ((name ++ "1") ++ "0") = String a (name ++ "10")).
  by rewrite IH.
Qed.

Lemma append_1_ne (name : string) : (name ++ "1")%string <> name.
Proof.
  induction name as [|a name IH]; [done|].
  change (String a (name ++ "1") <> String a name).
  intros [= E]. by apply IH.
Qed.

(** The key of a virtual node is the member's name followed by the
    decimal index of the replica, so replica 0 of [name ++ "1"] and
    replica 10 of [name] have the same key, whatever the hash function.
    With more than 10 replicas, a state that has both members (the list
    given to [New] having no name twice) has that hash twice in
    [sortedSet], for one entry of the ring map. *)
Theorem virtual_node_keys_coincide
    (ms : option (list M)) (cfg : Config HF) (ops : list (op M))
    (c0 c : Consistent M HF) (name : string) :
  NoDup (Member_String <$> default [] ms) ->
  New ms cfg = Ok c0 ->
  run ops c0 = Ok c ->
  is_Some (members c !! name) ->
  is_Some (members c !! (name ++ "1")%string) ->
  10 < ReplicationFactor (config c) ->
  Sprintf_sd (name ++ "1") 0 = Sprintf_sd name 10 /\
  vnode c (name ++ "1") 0 = vnode c name 10 /\
  ~ NoDup (sortedSet c).
Proof.
  intros Hnd Hnew Hrun [m Hm] [m1 Hm1] HR.
  assert (Ev : vnode c (name ++ "1") 0 = vnode c name 10).
  { unfold vnode. by rewrite Sprintf_sd_shared_key. }
  split; [apply Sprintf_sd_shared_key|]. split; [done|].
  assert (Hc : nodes_exact c).
  { eapply run_nodes_exact; [|done]. by eapply New_nodes_exact. }
  unfold nodes_exact in Hc. rewrite Hc. intros Hnodup.
  apply (append_1_ne name).
  apply (vnodes_NoDup_inj c _ _ _ (vnode c name 10) Hnodup).
  - apply list_elem_of_fmap. exists (name ++ "1", m1)%string.
    split; [done|]. by apply elem_of_map_to_list.
  - apply list_elem_of_fmap. exists (name, m).
    split; [done|]. by apply elem_of_map_to_list.
  - rewrite <- Ev. apply vnode_elem_of_replicas. lia.
  - apply vnode_elem_of_replicas. lia.
Qed.


(** ** Rings of at most one virtual node *)

Lemma adds_length (ms : list M) (c : Consistent M HF) :
  length (sortedSet (foldl (fun c member => add member c) c ms))
  = (length (sortedSet c)
     + Z.to_nat (ReplicationFactor (config c)) * length ms)%nat.
Proof.
  revert c. induction ms as [|m ms IH]; intros c; cbn [foldl length]; [lia|].
  rewrite IH.
  destruct (add_fields m c) as (-> & _ & _ & _ & _ & _ & -> & _).
  unfold sortSlice.
  rewrite (Permutation_length (merge_sort_Permutation _ _)).
  rewrite length_app, length_fmap, length_seqZ. lia.
Qed.

(** [New] panics with the placement error whenever the members it is
    given make at most one virtual node: one member with a
    [ReplicationFactor] of 1, or any members with a negative
    [ReplicationFactor].  The probe of partition 0 gives up before it
    reads a node. *)
Theorem New_panics_on_short_ring (ms : list M) (cfg : Config HF) (hf : HF) :
  HashFunc cfg = Some hf ->
  - 2 ^ 63 <= PartitionCount cfg < 2 ^ 63 ->
  Z.max 0 (if ReplicationFactor cfg =? 0 then DefaultReplicationFactor
           else ReplicationFactor cfg)
  * Z.of_nat (length ms) <= 1 ->
  New (Some ms) cfg = Panic panic_no_room.
Proof.
  intros Hhf Hrange Hshort. unfold New. rewrite Hhf. cbn [default].
  pose proof (partitionCount_New_pos cfg Hrange) as HP.
  set (c0 := newConsistent hf (withDefaults cfg)).
  set (c := foldl (fun c member => add member c) c0 ms).
  assert (Hlen : (length (sortedSet c) <= 1)%nat).
  { unfold c. rewrite adds_length. cbn [c0 newConsistent sortedSet config length].
    rewrite withDefaults_ReplicationFactor. nia. }
  change (distributePartitions c = Panic panic_no_room).
  unfold distributePartitions.
  assert (EP : partitionCount c = uint64 (PartitionCount (withDefaults cfg))).
  { unfold c. by rewrite adds_partitionCount. }
  rewrite EP, seqZ_cons by lia. rewrite distributeFrom_cons.
  by rewrite distributeWithLoad_short_ring.
Qed.


(** ** The order of the member map, and names given twice *)

Lemma sortSlice_Permutation (l1 l2 : list Z) :
  l1 ≡ₚ l2 -> sortSlice l1 = sortSlice l2.
Proof.
  intros Hperm. unfold sortSlice. apply (StronglySorted_unique Z.le).
  - apply StronglySorted_merge_sort; apply _.
  - apply StronglySorted_merge_sort; apply _.
  - by rewrite !merge_sort_Permutation.
Qed.

Lemma kMems_Permutation (hk : string -> Z) (order1 order2 : list (string * M)) :
  NoDup (order1.*1) ->
  (forall n1 n2, n1 ∈ order1.*1 -> n2 ∈ order1.*1 -> hk n1 = hk n2 -> n1 = n2) ->
  order1 ≡ₚ order2 ->
  foldl (fun km e => <[hk e.1 := e.2]> km) (∅ : gmap Z M) order1
  = foldl (fun km e => <[hk e.1 := e.2]> km) ∅ order2.
Proof.
  intros Hnd Hinj Hperm.
  assert (Hnd2 : NoDup (order2.*1)) by (by rewrite <- Hperm).
  assert (Hinj2 : forall n1 n2, n1 ∈ order2.*1 -> n2 ∈ order2.*1 ->
                                hk n1 = hk n2 -> n1 = n2).
  { intros n1 n2. rewrite <- Hperm. apply Hinj. }
  apply map_eq. intros key.
  destruct (decide (key ∈ hk <$> order1.*1)) as [Hin|Hout].
  - apply list_elem_of_fmap in Hin as (n & -> & Hn).
    apply list_elem_of_fmap in Hn as ([n' m] & -> & Hnm). cbn.
    rewrite (kMems_entry hk order1 ∅ n' m Hnd Hinj Hnm).
    rewrite Hperm in Hnm.
    by rewrite (kMems_entry hk order2 ∅ n' m Hnd2 Hinj2 Hnm).
  - rewrite (kMems_other hk order1 ∅ key Hout).
    rewrite Hperm in Hout.
    by rewrite (kMems_other hk order2 ∅ key Hout).
Qed.

(** With a hash function that tells the member names apart, what
    [getClosestN], [GetClosestNForPartition] and [GetClosestN] return
    does not depend on the order in which Go ranges over the member
    map. *)
Theorem getClosestN_independent_of_map_order (c : Consistent M HF)
    (order1 order2 : list (string * M)) (key : list byte) (partID count : Z) :
  order1 ≡ₚ map_to_list (members c) ->
  order2 ≡ₚ map_to_list (members c) ->
  (forall n1 n2 : string,
     is_Some (members c !! n1) -> is_Some (members c !! n2) ->
     Sum64 c (bytes n1) = Sum64 c (bytes n2) -> n1 = n2) ->
  getClosestN c order1 partID count = getClosestN c order2 partID count /\
  GetClosestNForPartition c order1 partID count
  = GetClosestNForPartition c order2 partID count /\
  GetClosestN c order1 key count = GetClosestN c order2 key count.
Proof.
  intros Hperm1 Hperm2 Hinj.
  assert (Hperm : order1 ≡ₚ order2) by (by rewrite Hperm1, Hperm2).
  assert (Hmain : forall partID,
            getClosestN c order1 partID count
            = getClosestN c order2 partID count).
  { clear partID. intros partID.
    set (hk := fun n : string => Sum64 c (bytes n)).
    assert (Hnames : forall n, n ∈ order1.*1 -> is_Some (members c !! n)).
    { intros n. rewrite Hperm1, list_elem_of_fmap.
      intros ([n' m] & -> & Hin). apply elem_of_map_to_list in Hin. eauto. }
    assert (Hnd : NoDup (order1.*1)).
    { rewrite Hperm1. apply NoDup_fst_map_to_list. }
    assert (Hinj' : forall n1 n2, n1 ∈ order1.*1 -> n2 ∈ order1.*1 ->
                                  hk n1 = hk n2 -> n1 = n2).
    { intros n1 n2 H1 H2. apply Hinj; by apply Hnames. }
    unfold getClosestN. destruct (_ <? count); [done|].
    destruct (getPartitionOwner c partID) as [o|].
    - rewrite !range_members_spec. cbn [app].
      pose proof (kMems_Permutation hk order1 order2 Hnd Hinj' Hperm) as Ek.
      unfold hk in Ek. rewrite Ek. cbn [mbind result_bind].
      rewrite (sortSlice_Permutation
                 ((fun n => Sum64 c (bytes n)) <$> order1.*1)
                 ((fun n => Sum64 c (bytes n)) <$> order2.*1))
        by (by rewrite Hperm).
      rewrite (decide_ext (Member_String o ∈ order1.*1)
                 (Member_String o ∈ order2.*1)) by (by rewrite Hperm).
      done.
    - destruct order1 as [|e1 order1], order2 as [|e2 order2].
      + done.
      + by apply Permutation_nil_cons in Hperm.
      + symmetry in Hperm. by apply Permutation_nil_cons in Hperm.
      + by rewrite !range_members_nil_owner. }
  split; [apply Hmain|]. split; [apply Hmain|].
  unfold GetClosestN. destruct (FindPartitionID c key) as [p| |]; cbn;
    [apply Hmain|done..].
Qed.

Lemma adds_sortedSet (ms : list M) (c : Consistent M HF) :
  sortedSet (foldl (fun c member => add member c) c ms)
  ≡ₚ sortedSet c ++ ((Member_String <$> ms) ≫= vnodes c).
Proof.
  revert c. induction ms as [|m ms IH]; intros c; cbn [foldl].
  - cbn. by rewrite app_nil_r.
  - rewrite IH.
    destruct (add_fields m c) as (Ec & Eh & _ & _ & _ & _ & -> & _).
    fold (vnodes c (Member_String m)).
    unfold sortSlice. rewrite merge_sort_Permutation.
    rewrite fmap_cons, bind_cons, <- app_assoc.
    rewrite (list_bind_ext (vnodes (add m c)) (vnodes c)
               (Member_String <$> ms) (Member_String <$> ms));
      [done|intros name; by apply vnodes_ext|done].
Qed.

(** [New] takes a name given twice as two members ([add] has no
    membership check) and [Remove] takes one away: after
    [Remove(name)] returns, the name is no member and the ring map has no
    entry for its virtual nodes, but [sortedSet] still holds each of
    their hashes, an entry that a later probe reads as a nil member. *)
Theorem Remove_after_duplicate_leaves_stale_nodes
    (ms : list M) (cfg : Config HF) (c c' : Consistent M HF)
    (name : string) (i : Z) :
  New (Some ms) cfg = Ok c ->
  (2 <= length (filter (fun m => Member_String m = name) ms))%nat ->
  Remove name c = Ok c' ->
  0 <= i < ReplicationFactor (config c) ->
  members c' !! name = None /\
  ring c' !! vnode c' name i = None /\
  vnode c' name i ∈ sortedSet c'.
Proof.
  intros Hnew Hdup Hrem Hi.
  pose proof Hnew as Hinv.
  apply New_Ok_inv in Hinv as (hf & Hhf & Ec & Eh & Es & Em).
  set (c0 := newConsistent hf (withDefaults cfg)) in *.
  destruct (adds_fields ms c0) as [Ec0 Eh0]. cbn [default] in *.
  assert (Hsorted : sortedSet c ≡ₚ (Member_String <$> ms) ≫= vnodes c).
  { rewrite Es, adds_sortedSet. cbn [c0 newConsistent sortedSet app].
    rewrite (list_bind_ext (vnodes c0) (vnodes c)
               (Member_String <$> ms) (Member_String <$> ms));
      [done| |done].
    intros n. symmetry. apply vnodes_ext; [by rewrite Ec|by rewrite Eh]. }
  assert (Hnames : exists rest : list string,
            Member_String <$> ms ≡ₚ name :: name :: rest).
  { pose proof (filter_app_complement
                  (fun m => Member_String m = name) ms) as Hsplit.
    destruct (filter (fun m => Member_String m = name) ms)
      as [|m1 [|m2 l]] eqn:Hf; [cbn in Hdup; lia..|].
    assert (H1 : m1 ∈ filter (fun m => Member_String m = name) ms)
      by (rewrite Hf; left).
    assert (H2 : m2 ∈ filter (fun m => Member_String m = name) ms)
      by (rewrite Hf; right; left).
    apply list_elem_of_filter in H1 as [E1 _].
    apply list_elem_of_filter in H2 as [E2 _].
    eexists. rewrite <- Hsplit. cbn. rewrite E1, E2. reflexivity. }
  destruct Hnames as [rest Hrest].
  assert (Hmem : is_Some (members c !! name)).
  { rewrite Em.
    destruct (adds_members ms c0 name) as (m & _ & _ & Hm); [|eauto].
    destruct (filter (fun m => Member_String m = name) ms)
      as [|m1 l] eqn:Hf; [cbn in Hdup; lia|].
    assert (H1 : m1 ∈ filter (fun m => Member_String m = name) ms)
      by (rewrite Hf; left).
    apply list_elem_of_filter in H1 as [E1 Hin]. eauto. }
  destruct Hmem as [m Hm].
  destruct (removeNodes_fields name c)
    as (R1 & R2 & _ & _ & _ & R5 & R6 & R7).
  fold (vnodes c name) in R6, R7.
  assert (Hfields : config c' = config c /\ hashFunc c' = hashFunc c /\
                    members c' = delete name (members c) /\
                    sortedSet c' = sortedSet (removeNodes name c) /\
                    ring c' = ring (removeNodes name c)).
  { unfold Remove in Hrem. rewrite Hm in Hrem.
    destruct (len _ =? 0).
    - injection Hrem as <-.
      split; [exact R1|]. split; [exact R2|]. split; [exact R5|].
      split; reflexivity.
    - apply distributePartitions_fields in Hrem
        as (-> & -> & -> & _ & -> & ->).
      rewrite R1, R2, R5. done. }
  destruct Hfields as (F1 & F2 & F3 & F4 & F5).
  assert (Ev : vnode c' name i = vnode c name i) by (by apply vnode_hashFunc).
  assert (Hvn : vnode c name i ∈ vnodes c name)
    by (by apply vnode_elem_of_replicas).
  split; [rewrite F3; apply lookup_delete_eq|].
  rewrite Ev, F4, F5, R6, R7. split; [by rewrite decide_True|].
  rewrite (delSlices_Permutation (vnodes c name) (sortedSet c)
             (vnodes c name ++ (rest ≫= vnodes c))).
  - apply elem_of_app. by left.
  - rewrite Hsorted, Hrest, !bind_cons. done.
Qed.


End Properties.

(** * Properties of [rendezvous] *)

Section RendezvousProperties.

Context {H : Type} {HashFunc_H : rendezvous.HashFunc H}.

Import rendezvous.

Lemma index_length {A : Type} (l : list A) :
  index l (Z.of_nat (length l)) = None.
Proof.
  unfold index. destruct (Z.ltb_spec (Z.of_nat (length l)) 0); [done|].
  rewrite Nat2Z.id. apply lookup_ge_None. lia.
Qed.

(** [Remove] always panics: [r.nStr[l]] with [l = len(r.nStr)] is out
    of range, whatever the receiver and the node. *)
Theorem rendezvous_Remove_always_panics (r : Rendezvous H) (node : string) :
  Remove r node = Panic panic_index.
Proof. unfold Remove. by rewrite index_length. Qed.

Lemma rendezvous_New_loop_fields (rest done : list string) (r : Rendezvous H) :
  nStr r = done ++ replicate (length rest) EmptyString ->
  nHash r = (call (hash r) <$> done) ++ replicate (length rest) 0 ->
  let r' := New_loop (length done) rest r in
  hash r' = hash r /\
  nStr r' = done ++ rest /\
  nHash r' = call (hash r) <$> (done ++ rest) /\
  (nodes r = ∅ -> rest = [] -> nodes r' = ∅) /\
  (rest <> [] -> nodes r' <> ∅).
Proof.
  revert done r. induction rest as [|n rest IH]; intros done r Hs Hh.
  - cbn in *. rewrite app_nil_r in *. done.
  - cbn [New_loop].
    set (r1 := {| nodes := <[n := Z.of_nat (length done)]> (nodes r);
                  nStr := <[length done := n]> (nStr r);
                  nHash := <[length done := call (hash r) n]> (nHash r);
                  hash := hash r |}).
    specialize (IH (done ++ [n]) r1).
    rewrite length_app in IH. cbn [length] in IH.
    replace (length done + 1)%nat with (S (length done)) in IH by lia.
    destruct IH as (E1 & E2 & E3 & E4 & E5).
    + cbn [r1 nStr]. rewrite Hs. cbn [length replicate].
      rewrite <- (Nat.add_0_r (length done)) at 1.
      rewrite insert_app_r. cbn. by rewrite <- app_assoc.
    + cbn [r1 nHash hash]. rewrite Hh. cbn [length replicate].
      rewrite <- (length_fmap (call (hash r)) done) at 1.
      rewrite <- (Nat.add_0_r (length (call (hash r) <$> done))) at 1.
      rewrite insert_app_r. cbn. by rewrite fmap_app, <- app_assoc.
    + cbn zeta. rewrite <- app_assoc in E2, E3. cbn [app] in E2, E3.
      cbn [r1 hash] in E1, E3.
      split; [done|]. split; [done|]. split; [done|].
      split; [done|]. intros _.
      destruct rest as [|n' rest].
      * cbn [New_loop r1 nodes]. apply insert_non_empty.
      * by apply E5.
Qed.

Lemma rendezvous_New_fields (ns : list string) (hash0 : H) :
  hash (New ns hash0) = hash0 /\
  nStr (New ns hash0) = ns /\
  nHash (New ns hash0) = call hash0 <$> ns /\
  (nodes (New ns hash0) = ∅ <-> ns = []).
Proof.
  unfold New.
  set (r := {| nodes := ∅; nStr := replicate (length ns) EmptyString;
               nHash := replicate (length ns) 0; hash := hash0 |}).
  destruct (rendezvous_New_loop_fields ns [] r) as (E1 & E2 & E3 & E4 & E5);
    [done..|].
  cbn [length app r hash] in *.
  split; [done|]. split; [done|]. split; [done|]. split.
  - intros E. destruct ns as [|n ns]; [done|].
    exfalso. by apply E5.
  - intros ->. by apply E4.
Qed.

Lemma rendezvous_built_fields (hash0 : H) (ns adds : list string) :
  hash (built hash0 ns adds) = hash0 /\
  nStr (built hash0 ns adds) = ns ++ adds /\
  nHash (built hash0 ns adds) = call hash0 <$> (ns ++ adds) /\
  (nodes (built hash0 ns adds) = ∅ <-> ns ++ adds = []).
Proof.
  unfold built. induction adds as [|a adds IH] using rev_ind.
  - cbn [foldl]. rewrite app_nil_r. apply rendezvous_New_fields.
  - rewrite foldl_app. cbn [foldl].
    set (r := foldl Add (New ns hash0) adds) in *.
    destruct IH as (E1 & E2 & E3 & E4).
    unfold Add. cbn [hash nStr nHash nodes]. rewrite E1, E2, E3.
    split; [done|]. split; [by rewrite app_assoc|].
    split; [by rewrite app_assoc, !fmap_app|].
    split.
    + intros E. by apply insert_non_empty in E.
    + intros E. apply app_eq_nil in E as [_ E].
      by apply app_eq_nil in E as [_ E].
Qed.

(** The loop of [Lookup] keeps the first index of the highest score. *)
Lemma rendezvous_Lookup_loop_spec (kHash : Z) (rest seen : list Z) (mIdx mHash : Z) :
  let sc := fun h => xorShiftMul64 (Z.lxor kHash h) in
  seen <> [] ->
  (sc <$> seen) !! Z.to_nat mIdx = Some mHash ->
  0 <= mIdx ->
  (forall (j : nat) (v : Z), (sc <$> seen) !! j = Some v ->
     v <= mHash /\ (Z.of_nat j < mIdx -> v < mHash)) ->
  exists (i : nat) (v : Z),
    Lookup_loop kHash rest (Z.of_nat (length seen) - 1) mIdx mHash
    = (Z.of_nat i, v) /\
    (sc <$> (seen ++ rest)) !! i = Some v /\
    (forall (j : nat) (w : Z), (sc <$> (seen ++ rest)) !! j = Some w ->
       w <= v /\ ((j < i)%nat -> w < v)) /\
    (Z.of_nat i = mIdx \/ (length seen <= i)%nat).
Proof.
  intros sc. revert seen mIdx mHash.
  induction rest as [|h rest IH]; intros seen mIdx mHash Hne Hm Hpos Hmax.
  - cbn [Lookup_loop]. exists (Z.to_nat mIdx), mHash. rewrite app_nil_r.
    rewrite Z2Nat.id by done. split; [done|]. split; [done|].
    split; [|by left].
    intros j w Hj. destruct (Hmax j w Hj) as [? Hlt]. split; [done|].
    intros ?. apply Hlt. lia.
  - cbn [Lookup_loop]. fold (sc h).
    assert (Hlen : (0 < length seen)%nat) by (destruct seen; [done|cbn; lia]).
    assert (Hm' : (Z.to_nat mIdx < length seen)%nat).
    { apply lookup_lt_Some in Hm. by rewrite length_fmap in Hm. }
    replace (Z.of_nat (length seen) - 1 + 1)
      with (Z.of_nat (length (seen ++ [h])) - 1)
      by (rewrite length_app; cbn [length]; lia).
    replace (seen ++ h :: rest) with ((seen ++ [h]) ++ rest)
      by (by rewrite <- app_assoc).
    assert (Hne' : seen ++ [h] <> []) by (by destruct seen).
    destruct (Z.ltb_spec mHash (sc h)) as [Hlt|Hge].
    + destruct (IH (seen ++ [h]) (Z.of_nat (length (seen ++ [h])) - 1) (sc h))
        as (i & v & Hrun & Hi & Hall & Hwhere);
        [done| |rewrite length_app; cbn [length]; lia| |].
      * rewrite length_app. cbn [length].
        replace (Z.to_nat (Z.of_nat (length seen + 1) - 1))
          with (length seen + 0)%nat by lia.
        rewrite fmap_app, <- (length_fmap sc seen), lookup_app_r by lia.
        by rewrite Nat.add_comm, Nat.add_sub.
      * intros j w. rewrite fmap_app, length_app. cbn [length].
        intros Hj. apply lookup_app_Some in Hj as [Hj|[Hj1 Hj2]].
        -- destruct (Hmax j w Hj). lia.
        -- rewrite length_fmap in Hj1, Hj2.
           destruct (j - length seen)%nat as [|k] eqn:Ek; [|done].
           cbn in Hj2. injection Hj2 as <-. lia.
      * exists i, v. split; [done|]. split; [done|]. split; [done|].
        right. rewrite length_app in Hwhere. cbn [length] in Hwhere. lia.
    + destruct (IH (seen ++ [h]) mIdx mHash)
        as (i & v & Hrun & Hi & Hall & Hwhere); [done| |done| |].
      * rewrite fmap_app. apply lookup_app_l_Some. done.
      * intros j w. rewrite fmap_app.
        intros Hj. apply lookup_app_Some in Hj as [Hj|[Hj1 Hj2]].
        -- by apply Hmax.
        -- rewrite length_fmap in Hj1, Hj2.
           destruct (j - length seen)%nat as [|k] eqn:Ek; [|done].
           cbn in Hj2. injection Hj2 as <-. lia.
      * exists i, v. split; [done|]. split; [done|]. split; [done|].
        destruct Hwhere as [?|Hwhere]; [by left|].
        right. rewrite length_app in Hwhere. cbn [length] in Hwhere. lia.
Qed.

(** [Lookup] on a receiver whose slices go together. *)
Lemma rendezvous_Lookup_spec (r : Rendezvous H) (k : string) (all : list string) :
  nStr r = all -> nHash r = call (hash r) <$> all ->
  (nodes r = ∅ <-> all = []) ->
  (all = [] /\ Lookup r k = Ok EmptyString) \/
  exists (i : nat) (n : string),
    Lookup r k = Ok n /\ all !! i = Some n /\
    forall (j : nat) (n' : string), all !! j = Some n' ->
      score (hash r) k n' <= score (hash r) k n /\
      ((j < i)%nat -> score (hash r) k n' < score (hash r) k n).
Proof.
  intros Es Eh Hempty. unfold Lookup.
  destruct all as [|n0 all].
  { left. split; [done|].
    rewrite (proj2 Hempty eq_refl), map_size_empty. done. }
  right.
  assert (Hsize : size (nodes r) <> 0%nat).
  { intros E. apply map_size_empty_iff in E. by apply Hempty in E. }
  destruct (Z.eqb_spec (Z.of_nat (size (nodes r))) 0) as [?|_]; [lia|].
  rewrite Eh, fmap_cons. unfold index at 1.
  change (0 <? 0) with false. change (Z.to_nat 0) with 0%nat.
  cbn [lookup list_lookup drop].
  set (kHash := call (hash r) k).
  set (sc := fun h => xorShiftMul64 (Z.lxor kHash h)).
  destruct (rendezvous_Lookup_loop_spec kHash (call (hash r) <$> all)
              [call (hash r) n0] 0 (sc (call (hash r) n0)))
    as (i & v & Hrun & Hi & Hall & _); [done|done|done| |].
  { intros [|j] w; cbn; [|done]. intros [= <-]. unfold sc. lia. }
  cbn [length] in Hrun. change (Z.of_nat 1 - 1) with 0 in Hrun.
  rewrite drop_0.
  change (xorShiftMul64 (Z.lxor kHash (call (hash r) n0)))
    with (sc (call (hash r) n0)).
  rewrite Hrun. cbn [app] in Hi, Hall.
  change (call (hash r) n0 :: (call (hash r) <$> all))
    with (call (hash r) <$> (n0 :: all)) in Hi, Hall.
  rewrite <- list_fmap_compose in Hi, Hall.
  apply list_lookup_fmap_Some in Hi as (n & -> & Hn).
  exists i, n. rewrite Es.
  unfold index. destruct (Z.ltb_spec (Z.of_nat i) 0); [lia|].
  rewrite Nat2Z.id, Hn. split; [done|]. split; [done|].
  intros j n' Hj. apply (Hall j). rewrite list_lookup_fmap, Hj. done.
Qed.

(** After [New(ns, hash)] and one [Add] for each node of [adds],
    [Lookup(k)] returns the empty string when there is no node, and
    otherwise the node of highest score for [k], the first of them in the
    order [ns ++ adds] when several have it. *)
Theorem rendezvous_Lookup_highest_score (hash0 : H) (ns adds : list string)
    (k : string) :
  (ns ++ adds = [] /\ Lookup (built hash0 ns adds) k = Ok EmptyString) \/
  exists (i : nat) (n : string),
    Lookup (built hash0 ns adds) k = Ok n /\
    (ns ++ adds) !! i = Some n /\
    forall (j : nat) (n' : string),
      (ns ++ adds) !! j = Some n' ->
      score hash0 k n' <= score hash0 k n /\
      ((j < i)%nat -> score hash0 k n' < score hash0 k n).
Proof.
  destruct (rendezvous_built_fields hash0 ns adds) as (E1 & E2 & E3 & E4).
  rewrite <- E1 in E3 at 2.
  destruct (rendezvous_Lookup_spec (built hash0 ns adds) k (ns ++ adds) E2 E3 E4)
    as [?|Hl]; [by left|right].
  by rewrite E1 in Hl.
Qed.


Lemma rendezvous_built_Add (hash0 : H) (ns adds : list string) (node : string) :
  Add (built hash0 ns adds) node = built hash0 ns (adds ++ [node]).
Proof. unfold built. by rewrite foldl_app. Qed.

(** [Add(node)] moves a key to the new node or leaves it where it was:
    after the call, [Lookup(k)] is [node] or what it was before. *)
Theorem rendezvous_Add_moves_keys_to_the_new_node
    (hash0 : H) (ns adds : list string) (node k : string) :
  Lookup (Add (built hash0 ns adds) node) k = Ok node \/
  Lookup (Add (built hash0 ns adds) node) k = Lookup (built hash0 ns adds) k.
Proof.
  rewrite rendezvous_built_Add.
  destruct (rendezvous_built_fields hash0 ns (adds ++ [node])) as (E1 & E2 & E3 & E4).
  rewrite <- E1 in E3 at 2.
  destruct (rendezvous_Lookup_spec _ k _ E2 E3 E4)
    as [[Hnil _]|(i' & n' & Hl' & Hi' & Hmax')].
  { exfalso. apply app_eq_nil in Hnil as [_ Hnil].
    by apply app_eq_nil in Hnil as [_ Hnil]. }
  rewrite Hl'. rewrite E1 in Hmax'. clear E1 E2 E3 E4.
  rewrite app_assoc in Hi', Hmax'.
  destruct (decide (i' < length (ns ++ adds))%nat) as [Hlt|Hge].
  - right. rewrite lookup_app_l in Hi' by done.
    destruct (rendezvous_built_fields hash0 ns adds) as (E1 & E2 & E3 & E4).
    rewrite <- E1 in E3 at 2.
    destruct (rendezvous_Lookup_spec _ k _ E2 E3 E4)
      as [[Hnil _]|(i & n & Hl & Hi & Hmax)].
    { rewrite Hnil in Hlt. cbn in Hlt. lia. }
    rewrite Hl. rewrite E1 in Hmax. f_equal.
    assert (Hi2 : ((ns ++ adds) ++ [node]) !! i = Some n)
      by (by apply lookup_app_l_Some).
    destruct (Hmax' i n Hi2) as [Hle1 Hlt1].
    destruct (Hmax i' n' Hi') as [Hle2 Hlt2].
    destruct (lt_eq_lt_dec i i') as [[Hii|Hii]|Hii].
    + specialize (Hlt1 Hii). lia.
    + subst i'. rewrite Hi' in Hi. by injection Hi.
    + specialize (Hlt2 Hii). lia.
  - left. f_equal. apply lookup_app_Some in Hi' as [Hi'|[_ Hi']].
    + apply lookup_lt_Some in Hi'. lia.
    + apply list_elem_of_lookup_2, list_elem_of_singleton in Hi'. done.
Qed.

Lemma land_lxor_distr (a b m : Z) :
  Z.land (Z.lxor a b) m = Z.lxor (Z.land a m) (Z.land b m).
Proof.
  apply Z.bits_inj'. intros n Hn.
  rewrite Z.land_spec, !Z.lxor_spec, !Z.land_spec.
  by destruct (Z.testbit a n), (Z.testbit b n), (Z.testbit m n).
Qed.

Lemma uint64_land (z : Z) : uint64 z = Z.land z (Z.ones 64).
Proof. unfold uint64. by rewrite Z.land_ones. Qed.

Lemma uint64_lxor (a b : Z) : uint64 (Z.lxor a b) = Z.lxor (uint64 a) (uint64 b).
Proof. rewrite !uint64_land. apply land_lxor_distr. Qed.

Lemma lxor_uint64_range (a b : Z) :
  0 <= a < 2 ^ 64 -> 0 <= b < 2 ^ 64 -> 0 <= Z.lxor a b < 2 ^ 64.
Proof.
  intros Ha Hb.
  rewrite <- (uint64_small a Ha), <- (uint64_small b Hb), <- uint64_lxor.
  apply uint64_range.
Qed.

Lemma lxor_swap (x a y b : Z) :
  Z.lxor (Z.lxor x a) (Z.lxor y b) = Z.lxor (Z.lxor x y) (Z.lxor a b).
Proof.
  apply Z.bits_inj'. intros n Hn. rewrite !Z.lxor_spec.
  by destruct (Z.testbit x n), (Z.testbit a n), (Z.testbit y n),
    (Z.testbit b n).
Qed.

Lemma xorshiftr_inj (k x y : Z) :
  0 < k -> 0 <= x -> 0 <= y ->
  Z.lxor x (Z.shiftr x k) = Z.lxor y (Z.shiftr y k) -> x = y.
Proof.
  intros Hk Hx Hy E.
  apply Z.lxor_eq. set (d := Z.lxor x y).
  assert (Hd : 0 <= d) by (by apply Z.lxor_nonneg).
  assert (Ed : Z.lxor d (Z.shiftr d k) = 0).
  { unfold d. rewrite Z.shiftr_lxor, <- lxor_swap, E. apply Z.lxor_nilpotent. }
  apply Z.lxor_eq in Ed. rewrite Z.shiftr_div_pow2 in Ed by lia.
  destruct (Z.eq_dec d 0) as [|Hne]; [done|]. exfalso.
  assert (Hlt : d / 2 ^ k < d).
  { apply Z.div_lt; [lia|]. apply Z.pow_gt_1; lia. }
  lia.
Qed.

Lemma xorshiftl_inj (x y : Z) :
  0 <= x -> 0 <= y ->
  Z.lxor x (uint64 (Z.shiftl x 25)) = Z.lxor y (uint64 (Z.shiftl y 25)) ->
  x = y.
Proof.
  intros Hx Hy E.
  apply Z.lxor_eq. set (d := Z.lxor x y).
  assert (Hd : 0 <= d) by (by apply Z.lxor_nonneg).
  assert (Ed : Z.lxor d (uint64 (Z.shiftl d 25)) = 0).
  { unfold d. rewrite Z.shiftl_lxor, uint64_lxor, <- lxor_swap, E.
    apply Z.lxor_nilpotent. }
  apply Z.lxor_eq in Ed. unfold uint64 in Ed.
  rewrite Z.shiftl_mul_pow2 in Ed by lia.
  pose proof (Z.mod_pos_bound (d * 2 ^ 25) (2 ^ 64)) as Hr.
  pose proof (Z.div_mod (d * 2 ^ 25) (2 ^ 64)) as Hdm.
  assert (Hdiv : (2 ^ 64 | (2 ^ 25 - 1) * d)).
  { exists (d * 2 ^ 25 / 2 ^ 64). lia. }
  apply Z.gauss in Hdiv; [|by vm_compute].
  destruct Hdiv as [q Hq].
  assert (q = 0) by lia. lia.
Qed.

Lemma mul_odd_inj (x y : Z) :
  0 <= x < 2 ^ 64 -> 0 <= y < 2 ^ 64 ->
  uint64 (x * 2685821657736338717) = uint64 (y * 2685821657736338717) ->
  x = y.
Proof.
  intros Hx Hy E. unfold uint64 in E.
  pose proof (Z.div_mod (x * 2685821657736338717) (2 ^ 64)) as Hdx.
  pose proof (Z.div_mod (y * 2685821657736338717) (2 ^ 64)) as Hdy.
  assert (Hdiv : (2 ^ 64 | 2685821657736338717 * (x - y))).
  { exists (x * 2685821657736338717 / 2 ^ 64
            - y * 2685821657736338717 / 2 ^ 64). lia. }
  apply Z.gauss in Hdiv; [|by vm_compute].
  destruct Hdiv as [q Hq].
  assert (q = 0) by lia. lia.
Qed.

(** [xorShiftMul64] is one-to-one on [uint64]. *)
Lemma xorShiftMul64_inj (x y : Z) :
  0 <= x < 2 ^ 64 -> 0 <= y < 2 ^ 64 ->
  xorShiftMul64 x = xorShiftMul64 y -> x = y.
Proof.
  intros Hx Hy E. unfold xorShiftMul64 in E. cbn zeta in E.
  assert (Hshr : forall z k, 0 <= z < 2 ^ 64 -> 0 <= k ->
                             0 <= Z.shiftr z k < 2 ^ 64).
  { intros z k Hz Hk. rewrite Z.shiftr_div_pow2 by done.
    assert (0 < 2 ^ k) by (apply Z.pow_pos_nonneg; lia).
    split; [apply Z.div_pos; lia|].
    apply Z.div_lt_upper_bound; [done|]. nia. }
  set (x1 := Z.lxor x (Z.shiftr x 12)) in *.
  set (y1 := Z.lxor y (Z.shiftr y 12)) in *.
  assert (Hx1 : 0 <= x1 < 2 ^ 64)
    by (apply lxor_uint64_range; [done|apply Hshr; lia]).
  assert (Hy1 : 0 <= y1 < 2 ^ 64)
    by (apply lxor_uint64_range; [done|apply Hshr; lia]).
  set (x2 := Z.lxor x1 (uint64 (Z.shiftl x1 25))) in *.
  set (y2 := Z.lxor y1 (uint64 (Z.shiftl y1 25))) in *.
  assert (Hx2 : 0 <= x2 < 2 ^ 64)
    by (apply lxor_uint64_range; [done|apply uint64_range]).
  assert (Hy2 : 0 <= y2 < 2 ^ 64)
    by (apply lxor_uint64_range; [done|apply uint64_range]).
  set (x3 := Z.lxor x2 (Z.shiftr x2 27)) in *.
  set (y3 := Z.lxor y2 (Z.shiftr y2 27)) in *.
  assert (Hx3 : 0 <= x3 < 2 ^ 64)
    by (apply lxor_uint64_range; [done|apply Hshr; lia]).
  assert (Hy3 : 0 <= y3 < 2 ^ 64)
    by (apply lxor_uint64_range; [done|apply Hshr; lia]).
  apply mul_odd_inj in E; [|done..].
  apply xorshiftr_inj in E; [|lia..].
  apply xorshiftl_inj in E; [|lia..].
  apply xorshiftr_inj in E; [done|lia..].
Qed.

Lemma score_inj (hash0 : H) (k n n' : string) :
  score hash0 k n = score hash0 k n' -> call hash0 n = call hash0 n'.
Proof.
  unfold score. intros E.
  apply xorShiftMul64_inj in E;
    [|apply lxor_uint64_range; apply uint64_range..].
  apply (f_equal (Z.lxor (call hash0 k))) in E.
  by rewrite <- !Z.lxor_assoc, !Z.lxor_nilpotent, !Z.lxor_0_l in E.
Qed.

(** When the nodes have distinct hashes, [Lookup(k)] returns the one
    node whose score for [k] is above all others ([xorShiftMul64] is
    one-to-one on [uint64]), so the result does not depend on the order
    in which the nodes were given or added. *)
Theorem rendezvous_Lookup_order_independent
    (hash0 : H) (ns adds ns' adds' : list string) (k : string) :
  NoDup (call hash0 <$> ns ++ adds) ->
  ns ++ adds ≡ₚ ns' ++ adds' ->
  Lookup (built hash0 ns adds) k = Lookup (built hash0 ns' adds') k /\
  forall n : string,
    Lookup (built hash0 ns adds) k = Ok n -> ns ++ adds <> [] ->
    n ∈ ns ++ adds /\
    forall n' : string,
      n' ∈ ns ++ adds -> n' <> n -> score hash0 k n' < score hash0 k n.
Proof.
  intros Hnd Hperm.
  assert (Hinj : forall n n', n ∈ ns ++ adds -> n' ∈ ns ++ adds ->
                              score hash0 k n = score hash0 k n' -> n = n').
  { intros n n' Hn Hn' E. apply score_inj in E.
    apply list_elem_of_lookup in Hn as [i Hi].
    apply list_elem_of_lookup in Hn' as [j Hj].
    assert (i = j).
    { eapply (NoDup_lookup _ i j (call hash0 n) Hnd).
      - by rewrite list_lookup_fmap, Hi.
      - by rewrite list_lookup_fmap, Hj, E. }
    subst j. congruence. }
  destruct (rendezvous_built_fields hash0 ns adds) as (E1 & E2 & E3 & E4).
  rewrite <- E1 in E3 at 2.
  destruct (rendezvous_built_fields hash0 ns' adds') as (E1' & E2' & E3' & E4').
  rewrite <- E1' in E3' at 2.
  destruct (rendezvous_Lookup_spec _ k _ E2 E3 E4)
    as [[Hnil Hl]|(i & n & Hl & Hi & Hmax)].
  - assert (Hnil' : ns' ++ adds' = []).
    { apply Permutation_nil. by rewrite <- Hperm, Hnil. }
    destruct (rendezvous_Lookup_spec _ k _ E2' E3' E4')
      as [[_ Hl']|(i' & n' & _ & Hi' & _)].
    + split; [congruence|]. intros n _ Hne. done.
    + rewrite Hnil' in Hi'. by rewrite lookup_nil in Hi'.
  - rewrite E1 in Hmax.
    assert (Hn : n ∈ ns ++ adds) by (by eapply list_elem_of_lookup_2).
    assert (Hstrict : forall n', n' ∈ ns ++ adds -> n' <> n ->
                                 score hash0 k n' < score hash0 k n).
    { intros n' Hn' Hne.
      apply list_elem_of_lookup in Hn' as Hj. destruct Hj as [j Hj].
      destruct (Hmax j n' Hj) as [Hle _].
      destruct (Z.eq_dec (score hash0 k n') (score hash0 k n)) as [E|NE];
        [|lia].
      exfalso. apply Hne. by apply Hinj. }
    split.
    + destruct (rendezvous_Lookup_spec _ k _ E2' E3' E4')
        as [[Hnil' _]|(i' & n' & Hl' & Hi' & Hmax')].
      { exfalso. rewrite Hnil' in Hperm.
        apply Permutation_nil_r in Hperm. by rewrite Hperm in Hi. }
      rewrite Hl, Hl'. f_equal. rewrite E1' in Hmax'.
      assert (Hn' : n' ∈ ns ++ adds).
      { rewrite Hperm. by eapply list_elem_of_lookup_2. }
      destruct (decide (n' = n)) as [|Hne]; [done|]. exfalso.
      pose proof (Hstrict n' Hn' Hne) as Hlt.
      assert (Hn2 : n ∈ ns' ++ adds') by (by rewrite <- Hperm).
      apply list_elem_of_lookup in Hn2 as [j Hj].
      destruct (Hmax' j n Hj) as [Hle _]. lia.
    + intros n0 Hn0 _. rewrite Hl in Hn0. injection Hn0 as <-. done.
Qed.

End RendezvousProperties.


(** * Properties of [jump] *)

Section JumpProperties.

Context {float64_rounding : Float64}.

Import jump.

(** What is used of the rounding of binary64: it is monotone, and exact
    on the integers up to [2^53] and on [2^62]. *)
Hypothesis round64_mono :
  forall x y : Q, (x <= y)%Q -> (round64 x <= round64 y)%Q.
Hypothesis round64_int :
  forall n : Z, 0 <= n <= 2 ^ 53 -> (round64 (inject_Z n) == inject_Z n)%Q.
Hypothesis round64_2p62 :
  (round64 (inject_Z (2 ^ 62)) == inject_Z (2 ^ 62))%Q.

Lemma jump_to_grows (b key : Z) :
  0 <= b < 2 ^ 31 - 1 -> 0 <= key < 2 ^ 64 ->
  b + 1 <= jump_to b key <= 2 ^ 62.
Proof.
  intros Hb Hkey. unfold jump_to.
  set (y := Z.shiftr key 33 + 1).
  assert (Hy : 1 <= y <= 2 ^ 31).
  { unfold y. rewrite Z.shiftr_div_pow2 by lia.
    assert (0 <= key / 2 ^ 33 < 2 ^ 31).
    { split; [apply Z.div_pos; lia|].
      apply Z.div_lt_upper_bound; lia. }
    lia. }
  rewrite (uint64_small y) by lia.
  change (int (Z.shiftl 1 31)) with (2 ^ 31).
  unfold fmul, fdiv, float64.
  set (fy := round64 (inject_Z y)).
  set (f31 := round64 (inject_Z (2 ^ 31))).
  set (fb := round64 (inject_Z (b + 1))).
  assert (Efy : (fy == inject_Z y)%Q) by (apply round64_int; lia).
  assert (Ef31 : (f31 == inject_Z (2 ^ 31))%Q) by (by apply round64_int).
  assert (Efb : (fb == inject_Z (b + 1))%Q) by (apply round64_int; lia).
  assert (Hypos : (0 < inject_Z y)%Q).
  { change (inject_Z 0 < inject_Z y)%Q. rewrite <- Zlt_Qlt. lia. }
  assert (Hq1 : (inject_Z 1 <= f31 / fy)%Q).
  { rewrite Ef31, Efy. apply Qle_shift_div_l; [done|].
    rewrite <- inject_Z_mult, <- Zle_Qle. lia. }
  assert (Hq2 : (f31 / fy <= inject_Z (2 ^ 31))%Q).
  { rewrite Ef31, Efy. apply Qle_shift_div_r; [done|].
    rewrite <- inject_Z_mult, <- Zle_Qle. nia. }
  set (q := round64 (f31 / fy)) in *.
  assert (Hq : (inject_Z 1 <= q /\ q <= inject_Z (2 ^ 31))%Q).
  { split.
    - rewrite <- (round64_int 1) by lia. by apply round64_mono.
    - rewrite <- (round64_int (2 ^ 31)) by lia. by apply round64_mono. }
  destruct Hq as [Hq1' Hq2'].
  assert (Hb1 : (0 <= inject_Z (b + 1))%Q).
  { change (inject_Z 0 <= inject_Z (b + 1))%Q. rewrite <- Zle_Qle. lia. }
  assert (Hp1 : (inject_Z (b + 1) <= fb * q)%Q).
  { rewrite Efb. rewrite <- (Qmult_1_r (inject_Z (b + 1))) at 1.
    rewrite (Qmult_comm (inject_Z (b + 1)) 1),
      (Qmult_comm (inject_Z (b + 1)) q).
    by apply Qmult_le_compat_r. }
  assert (Hp2 : (fb * q <= inject_Z (2 ^ 62))%Q).
  { rewrite Efb.
    apply Qle_trans with (inject_Z (b + 1) * inject_Z (2 ^ 31))%Q.
    - rewrite (Qmult_comm (inject_Z (b + 1)) q),
        (Qmult_comm (inject_Z (b + 1)) (inject_Z (2 ^ 31))).
      by apply Qmult_le_compat_r.
    - rewrite <- inject_Z_mult, <- Zle_Qle. lia. }
  set (p := round64 (fb * q)) in *.
  assert (Hp : (inject_Z (b + 1) <= p /\ p <= inject_Z (2 ^ 62))%Q).
  { split.
    - rewrite <- (round64_int (b + 1)) by lia. by apply round64_mono.
    - rewrite <- round64_2p62. by apply round64_mono. }
  destruct Hp as [Hp1' Hp2'].
  unfold int64_of_float64.
  assert (Hpos : Qle_bool 0 p = true).
  { apply Qle_bool_iff. by apply Qle_trans with (inject_Z (b + 1)). }
  rewrite Hpos.
  assert (Hfl : b + 1 <= Qfloor p <= 2 ^ 62).
  { split.
    - rewrite <- (Qfloor_Z (b + 1)). by apply Qfloor_resp_le.
    - rewrite <- (Qfloor_Z (2 ^ 62)). by apply Qfloor_resp_le. }
  destruct (Z.leb_spec (- 2 ^ 63) (Qfloor p)); [|lia].
  destruct (Z.ltb_spec (Qfloor p) (2 ^ 63)); [|lia].
  cbn [andb]. exact Hfl.
Qed.

Lemma jump_Hash_loop_spec (fuel : nat) (key buckets b j : Z) :
  0 <= j -> buckets <= 2 ^ 31 - 1 ->
  buckets - j < Z.of_nat fuel -> (1 <= fuel)%nat ->
  exists v : Z,
    Hash_loop fuel key buckets b j = Ok v /\
    ((v = b /\ buckets <= j) \/ (j <= v < buckets)).
Proof.
  revert key b j. induction fuel as [|fuel IH];
    intros key b j Hj Hbk Hfuel Hone; [lia|].
  cbn [Hash_loop].
  destruct (Z.ltb_spec j buckets) as [Hlt|Hge].
  - set (key' := uint64 (key * 2862933555777941757 + 1)).
    pose proof (jump_to_grows j key') as Hgrow.
    destruct Hgrow as [Hg1 Hg2]; [lia|apply uint64_range|].
    destruct (IH key' j (jump_to j key')) as (v & Hv & Hcases);
      [lia|lia|lia|lia|].
    exists v. split; [done|]. right. lia.
  - exists b. split; [done|]. left. lia.
Qed.

Lemma int32_small (z : Z) : 0 <= z < 2 ^ 31 -> jump.int32 z = z.
Proof.
  intros Hz. unfold jump.int32. rewrite Z.mod_small by lia.
  destruct (Z.ltb_spec z (2 ^ 31)); lia.
Qed.

Lemma jump_Hash_spec (key buckets : Z) :
  buckets < 2 ^ 31 ->
  exists b : Z,
    Hash_loop (S (Z.to_nat (if buckets <=? 0 then 1 else buckets))) key
      (if buckets <=? 0 then 1 else buckets) 0 0 = Ok b /\
    Hash key buckets = Ok b /\
    0 <= b < Z.max 1 buckets.
Proof.
  intros Hb. unfold Hash.
  set (n := if buckets <=? 0 then 1 else buckets).
  assert (Hn : n = Z.max 1 buckets)
    by (unfold n; destruct (Z.leb_spec buckets 0); lia).
  destruct (jump_Hash_loop_spec (S (Z.to_nat n)) key n 0 0)
    as (v & Hv & Hcases); [lia..|].
  exists v. rewrite Hv. cbn [mbind result_bind].
  assert (0 <= v < n) by lia.
  rewrite int32_small by lia. split; [done|]. split; [done|lia].
Qed.

(** [Hash(key, buckets)] returns a bucket of [0, buckets), and 0 when
    [buckets <= 1] (a non-positive [buckets] counts as 1): the loop stops
    within [buckets] turns, [j] growing by at least 1 at each. *)
Theorem jump_Hash_in_range (key buckets : Z) :
  - 2 ^ 31 <= buckets < 2 ^ 31 ->
  exists b : Z,
    Hash key buckets = Ok b /\
    0 <= b < Z.max 1 buckets /\
    (buckets <= 1 -> b = 0).
Proof.
  intros Hb. destruct (jump_Hash_spec key buckets) as (b & _ & Hh & Hr); [lia|].
  exists b. split; [done|]. split; [done|]. lia.
Qed.

Lemma jump_Hash_loop_succ (fuel : nat) (key n b j v : Z) :
  0 <= j -> 0 <= n < 2 ^ 31 - 1 ->
  Hash_loop fuel key n b j = Ok v ->
  Hash_loop (S fuel) key (n + 1) b j = Ok v \/
  Hash_loop (S fuel) key (n + 1) b j = Ok n.
Proof.
  revert key b j. induction fuel as [|fuel IH]; intros key b j Hj Hn;
    [done|].
  cbn [Hash_loop].
  destruct (Z.ltb_spec j n) as [Hlt|Hge].
  - destruct (Z.ltb_spec j (n + 1)); [|lia].
    set (key' := uint64 (key * 2862933555777941757 + 1)).
    destruct (jump_to_grows j key') as [Hg1 Hg2];
      [lia|apply uint64_range|].
    intros Hrun. apply IH in Hrun; [|lia|lia]. exact Hrun.
  - intros [= <-].
    destruct (Z.ltb_spec j (n + 1)) as [Hlt|_]; [|by left].
    right. assert (j = n) as -> by lia.
    set (key' := uint64 (key * 2862933555777941757 + 1)).
    destruct (jump_to_grows n key') as [Hg1 Hg2];
      [lia|apply uint64_range|].
    destruct (Z.ltb_spec (jump_to n key') (n + 1)); [lia|done].
Qed.

(** One more bucket moves a key to the new bucket or leaves it where it
    was: [Hash(key, n + 1)] is [Hash(key, n)] or [n]. *)
Theorem jump_Hash_one_more_bucket (key n : Z) :
  1 <= n < 2 ^ 31 - 1 ->
  Hash key (n + 1) = Hash key n \/ Hash key (n + 1) = Ok n.
Proof.
  intros Hn.
  destruct (jump_Hash_spec key n) as (b & Hloop & Hh & Hr); [lia|].
  destruct (Z.leb_spec n 0) as [?|_]; [lia|].
  apply jump_Hash_loop_succ in Hloop; [|lia..].
  rewrite Hh. unfold Hash.
  destruct (Z.leb_spec (n + 1) 0) as [?|_]; [lia|].
  replace (S (Z.to_nat (n + 1))) with (S (S (Z.to_nat n))) by lia.
  destruct Hloop as [-> | ->]; cbn [mbind result_bind];
    rewrite int32_small by lia; [by left|by right].
Qed.

Context {K : Type} {KeyHashFunc_K : jump.KeyHashFunc K}.

Lemma int32_range (z : Z) : - 2 ^ 31 <= jump.int32 z < 2 ^ 31.
Proof.
  unfold jump.int32. pose proof (Z.mod_pos_bound z (2 ^ 32)).
  destruct (Z.ltb_spec (z mod 2 ^ 32) (2 ^ 31)); lia.
Qed.

Lemma int_signed (z : Z) : - 2 ^ 63 <= z < 2 ^ 63 -> int z = z.
Proof.
  intros Hz. unfold int.
  destruct (Z.lt_ge_cases z 0) as [Hneg|Hpos].
  - rewrite <- (Z.mod_add z 1 (2 ^ 64)) by lia.
    rewrite Z.mod_small by lia.
    destruct (Z.ltb_spec (z + 1 * 2 ^ 64) (2 ^ 63)); lia.
  - rewrite Z.mod_small by lia.
    destruct (Z.ltb_spec z (2 ^ 63)); lia.
Qed.

(** [New(n, h)] keeps [int32(n)], which [N()] returns ([n] itself when
    it is an [int32]), and [Hash(key)] on it leaves [N()] as it is and
    returns a bucket of [0, max(1, N())), or panics with the error of the
    write to the hash. *)
Theorem jump_HashFunc_Hash_in_range (n : Z) (k : K) (key : string) :
  N (New n k) = jump.int32 n /\
  (- 2 ^ 31 <= n < 2 ^ 31 -> N (New n k) = n) /\
  N (HashFunc_Hash (New n k) key).2 = N (New n k) /\
  ((exists e : string,
      (KeyHashFunc_Write (KeyHashFunc_Reset k) (bytes key)).2 = Some e /\
      (HashFunc_Hash (New n k) key).1 = Panic e) \/
   (exists b : Z,
      (KeyHashFunc_Write (KeyHashFunc_Reset k) (bytes key)).2 = None /\
      (HashFunc_Hash (New n k) key).1 = Ok b /\
      0 <= b < Z.max 1 (N (New n k)))).
Proof.
  pose proof (int32_range n) as Hr.
  assert (EN : N (New n k) = jump.int32 n).
  { unfold N, New. cbn [HashFunc_n]. apply int_signed. lia. }
  split; [done|]. split.
  { intros Hn. rewrite EN. unfold jump.int32.
    destruct (Z.lt_ge_cases n 0) as [Hneg|Hpos].
    - rewrite <- (Z.mod_add n 1 (2 ^ 32)) by lia.
      rewrite Z.mod_small by lia.
      destruct (Z.ltb_spec (n + 1 * 2 ^ 32) (2 ^ 31)); lia.
    - rewrite Z.mod_small by lia.
      destruct (Z.ltb_spec n (2 ^ 31)); lia. }
  unfold HashFunc_Hash, HashString, New. cbn [HashFunc_n HashFunc_h].
  destruct (KeyHashFunc_Write (KeyHashFunc_Reset k) (bytes key)) as [k' [e|]] eqn:Hw;
    cbn [fst snd].
  - split; [done|]. left. exists e. done.
  - destruct (jump_Hash_spec (uint64 (KeyHashFunc_Sum64 k')) (jump.int32 n))
      as (b & _ & Hh & Hb); [lia|].
    rewrite Hh. cbn [fst snd mbind result_bind]. split; [done|].
    right. exists b. rewrite int_signed by lia.
    split; [done|]. split; [done|]. fold (New n k). by rewrite EN.
Qed.

End JumpProperties.


(** * The properties on the configuration of the tests *)

#[local] Existing Instance exact64.

Lemma exact64_mono (x y : Q) : (x <= y)%Q -> (round64 x <= round64 y)%Q.
Proof. intros Hxy. exact Hxy. Qed.

Lemma exact64_zero : (round64 0 == 0)%Q.
Proof. reflexivity. Qed.

Lemma New_ring3 : New (Some node123) newConfig = Ok ring3.
Proof. vm_compute. reflexivity. Qed.

Lemma ring3_reachable : reachable ring3.
Proof.
  exists (Some node123), newConfig, [], ring3.
  split; [by vm_compute|]. split; [exact New_ring3|reflexivity].
Qed.

Lemma ring3_names (n : string) :
  is_Some (members ring3 !! n) ->
  n = "node1"%string \/ n = "node2"%string \/ n = "node3"%string.
Proof.
  intros [m Hm]. apply elem_of_map_to_list in Hm.
  remember (map_to_list (members ring3)) as l eqn:El.
  vm_compute in El. subst l.
  rewrite !elem_of_cons, elem_of_nil in Hm.
  destruct Hm as [Hm|[Hm|[Hm|Hm]]]; inversion Hm; auto.
Qed.

Lemma ring3_hash_injective (n1 n2 : string) :
  is_Some (members ring3 !! n1) -> is_Some (members ring3 !! n2) ->
  Sum64 ring3 (bytes n1) = Sum64 ring3 (bytes n2) -> n1 = n2.
Proof.
  intros H1 H2 E.
  apply ring3_names in H1 as [-> | [-> | ->]];
    apply ring3_names in H2 as [-> | [-> | ->]];
    try reflexivity; vm_compute in E; discriminate E.
Qed.

(** C1, the worked example: with [PartitionCount] 23, [Load] 1.25 and the
    three members, [AverageLoad()] is 9 (7 * 1.25 = 8.75, the quotient of
    23 by 3 being 7), where both formulas of the specification give 10. *)
Lemma AverageLoad_worked_example_is_9 :
  New (Some node123) newConfig = Ok ring3 /\
  len (members ring3) = 3 /\ partitionCount ring3 = 23 /\
  Load (config ring3) = (5 # 4)%Q /\
  AverageLoad ring3 = 9 /\
  spec_AverageLoad 23 3 (5 # 4) = 10 /\
  spec_loadBound 23 3 (5 # 4) = 10.
Proof. vm_compute. repeat split. Qed.

Lemma AverageLoad_floor_quotient_witness :
  0 <= partitionCount ring3 /\
  len (members ring3) < 2 ^ 63 /\
  (len (members ring3) = 0 -> AverageLoad ring3 = 0) /\
  (0 < len (members ring3) ->
   exists q : Z,
     q * len (members ring3) <= partitionCount ring3
     < (q + 1) * len (members ring3) /\
     AverageLoad ring3 = Qceiling (fmul (float64 q) (Load (config ring3))) /\
     (inject_Z (AverageLoad ring3 - 1)
      < fmul (float64 q) (Load (config ring3))
      <= inject_Z (AverageLoad ring3))%Q /\
     ((fmul (float64 q) (Load (config ring3))
       == inject_Z q * Load (config ring3))%Q ->
      AverageLoad ring3 = Qceiling (inject_Z q * Load (config ring3))%Q)).
Proof.
  assert (H1 : 0 <= partitionCount ring3) by (by vm_compute).
  assert (H2 : len (members ring3) < 2 ^ 63) by (by vm_compute).
  split; [exact H1|]. split; [exact H2|].
  exact (AverageLoad_floor_quotient ring3 H1 H2).
Defined.

Lemma distributePartitions_load_bound_witness :
  0 <= partitionCount ring3 /\
  0 < len (members ring3) < 2 ^ 63 /\
  distributePartitions ring3 = Ok ring3 /\
  (forall name : string,
     load_of (loads ring3) name <= AverageLoad ring3 /\
     load_of (loads ring3) name
     <= spec_loadBound (partitionCount ring3) (len (members ring3))
          (Load (config ring3))) /\
  totalLoad (loads ring3) = partitionCount ring3.
Proof.
  assert (H1 : 0 <= partitionCount ring3) by (by vm_compute).
  assert (H2 : 0 < len (members ring3) < 2 ^ 63) by (by vm_compute).
  assert (H3 : distributePartitions ring3 = Ok ring3)
    by (vm_compute; reflexivity).
  split; [exact H1|]. split; [exact H2|]. split; [exact H3|].
  exact (distributePartitions_load_bound exact64_mono exact64_zero
           ring3 ring3 H1 H2 H3).
Defined.

Lemma Remove_node2_ring3 : Remove "node2" ring3 = Ok ring3_less_node2.
Proof. vm_compute. reflexivity. Qed.

Lemma ring3_less_node2_reachable : reachable ring3_less_node2.
Proof.
  exists (Some node123), newConfig, [OpRemove "node2"%string],
    ring3.
  split; [by vm_compute|]. split; [exact New_ring3|].
  vm_compute. reflexivity.
Qed.

Lemma ring3_less_node2_members : members ring3_less_node2 <> ∅.
Proof.
  intros E. apply (f_equal (fun m => m !! "node1"%string)) in E.
  vm_compute in E. discriminate E.
Qed.

(** C2, on the code: with one virtual node the probe panics before it
    reads the node, whose owner has room for all 23 partitions, and so
    [New] of one member with [ReplicationFactor] 1 panics; with two
    virtual nodes, once the owner of the first is full (3 of the 4
    partitions, the average load being 3) the probe of the last partition
    panics without reading the second node, whose owner has no partition
    yet. *)
Lemma probe_panics_with_room_left :
  (exists (c : Consistent string testHashFunc) (h : Z),
     c = add "node1"%string
           (newConsistent hashFunc_value (withDefaults (oneReplica 23))) /\
     sortedSet c = [h] /\ ring c !! h = Some "node1"%string /\
     searchIdx c 0 = 0 /\
     load_of ∅ "node1" + 1 = 1 /\ averageLoad c = 29 /\
     distributeWithLoad c 0 (searchIdx c 0) ∅ ∅ = Panic panic_no_room /\
     New (M := string) (Some ["node1"%string]) (oneReplica 23)
     = Panic panic_no_room) /\
  (exists h1 h2 : Z,
     twoNodes
     = foldl (fun c member => add member c)
         (newConsistent hashFunc_value (withDefaults (oneReplica 4)))
         ["node1"; "node2"]%string /\
     sortedSet twoNodes = [h2; h1] /\
     ring twoNodes !! h1 = Some "node1"%string /\
     ring twoNodes !! h2 = Some "node2"%string /\
     averageLoad twoNodes = 3 /\
     distributeFrom twoNodes [0; 1; 2] ∅ ∅ = Ok twoNodes_tables /\
     load_of twoNodes_tables.2 "node2" = 3 /\
     load_of twoNodes_tables.2 "node1" = 0 /\
     searchIdx twoNodes 3 = 0 /\
     distributeWithLoad twoNodes 3 (searchIdx twoNodes 3)
       twoNodes_tables.1 twoNodes_tables.2 = Panic panic_no_room /\
     New (M := string) (Some ["node1"; "node2"]%string) (oneReplica 4)
     = Panic panic_no_room).
Proof.
  split.
  - do 2 eexists. split; [reflexivity|].
    split; [vm_compute; reflexivity|]. vm_compute. repeat split.
  - do 2 eexists. split; [vm_compute; reflexivity|].
    split; [vm_compute; reflexivity|]. vm_compute. repeat split.
Qed.

(** C4, on the code: after [New] with ["node1"] and [Add] of ["node2"],
    with two partitions (and an average load of 2), both partitions are
    with ["node2"], and ["node1"], a member, has no entry in the load
    table.  This is so with the hash of the tests, and with the hash that
    is 0 everywhere, where every probe starts at index 0 and [ring[0]] is
    the member added last. *)
Lemma load_table_misses_idle_member :
  (exists c0 c : Consistent string testHashFunc,
     New (Some ["node1"%string]) twoPartitions = Ok c0 /\
     run [OpAdd "node2"%string] c0 = Ok c /\
     members c !! "node1"%string = Some "node1"%string /\
     members c !! "node2"%string = Some "node2"%string /\
     AverageLoad c = 2 /\
     partitions c !! 0 = Some "node2"%string /\
     partitions c !! 1 = Some "node2"%string /\
     loads c !! "node2"%string = Some 2 /\
     loads c !! "node1"%string = None) /\
  (exists c0 c : Consistent string zeroHashFunc,
     New (Some ["node1"%string]) twoPartitionsZero = Ok c0 /\
     run [OpAdd "node2"%string] c0 = Ok c /\
     members c !! "node1"%string = Some "node1"%string /\
     members c !! "node2"%string = Some "node2"%string /\
     AverageLoad c = 2 /\
     ring c !! 0 = Some "node2"%string /\
     partitions c !! 0 = Some "node2"%string /\
     partitions c !! 1 = Some "node2"%string /\
     loads c !! "node2"%string = Some 2 /\
     loads c !! "node1"%string = None).
Proof.
  split.
  - do 2 eexists. split; [vm_compute; reflexivity|].
    split; [vm_compute; reflexivity|]. vm_compute. repeat split.
  - do 2 eexists. split; [vm_compute; reflexivity|].
    split; [vm_compute; reflexivity|]. vm_compute. repeat split.
Qed.

Lemma tables_after_membership_changes_witness :
  reachable ring3_less_node2 /\
  members ring3_less_node2 <> ∅ /\
  (forall p : Z, 0 <= p < partitionCount ring3_less_node2 ->
     exists m : string,
       partitions ring3_less_node2 !! p = Some m /\
       members ring3_less_node2 !! Member_String m = Some m) /\
  (forall p : Z, is_Some (partitions ring3_less_node2 !! p) ->
     0 <= p < partitionCount ring3_less_node2) /\
  (forall name : string,
     is_Some (loads ring3_less_node2 !! name) <->
     exists (p : Z) (m : string),
       partitions ring3_less_node2 !! p = Some m /\
       Member_String m = name) /\
  (forall name : string,
     is_Some (loads ring3_less_node2 !! name) ->
     is_Some (members ring3_less_node2 !! name)) /\
  (forall name : string,
     load_of (loads ring3_less_node2) name
     = owned (partitions ring3_less_node2) name).
Proof.
  split; [exact ring3_less_node2_reachable|].
  split; [exact ring3_less_node2_members|].
  exact (tables_after_membership_changes ring3_less_node2
           ring3_less_node2_reachable ring3_less_node2_members).
Defined.

(** C5, on the code: after [New] with ["node1"] alone and
    [Remove("node1")], no member and no partition entry are left, and the
    load table still gives ["node1"] its 23 partitions, as
    [LoadDistribution] reports; adding ["node2"] afterwards rebuilds both
    tables, with the 23 partitions at ["node2"]. *)
Lemma Remove_last_member_keeps_load_table :
  members ring1 = {["node1"%string := "node1"%string]} /\
  loads ring1 = {["node1"%string := 23]} /\
  exists c' c'' : Consistent string testHashFunc,
    Remove "node1" ring1 = Ok c' /\
    members c' = ∅ /\ partitions c' = ∅ /\ sortedSet c' = [] /\
    loads c' = {["node1"%string := 23]} /\
    LoadDistribution c' !! "node1"%string = Some 23 /\
    AverageLoad c' = 0 /\
    Add "node2"%string c' = Ok c'' /\
    members c'' = {["node2"%string := "node2"%string]} /\
    loads c'' = {["node2"%string := 23]} /\
    size (partitions c'') = 23%nat.
Proof.
  split; [vm_compute; reflexivity|]. split; [vm_compute; reflexivity|].
  do 2 eexists. split; [vm_compute; reflexivity|].
  do 6 (split; [vm_compute; reflexivity|]).
  split; [vm_compute; reflexivity|]. vm_compute. repeat split.
Qed.

Lemma Add_present_Remove_absent_unchanged_witness :
  Add "node1"%string ring3 = Ok ring3 /\
  Remove "node4" ring3 = Ok ring3 /\
  (forall c1 : Consistent string testHashFunc,
     Add "node4"%string ring3 = Ok c1 -> Add "node4"%string c1 = Ok c1).
Proof.
  pose proof (Add_present_Remove_absent_unchanged ring3 "node1"%string
                "node4"%string) as [Hadd [Hremove _]].
  pose proof (Add_present_Remove_absent_unchanged ring3 "node4"%string
                "node4"%string) as [_ [_ Htwice]].
  split; [apply Hadd; vm_compute; eauto|].
  split; [apply Hremove; vm_compute; reflexivity|].
  intros c1 Hc1. by apply Htwice.
Defined.

Lemma GetClosestN_distinct_members_witness :
  reachable ring3 /\
  reverse (map_to_list (members ring3)) ≡ₚ map_to_list (members ring3) /\
  GetClosestN ring3 (reverse (map_to_list (members ring3))) (bytes "key") 2
  = Ok (["node2"; "node1"]%string, None) /\
  ((exists res : list string,
      GetClosestN ring3 (reverse (map_to_list (members ring3)))
        (bytes "key") 2
      = Ok (res, Some ErrInsufficientMemberCount))
   <-> len (members ring3) < 2) /\
  ((exists res : list string,
      GetClosestNForPartition ring3 (reverse (map_to_list (members ring3)))
        5 2
      = Ok (res, Some ErrInsufficientMemberCount))
   <-> len (members ring3) < 2) /\
  (1 <= 2 <= len (members ring3) ->
   exists (res : list string) (owner : string),
     GetClosestN ring3 (reverse (map_to_list (members ring3)))
       (bytes "key") 2 = Ok (res, None) /\
     Z.of_nat (length res) = 2 /\
     NoDup (Member_String <$> res) /\
     (forall m : string,
        m ∈ res -> members ring3 !! Member_String m = Some m) /\
     LocateKey ring3 (bytes "key") = Ok (Some owner) /\
     head res = Some owner) /\
  (1 <= 2 <= len (members ring3) ->
   0 <= 5 < partitionCount ring3 ->
   exists (res : list string) (owner : string),
     GetClosestNForPartition ring3 (reverse (map_to_list (members ring3)))
       5 2 = Ok (res, None) /\
     Z.of_nat (length res) = 2 /\
     NoDup (Member_String <$> res) /\
     (forall m : string,
        m ∈ res -> members ring3 !! Member_String m = Some m) /\
     GetPartitionOwner ring3 5 = Some owner /\
     head res = Some owner).
Proof.
  split; [exact ring3_reachable|].
  split; [apply reverse_Permutation|].
  split; [vm_compute; reflexivity|].
  exact (GetClosestN_distinct_members ring3
           (reverse (map_to_list (members ring3))) (bytes "key") 5 2
           ring3_reachable (reverse_Permutation _) ring3_hash_injective).
Defined.

Lemma GetPartitionOwner_LocateKey_witness :
  reachable ring3 /\
  LocateKey ring3 (bytes "key") = Ok (Some "node2"%string) /\
  (forall (partID : Z) (m : string),
     partitions ring3 !! partID = Some m ->
     GetPartitionOwner ring3 partID = Some m) /\
  (forall partID : Z,
     partitions ring3 !! partID = None ->
     GetPartitionOwner ring3 partID = None) /\
  (members ring3 = ∅ ->
   forall partID : Z, GetPartitionOwner ring3 partID = None) /\
  (forall key : list byte,
     LocateKey ring3 key
     = FindPartitionID ring3 key
         ≫= fun partID => Ok (GetPartitionOwner ring3 partID)) /\
  (forall key : list byte,
     FindPartitionID ring3 key
     = Ok (Sum64 ring3 key mod partitionCount ring3) /\
     LocateKey ring3 key
     = Ok (GetPartitionOwner ring3
             (Sum64 ring3 key mod partitionCount ring3))).
Proof.
  split; [exact ring3_reachable|].
  split; [vm_compute; reflexivity|].
  exact (GetPartitionOwner_LocateKey ring3 ring3_reachable).
Defined.

Lemma New_empty_slice_panics_nil_slice_builds_witness :
  HashFunc newConfig = Some hashFunc_value /\
  - 2 ^ 63 <= PartitionCount newConfig < 2 ^ 63 /\
  New (M := string) (Some []) newConfig = Panic panic_no_room /\
  exists c : Consistent string testHashFunc,
    New None newConfig = Ok c /\
    sortedSet c = [] /\ ring c = ∅ /\ members c = ∅ /\
    partitions c = ∅ /\ loads c = ∅ /\
    0 < partitionCount c /\
    distributeWithLoad c (int 0) (searchIdx c 0) ∅ ∅ = Panic panic_no_room /\
    distributePartitions c = Panic panic_no_room.
Proof.
  assert (H1 : HashFunc newConfig = Some hashFunc_value) by reflexivity.
  assert (H2 : - 2 ^ 63 <= PartitionCount newConfig < 2 ^ 63)
    by (by vm_compute).
  split; [exact H1|]. split; [exact H2|].
  exact (New_empty_slice_panics_nil_slice_builds (M := string)
           newConfig hashFunc_value H1 H2).
Defined.

Lemma New_keeps_duplicate_members_witness :
  exists c : Consistent string testHashFunc,
    New (Some ["node1"; "node1"]%string)
      (mkConfig (Some hashFunc_value) 4 2 (5 # 4)) = Ok c /\
    sortedSet c = [17863518675787415482; 17863518675787415482;
                   17863518675787415483; 17863518675787415483] /\
    0 <= 0 < ReplicationFactor (config c) /\
    (length (filter (fun m => Member_String m = "node1"%string)
               ["node1"; "node1"]%string)
     <= length (filter (fun x => x = vnode c "node1" 0) (sortedSet c)))%nat /\
    ((2 <= length (filter (fun m => Member_String m = "node1"%string)
                     ["node1"; "node1"]%string))%nat ->
     ~ NoDup (sortedSet c)) /\
    ((1 <= length (filter (fun m => Member_String m = "node1"%string)
                     ["node1"; "node1"]%string))%nat ->
     exists m : string,
       m ∈ ["node1"; "node1"]%string /\ Member_String m = "node1"%string /\
       members c !! "node1"%string = Some m).
Proof.
  eexists. split; [vm_compute; reflexivity|].
  split; [vm_compute; reflexivity|].
  split; [by vm_compute|].
  refine (New_keeps_duplicate_members
            (Some ["node1"; "node1"]%string)
            (mkConfig (Some hashFunc_value) 4 2 (5 # 4)) _ "node1"%string 0
            _ _).
  - vm_compute. reflexivity.
  - by vm_compute.
Defined.

Lemma ring1_reachable : reachable ring1.
Proof.
  exists (Some ["node1"%string]), newConfig, [], ring1.
  split; [by vm_compute|]. split; [vm_compute; reflexivity|reflexivity].
Qed.

Lemma Remove_sole_member_witness :
  reachable ring1 /\
  members ring1 = {["node1"%string := "node1"%string]} /\
  exists c' : Consistent string testHashFunc,
    Remove "node1" ring1 = Ok c' /\
    members c' = ∅ /\ partitions c' = ∅ /\ loads c' = loads ring1 /\
    forall (member : string) (c'' : Consistent string testHashFunc),
      Add member c' = Ok c'' ->
      members c'' = {[Member_String member := member]} /\
      (forall p : Z, 0 <= p < partitionCount c'' ->
         partitions c'' !! p = Some member) /\
      (forall p : Z, is_Some (partitions c'' !! p) ->
         0 <= p < partitionCount c'') /\
      loads c'' = {[Member_String member := partitionCount c'']}.
Proof.
  assert (Hsole : members ring1 = {["node1"%string := "node1"%string]})
    by (vm_compute; reflexivity).
  split; [exact ring1_reachable|]. split; [exact Hsole|].
  exact (Remove_sole_member ring1 "node1"%string "node1"%string
           ring1_reachable Hsole).
Defined.

Lemma twoNodes_first_node_full (t : nat) :
  (t < 1)%nat ->
  exists (h' : Z) (m' : string),
    sortedSet twoNodes
      !! Z.to_nat ((0 + Z.of_nat t)
                   mod Z.of_nat (length (sortedSet twoNodes))) = Some h' /\
    ring twoNodes !! h' = Some m' /\
    averageLoad twoNodes < load_of twoNodes_tables.2 (Member_String m') + 1.
Proof.
  intros Ht. assert (t = 0%nat) as -> by lia.
  do 2 eexists. split; [vm_compute; reflexivity|].
  split; [vm_compute; reflexivity|]. by vm_compute.
Qed.

Lemma distributeWithLoad_first_fit_witness :
  0 <= 0 < Z.of_nat (length (sortedSet twoNodes)) /\
  (Z.of_nat 1 + 1 = Z.of_nat (length (sortedSet twoNodes)) ->
   distributeWithLoad twoNodes 3 0 twoNodes_tables.1 twoNodes_tables.2
   = Panic panic_no_room) /\
  (forall (h : Z) (m : string),
     Z.of_nat 1 + 1 < Z.of_nat (length (sortedSet twoNodes)) ->
     sortedSet twoNodes
       !! Z.to_nat ((0 + Z.of_nat 1)
                    mod Z.of_nat (length (sortedSet twoNodes))) = Some h ->
     ring twoNodes !! h = Some m ->
     load_of twoNodes_tables.2 (Member_String m) + 1
     <= averageLoad twoNodes ->
     distributeWithLoad twoNodes 3 0 twoNodes_tables.1 twoNodes_tables.2
     = Ok (<[3 := m]> twoNodes_tables.1,
           <[Member_String m
             := load_of twoNodes_tables.2 (Member_String m) + 1]>
             twoNodes_tables.2)).
Proof.
  assert (Hidx : 0 <= 0 < Z.of_nat (length (sortedSet twoNodes)))
    by (by vm_compute).
  split; [exact Hidx|].
  exact (distributeWithLoad_first_fit twoNodes 3 0 twoNodes_tables.1
           twoNodes_tables.2 1 Hidx twoNodes_first_node_full).
Defined.

Lemma sortedSet_ascending_covers_ring_witness :
  reachable ring3_less_node2 /\
  StronglySorted Z.le (sortedSet ring3_less_node2) /\
  forall h : Z,
    is_Some (ring ring3_less_node2 !! h) -> h ∈ sortedSet ring3_less_node2.
Proof.
  split; [exact ring3_less_node2_reachable|].
  exact (sortedSet_ascending_covers_ring ring3_less_node2
           ring3_less_node2_reachable).
Defined.

Lemma searchIdx_first_at_or_after_witness :
  reachable ring3 /\
  searchIdx ring3 5 = 30 /\
  ((forall h : Z, h ∈ sortedSet ring3 -> h < Sum64 ring3 (PutUint64 5)) ->
   searchIdx ring3 5 = 0) /\
  (forall (i : nat) (h : Z),
     sortedSet ring3 !! i = Some h ->
     Sum64 ring3 (PutUint64 5) <= h ->
     (forall (j : nat) (h' : Z),
        (j < i)%nat -> sortedSet ring3 !! j = Some h' ->
        h' < Sum64 ring3 (PutUint64 5)) ->
     searchIdx ring3 5 = Z.of_nat i).
Proof.
  split; [exact ring3_reachable|].
  split; [vm_compute; reflexivity|].
  exact (searchIdx_first_at_or_after ring3 5 ring3_reachable).
Defined.


(** ** More on the configuration of the tests *)

Lemma newConfig_range : 0 <= PartitionCount newConfig < 2 ^ 63.
Proof. by vm_compute. Qed.

Lemma ring3_members : members ring3 <> ∅.
Proof.
  intros E. assert (Hm : members ring3 !! "node1"%string = None)
    by (rewrite E; apply lookup_empty).
  vm_compute in Hm. discriminate Hm.
Qed.

Lemma FindPartitionID_fixed_by_membership_witness :
  0 <= PartitionCount newConfig < 2 ^ 63 /\
  New (Some node123) newConfig = Ok ring3 /\
  run [OpRemove "node2"%string] ring3 = Ok ring3_less_node2 /\
  FindPartitionID ring3_less_node2 (bytes "key") = Ok 9 /\
  partitionCount ring3_less_node2
  = (if PartitionCount newConfig =? 0 then DefaultPartitionCount
     else PartitionCount newConfig) /\
  FindPartitionID ring3_less_node2 (bytes "key")
  = FindPartitionID ring3 (bytes "key") /\
  exists p : Z,
    FindPartitionID ring3_less_node2 (bytes "key") = Ok p /\
    0 <= p < partitionCount ring3_less_node2 /\
    p = Sum64 ring3 (bytes "key") mod partitionCount ring3_less_node2.
Proof.
  assert (Hrun : run [OpRemove "node2"%string] ring3 = Ok ring3_less_node2)
    by (vm_compute; reflexivity).
  split; [exact newConfig_range|]. split; [exact New_ring3|].
  split; [exact Hrun|]. split; [vm_compute; reflexivity|].
  exact (FindPartitionID_fixed_by_membership (Some node123) newConfig
           [OpRemove "node2"%string] ring3 ring3_less_node2 (bytes "key")
           newConfig_range New_ring3 Hrun).
Defined.

Lemma GetMembers_current_members_witness :
  reachable ring3 /\
  map_to_list (members ring3) ≡ₚ map_to_list (members ring3) /\
  GetMembers ring3 (map_to_list (members ring3))
  = ["node3"; "node1"; "node2"]%string /\
  Z.of_nat (length (GetMembers ring3 (map_to_list (members ring3))))
  = len (members ring3) /\
  NoDup (Member_String <$> GetMembers ring3 (map_to_list (members ring3))) /\
  (forall m : string,
     m ∈ GetMembers ring3 (map_to_list (members ring3))
     <-> members ring3 !! Member_String m = Some m) /\
  (forall name : string,
     name ∈ Member_String <$> GetMembers ring3 (map_to_list (members ring3))
     <-> is_Some (members ring3 !! name)).
Proof.
  split; [exact ring3_reachable|]. split; [reflexivity|].
  split; [vm_compute; reflexivity|].
  exact (GetMembers_current_members ring3 (map_to_list (members ring3))
           ring3_reachable (reflexivity _)).
Defined.

Lemma member_map_after_New_Add_Remove_witness :
  New (Some node123) newConfig = Ok ring3 /\
  Add "node2"%string ring3_less_node2 = Ok ring3 /\
  Remove "node2"%string ring3 = Ok ring3_less_node2 /\
  members ring3 !! "node2"%string
  = last (filter (fun m => Member_String m = "node2"%string)
            (default [] (Some node123))) /\
  members ring3
  = match members ring3_less_node2 !! Member_String "node2"%string with
    | Some _ => members ring3_less_node2
    | None => <[Member_String "node2"%string := "node2"%string]>
                (members ring3_less_node2)
    end /\
  members ring3_less_node2 = delete "node2"%string (members ring3).
Proof.
  assert (Hadd : Add "node2"%string ring3_less_node2 = Ok ring3)
    by (vm_compute; reflexivity).
  split; [exact New_ring3|]. split; [exact Hadd|].
  split; [exact Remove_node2_ring3|].
  destruct (member_map_after_New_Add_Remove
              (M := string) (HF := testHashFunc)) as (HNew & HAdd & HRemove).
  split; [exact (HNew _ _ _ "node2"%string New_ring3)|].
  split; [exact (HAdd _ _ _ Hadd)|].
  exact (HRemove _ _ _ Remove_node2_ring3).
Defined.

Lemma Remove_leaves_nothing_to_the_name_witness :
  reachable ring3 /\
  Remove "node2"%string ring3 = Ok ring3_less_node2 /\
  members ring3_less_node2 !! "node2"%string = None /\
  (forall name' : string,
     name' <> "node2"%string ->
     members ring3_less_node2 !! name' = members ring3 !! name') /\
  (forall (h : Z) (m : string),
     ring ring3_less_node2 !! h = Some m ->
     Member_String m <> "node2"%string) /\
  (forall (p : Z) (m : string),
     partitions ring3_less_node2 !! p = Some m ->
     Member_String m <> "node2"%string) /\
  (forall (key : list byte) (m : string),
     LocateKey ring3_less_node2 key = Ok (Some m) ->
     Member_String m <> "node2"%string) /\
  (forall (order : list (string * string)) (partID count : Z)
          (res : list string) (err : option error),
     order ≡ₚ map_to_list (members ring3_less_node2) ->
     getClosestN ring3_less_node2 order partID count = Ok (res, err) ->
     "node2"%string ∉ Member_String <$> res) /\
  (members ring3_less_node2 <> ∅ ->
   loads ring3_less_node2 !! "node2"%string = None).
Proof.
  split; [exact ring3_reachable|]. split; [exact Remove_node2_ring3|].
  exact (Remove_leaves_nothing_to_the_name ring3 ring3_less_node2
           "node2"%string ring3_reachable Remove_node2_ring3).
Defined.

Lemma getClosestN_edge_cases_witness :
  reachable ring3 /\
  map_to_list (members ring3) ≡ₚ map_to_list (members ring3) /\
  getClosestN ring3 (map_to_list (members ring3)) 0 0
  = Ok (["node3"]%string, None) /\
  getClosestN ring3 (map_to_list (members ring3)) 23 1
  = Panic panic_nil_deref /\
  (members ring3 = ∅ -> 0 <= 0 ->
   getClosestN ring3 (map_to_list (members ring3)) 0 0 = Ok ([], None)) /\
  (members ring3 = ∅ -> 1 <= 0 ->
   getClosestN ring3 (map_to_list (members ring3)) 0 0
   = Ok ([], Some ErrInsufficientMemberCount)) /\
  (members ring3 <> ∅ -> 0 <= len (members ring3) ->
   ~ 0 <= 0 < partitionCount ring3 ->
   getClosestN ring3 (map_to_list (members ring3)) 0 0
   = Panic panic_nil_deref) /\
  (members ring3 <> ∅ -> 0 <= 0 -> 0 <= 0 < partitionCount ring3 ->
   exists owner : string,
     getPartitionOwner ring3 0 = Some owner /\
     getClosestN ring3 (map_to_list (members ring3)) 0 0
     = Ok ([owner], None)).
Proof.
  split; [exact ring3_reachable|]. split; [reflexivity|].
  split; [vm_compute; reflexivity|]. split; [vm_compute; reflexivity|].
  exact (getClosestN_edge_cases ring3 (map_to_list (members ring3)) 0 0
           ring3_reachable (reflexivity _) ring3_hash_injective).
Defined.

Lemma tables_are_those_of_a_fresh_pass_witness :
  reachable ring3 /\
  members ring3 <> ∅ /\
  distributePartitions ring3 = Ok ring3 /\
  forall c' : Consistent string testHashFunc,
    reachable c' ->
    config c' = config ring3 -> hashFunc c' = hashFunc ring3 ->
    partitionCount c' = partitionCount ring3 ->
    sortedSet c' = sortedSet ring3 -> ring c' = ring ring3 ->
    members c' = members ring3 ->
    c' = ring3.
Proof.
  split; [exact ring3_reachable|]. split; [exact ring3_members|].
  exact (tables_are_those_of_a_fresh_pass ring3 ring3_reachable ring3_members).
Defined.

Lemma sortedSet_is_the_members_virtual_nodes_witness :
  NoDup (Member_String <$> default [] (Some node123)) /\
  New (Some node123) newConfig = Ok ring3 /\
  run [OpRemove "node2"%string] ring3 = Ok ring3_less_node2 /\
  length (sortedSet ring3_less_node2) = 40%nat /\
  sortedSet ring3_less_node2
  ≡ₚ (map_to_list (members ring3_less_node2)).*1 ≫= vnodes ring3_less_node2 /\
  Z.of_nat (length (sortedSet ring3_less_node2))
  = Z.max 0 (ReplicationFactor (config ring3_less_node2))
    * len (members ring3_less_node2).
Proof.
  assert (Hnd : NoDup (Member_String <$> default [] (Some node123)))
    by (apply (bool_decide_unpack _); vm_compute; exact I).
  assert (Hrun : run [OpRemove "node2"%string] ring3 = Ok ring3_less_node2)
    by (vm_compute; reflexivity).
  split; [exact Hnd|]. split; [exact New_ring3|]. split; [exact Hrun|].
  split; [vm_compute; reflexivity|].
  exact (sortedSet_is_the_members_virtual_nodes (Some node123) newConfig
           [OpRemove "node2"%string] ring3 ring3_less_node2
           Hnd New_ring3 Hrun).
Defined.

Lemma state_depends_only_on_the_members_witness :
  0 <= PartitionCount newConfig < 2 ^ 63 /\
  NoDup (Member_String <$> default [] (Some node123)) /\
  NoDup (Member_String <$> default [] (Some ["node3"; "node1"]%string)) /\
  history_names (Some node123) [] ⊆ node123 /\
  history_names (Some ["node3"; "node1"]%string) [OpAdd "node2"%string]
  ⊆ node123 /\
  NoDup (node123 ≫= vnodes ring3) /\
  New (Some node123) newConfig = Ok ring3 /\
  run [] ring3 = Ok ring3 /\
  New (Some ["node3"; "node1"]%string) newConfig = Ok ring31 /\
  run [OpAdd "node2"%string] ring31 = Ok ring3 /\
  members ring3 = members ring3 /\
  members ring3 <> ∅ /\
  ring3 = ring3.
Proof.
  assert (Hnd1 : NoDup (Member_String <$> default [] (Some node123)))
    by (apply (bool_decide_unpack _); vm_compute; exact I).
  assert (Hnd2 : NoDup (Member_String
                          <$> default [] (Some ["node3"; "node1"]%string)))
    by (apply (bool_decide_unpack _); vm_compute; exact I).
  assert (HU1 : history_names (Some node123) [] ⊆ node123)
    by (apply (bool_decide_unpack _); vm_compute; exact I).
  assert (HU2 : history_names (Some ["node3"; "node1"]%string)
                  [OpAdd "node2"%string] ⊆ node123)
    by (apply (bool_decide_unpack _); vm_compute; exact I).
  assert (Hinj : NoDup (node123 ≫= vnodes ring3))
    by (apply (bool_decide_unpack _); vm_compute; exact I).
  assert (Hnew2 : New (Some ["node3"; "node1"]%string) newConfig = Ok ring31)
    by (vm_compute; reflexivity).
  assert (Hrun2 : run [OpAdd "node2"%string] ring31 = Ok ring3)
    by (vm_compute; reflexivity).
  repeat (split; [first [exact newConfig_range | assumption
                         | exact New_ring3 | reflexivity
                         | exact ring3_members]|]).
  exact (state_depends_only_on_the_members node123 newConfig
           (Some node123) (Some ["node3"; "node1"]%string)
           [] [OpAdd "node2"%string] ring3 ring31 ring3 ring3
           newConfig_range Hnd1 Hnd2 HU1 HU2 Hinj New_ring3 eq_refl
           Hnew2 Hrun2 eq_refl ring3_members).
Defined.

Lemma Add_then_Remove_restores_witness :
  reachable ring3_less_node2 /\
  members ring3_less_node2 <> ∅ /\
  members ring3_less_node2 !! Member_String "node2"%string = None /\
  (forall h : Z,
     h ∈ vnodes ring3_less_node2 (Member_String "node2"%string) ->
     ring ring3_less_node2 !! h = None) /\
  Add "node2"%string ring3_less_node2 = Ok ring3 /\
  Remove (Member_String "node2"%string) ring3 = Ok ring3_less_node2.
Proof.
  assert (Hfresh : members ring3_less_node2 !! Member_String "node2"%string
                   = None) by (vm_compute; reflexivity).
  assert (Hfree : forall h : Z,
            h ∈ vnodes ring3_less_node2 (Member_String "node2"%string) ->
            ring ring3_less_node2 !! h = None).
  { apply Forall_forall. apply (bool_decide_unpack _). vm_compute. exact I. }
  assert (Hadd : Add "node2"%string ring3_less_node2 = Ok ring3)
    by (vm_compute; reflexivity).
  split; [exact ring3_less_node2_reachable|].
  split; [exact ring3_less_node2_members|].
  split; [exact Hfresh|]. split; [exact Hfree|]. split; [exact Hadd|].
  exact (Add_then_Remove_restores ring3_less_node2 ring3 "node2"%string
           ring3_less_node2_reachable ring3_less_node2_members
           Hfresh Hfree Hadd).
Defined.

Lemma capacity_covers_partitions_witness :
  reachable ring3 /\
  members ring3 <> ∅ /\
  AverageLoad ring3 = 9 /\
  New (Some node123) loadOne = Panic panic_no_room /\
  1 <= AverageLoad ring3 /\
  partitionCount ring3 <= len (members ring3) * AverageLoad ring3 /\
  forall (member : string) (c' : Consistent string testHashFunc),
    members ring3 !! Member_String member = None ->
    Add member ring3 = Ok c' ->
    partitionCount ring3 <= (len (members ring3) + 1) * AverageLoad c'.
Proof.
  split; [exact ring3_reachable|]. split; [exact ring3_members|].
  split; [vm_compute; reflexivity|]. split; [vm_compute; reflexivity|].
  exact (capacity_covers_partitions ring3 ring3_reachable ring3_members).
Defined.

Lemma virtual_node_keys_coincide_witness :
  NoDup (Member_String <$> default [] (Some ["node1"; "node11"]%string)) /\
  New (Some ["node1"; "node11"]%string) newConfig = Ok ring_1_11 /\
  run [] ring_1_11 = Ok ring_1_11 /\
  is_Some (members ring_1_11 !! "node1"%string) /\
  is_Some (members ring_1_11 !! ("node1" ++ "1")%string) /\
  10 < ReplicationFactor (config ring_1_11) /\
  ring ring_1_11 !! vnode ring_1_11 "node1" 10 = Some "node11"%string /\
  Remove "node1" ring_1_11 = Panic panic_nil_deref /\
  Sprintf_sd ("node1" ++ "1") 0 = Sprintf_sd "node1" 10 /\
  vnode ring_1_11 ("node1" ++ "1") 0 = vnode ring_1_11 "node1" 10 /\
  ~ NoDup (sortedSet ring_1_11).
Proof.
  assert (Hnd : NoDup (Member_String
                         <$> default [] (Some ["node1"; "node11"]%string)))
    by (apply (bool_decide_unpack _); vm_compute; exact I).
  assert (HR : 10 < ReplicationFactor (config ring_1_11)) by (by vm_compute).
  assert (H1 : is_Some (members ring_1_11 !! "node1"%string))
    by (vm_compute; eauto).
  assert (H11 : is_Some (members ring_1_11 !! ("node1" ++ "1")%string))
    by (vm_compute; eauto).
  assert (Hnew : New (Some ["node1"; "node11"]%string) newConfig
                 = Ok ring_1_11) by (vm_compute; reflexivity).
  split; [exact Hnd|]. split; [exact Hnew|]. split; [reflexivity|].
  split; [exact H1|]. split; [exact H11|]. split; [exact HR|].
  split; [vm_compute; reflexivity|]. split; [vm_compute; reflexivity|].
  exact (virtual_node_keys_coincide (Some ["node1"; "node11"]%string)
           newConfig [] ring_1_11 ring_1_11 "node1"%string
           Hnd Hnew eq_refl H1 H11 HR).
Defined.

Lemma New_panics_on_short_ring_witness :
  HashFunc (oneReplica 23) = Some hashFunc_value /\
  - 2 ^ 63 <= PartitionCount (oneReplica 23) < 2 ^ 63 /\
  Z.max 0 (if ReplicationFactor (oneReplica 23) =? 0
           then DefaultReplicationFactor
           else ReplicationFactor (oneReplica 23))
  * Z.of_nat (length ["node1"%string]) <= 1 /\
  New (Some ["node1"%string]) (oneReplica 23) = Panic panic_no_room.
Proof.
  assert (H2 : - 2 ^ 63 <= PartitionCount (oneReplica 23) < 2 ^ 63)
    by (by vm_compute).
  assert (H3 : Z.max 0 (if ReplicationFactor (oneReplica 23) =? 0
                        then DefaultReplicationFactor
                        else ReplicationFactor (oneReplica 23))
               * Z.of_nat (length ["node1"%string]) <= 1)
    by (by vm_compute).
  split; [reflexivity|]. split; [exact H2|]. split; [exact H3|].
  exact (New_panics_on_short_ring ["node1"%string] (oneReplica 23)
           hashFunc_value eq_refl H2 H3).
Defined.

Lemma getClosestN_independent_of_map_order_witness :
  map_to_list (members ring3) ≡ₚ map_to_list (members ring3) /\
  reverse (map_to_list (members ring3)) ≡ₚ map_to_list (members ring3) /\
  getClosestN ring3 (map_to_list (members ring3)) 5 2
  = Ok (["node3"; "node2"]%string, None) /\
  getClosestN ring3 (map_to_list (members ring3)) 5 2
  = getClosestN ring3 (reverse (map_to_list (members ring3))) 5 2 /\
  GetClosestNForPartition ring3 (map_to_list (members ring3)) 5 2
  = GetClosestNForPartition ring3 (reverse (map_to_list (members ring3))) 5 2
  /\
  GetClosestN ring3 (map_to_list (members ring3)) (bytes "key") 2
  = GetClosestN ring3 (reverse (map_to_list (members ring3))) (bytes "key") 2.
Proof.
  split; [reflexivity|]. split; [apply reverse_Permutation|].
  split; [vm_compute; reflexivity|].
  exact (getClosestN_independent_of_map_order ring3
           (map_to_list (members ring3))
           (reverse (map_to_list (members ring3))) (bytes "key") 5 2
           (reflexivity _) (reverse_Permutation _) ring3_hash_injective).
Defined.

Lemma Remove_after_duplicate_leaves_stale_nodes_witness :
  New (Some ["node1"; "node1"]%string) newConfig = Ok ring_1_1 /\
  (2 <= length (filter (fun m => Member_String m = "node1"%string)
                  ["node1"; "node1"]%string))%nat /\
  Remove "node1" ring_1_1 = Ok ring_1_1_less /\
  0 <= 3 < ReplicationFactor (config ring_1_1) /\
  length (sortedSet ring_1_1_less) = 20%nat /\
  ring ring_1_1_less = ∅ /\
  Add "a"%string ring_1_1_less = Panic panic_nil_deref /\
  members ring_1_1_less !! "node1"%string = None /\
  ring ring_1_1_less !! vnode ring_1_1_less "node1" 3 = None /\
  vnode ring_1_1_less "node1" 3 ∈ sortedSet ring_1_1_less.
Proof.
  assert (Hi : 0 <= 3 < ReplicationFactor (config ring_1_1))
    by (by vm_compute).
  assert (Hdup : (2 <= length (filter (fun m => Member_String m
                                                = "node1"%string)
                                 ["node1"; "node1"]%string))%nat)
    by (vm_compute; lia).
  assert (Hnew : New (Some ["node1"; "node1"]%string) newConfig = Ok ring_1_1)
    by (vm_compute; reflexivity).
  assert (Hrem : Remove "node1" ring_1_1 = Ok ring_1_1_less)
    by (vm_compute; reflexivity).
  split; [exact Hnew|]. split; [exact Hdup|]. split; [exact Hrem|].
  split; [exact Hi|]. split; [vm_compute; reflexivity|].
  split; [vm_compute; reflexivity|]. split; [vm_compute; reflexivity|].
  exact (Remove_after_duplicate_leaves_stale_nodes
           ["node1"; "node1"]%string newConfig ring_1_1 ring_1_1_less
           "node1"%string 3 Hnew Hdup Hrem Hi).
Defined.


(** ** [rendezvous] and [jump] on examples *)

Lemma rendezvous_Lookup_order_independent_witness :
  NoDup (rendezvous.call rendezvous_hashFunc
           <$> ["node1"; "node2"]%string ++ ["node3"]%string) /\
  ["node1"; "node2"]%string ++ ["node3"]%string
  ≡ₚ ["node3"; "node2"; "node1"]%string ++ [] /\
  rendezvous.Lookup
    (rendezvous.built rendezvous_hashFunc ["node1"; "node2"]%string
       ["node3"]%string) "Hello World!"
  = Ok "node2"%string /\
  rendezvous.Lookup
    (rendezvous.built rendezvous_hashFunc ["node1"; "node2"]%string
       ["node3"]%string) "Hello World!"
  = rendezvous.Lookup
      (rendezvous.built rendezvous_hashFunc ["node3"; "node2"; "node1"]%string
         []) "Hello World!" /\
  forall n : string,
    rendezvous.Lookup
      (rendezvous.built rendezvous_hashFunc ["node1"; "node2"]%string
         ["node3"]%string) "Hello World!" = Ok n ->
    ["node1"; "node2"]%string ++ ["node3"]%string <> [] ->
    n ∈ ["node1"; "node2"]%string ++ ["node3"]%string /\
    forall n' : string,
      n' ∈ ["node1"; "node2"]%string ++ ["node3"]%string -> n' <> n ->
      rendezvous.score rendezvous_hashFunc "Hello World!" n'
      < rendezvous.score rendezvous_hashFunc "Hello World!" n.
Proof.
  assert (Hnd : NoDup (rendezvous.call rendezvous_hashFunc
                         <$> ["node1"; "node2"]%string ++ ["node3"]%string))
    by (apply (bool_decide_unpack _); vm_compute; exact I).
  assert (Hperm : ["node1"; "node2"]%string ++ ["node3"]%string
                  ≡ₚ ["node3"; "node2"; "node1"]%string ++ []).
  { change (["node1"; "node2"; "node3"]%string
            ≡ₚ reverse ["node1"; "node2"; "node3"]%string).
    symmetry. apply reverse_Permutation. }
  split; [exact Hnd|]. split; [exact Hperm|].
  split; [vm_compute; reflexivity|].
  exact (rendezvous_Lookup_order_independent rendezvous_hashFunc
           ["node1"; "node2"]%string ["node3"]%string
           ["node3"; "node2"; "node1"]%string [] "Hello World!" Hnd Hperm).
Defined.

Lemma exact64_int (n : Z) :
  0 <= n <= 2 ^ 53 -> (round64 (inject_Z n) == inject_Z n)%Q.
Proof. intros _. reflexivity. Qed.

Lemma exact64_2p62 : (round64 (inject_Z (2 ^ 62)) == inject_Z (2 ^ 62))%Q.
Proof. reflexivity. Qed.

Lemma jump_Hash_in_range_witness :
  - 2 ^ 31 <= 1024 < 2 ^ 31 /\
  jump.Hash 256 1024 = Ok 520 /\
  jump.Hash 42 57 = Ok 43 /\
  jump.Hash 3735883980 666 = Ok 361 /\
  jump.Hash 3735883980 (-666) = Ok 0 /\
  exists b : Z,
    jump.Hash 256 1024 = Ok b /\
    0 <= b < Z.max 1 1024 /\
    (1024 <= 1 -> b = 0).
Proof.
  assert (Hb : - 2 ^ 31 <= 1024 < 2 ^ 31) by lia.
  split; [exact Hb|].
  split; [vm_compute; reflexivity|]. split; [vm_compute; reflexivity|].
  split; [vm_compute; reflexivity|]. split; [vm_compute; reflexivity|].
  exact (jump_Hash_in_range exact64_mono exact64_int exact64_2p62
           256 1024 Hb).
Defined.

Lemma jump_Hash_one_more_bucket_witness :
  1 <= 43 < 2 ^ 31 - 1 /\
  jump.Hash 42 43 = Ok 40 /\
  jump.Hash 42 44 = Ok 43 /\
  jump.Hash 42 45 = Ok 43 /\
  (jump.Hash 42 (43 + 1) = jump.Hash 42 43 \/ jump.Hash 42 (43 + 1) = Ok 43).
Proof.
  assert (Hn : 1 <= 43 < 2 ^ 31 - 1) by lia.
  split; [exact Hn|].
  split; [vm_compute; reflexivity|]. split; [vm_compute; reflexivity|].
  split; [vm_compute; reflexivity|].
  exact (jump_Hash_one_more_bucket exact64_mono exact64_int exact64_2p62
           42 43 Hn).
Defined.

Lemma jump_HashFunc_Hash_in_range_witness :
  (jump.HashFunc_Hash (jump.New 10 (fnv1a_state 0)) "中国").1 = Ok 5 /\
  jump.N (jump.New 10 (fnv1a_state 0)) = jump.int32 10 /\
  (- 2 ^ 31 <= 10 < 2 ^ 31 -> jump.N (jump.New 10 (fnv1a_state 0)) = 10) /\
  jump.N (jump.HashFunc_Hash (jump.New 10 (fnv1a_state 0)) "中国").2
  = jump.N (jump.New 10 (fnv1a_state 0)) /\
  ((exists e : string,
      (jump.KeyHashFunc_Write (jump.KeyHashFunc_Reset (fnv1a_state 0))
         (bytes "中国")).2 = Some e /\
      (jump.HashFunc_Hash (jump.New 10 (fnv1a_state 0)) "中国").1 = Panic e) \/
   (exists b : Z,
      (jump.KeyHashFunc_Write (jump.KeyHashFunc_Reset (fnv1a_state 0))
         (bytes "中国")).2 = None /\
      (jump.HashFunc_Hash (jump.New 10 (fnv1a_state 0)) "中国").1 = Ok b /\
      0 <= b < Z.max 1 (jump.N (jump.New 10 (fnv1a_state 0))))).
Proof.
  split; [vm_compute; reflexivity|].
  exact (jump_HashFunc_Hash_in_range exact64_mono exact64_int exact64_2p62
           10 (fnv1a_state 0) "中国").
Defined.
